(** * gallery-dl: the HTTP downloader ([gallery_dl/downloader/http.py])

    A shallow embedding of [HttpDownloader]: the signature table, the
    MIME-type resolver, the two receivers and the retry loop of
    [_download_impl], together with the properties of the downloader that
    its design document states.

    Conventions of the embedding.
    - The collaborators that live outside [http.py] (the path handle
      [pathfmt], the file object, the [requests] session, the logger) are
      external: the path handle and the file object are an interface
      ([PathFormat]), the session and the clock are oracles in [env], and
      every call made on a collaborator is recorded, in program order, in
      the [trace] of the run.
    - Log lines are structured ([warning]) rather than formatted strings.
    - Times are exact rationals ([Q]); Python uses floats there.
    - The logger is the plain one: no user-defined action hook is
      attached to a log call. *)

From Stdlib Require Import ZArith QArith Lia List Bool.
From Stdlib Require Import Strings.String Strings.Ascii Strings.Byte.
From stdpp Require Import base option gmap strings list fin_maps.
Import ListNotations.

Local Open Scope Z_scope.
Local Open Scope list_scope.

(** ** Bytes *)

Definition bytes := list byte.

Fixpoint bytes_eqb (s t : bytes) : bool :=
  match s, t with
  | [], [] => true
  | a :: s', b :: t' => Byte.eqb a b && bytes_eqb s' t'
  | _, _ => false
  end.

(** [s[a:b]] for literal bounds [0 <= a <= b]. *)
Definition slice (a b : nat) (s : bytes) : bytes := firstn (b - a) (skipn a s).

(** [s in (t1, t2, ...)]: membership in a tuple of byte strings. *)
Definition bytes_in (s : bytes) (ts : list bytes) : bool :=
  existsb (bytes_eqb s) ts.

(** The bytes of an ASCII literal. *)
Definition lit (s : string) : bytes := list_byte_of_string s.

(** [bytes.lower()]: ASCII upper-case letters are folded, nothing else. *)
Definition byte_lower (c : byte) : byte :=
  let n := Byte.to_N c in
  if ((65 <=? n) && (n <=? 90))%N
  then match Byte.of_N (n + 32) with Some c' => c' | None => c end
  else c.

(** The bytes removed by [bytes.lstrip()]: space, tab, LF, VT, FF, CR. *)
Definition byte_is_space (c : byte) : bool :=
  let n := Byte.to_N c in
  ((n =? 32) || ((9 <=? n) && (n <=? 13)))%N.

Fixpoint lstrip (s : bytes) : bytes :=
  match s with
  | c :: s' => if byte_is_space c then lstrip s' else s
  | [] => []
  end.

(** [t.startswith(s)] *)
Fixpoint startswith (t s : bytes) : bool :=
  match s, t with
  | [], _ => true
  | a :: s', c :: t' => Byte.eqb a c && startswith t' s'
  | _ :: _, [] => false
  end.

Lemma bytes_eqb_eq (s t : bytes) : bytes_eqb s t = true <-> s = t.
Proof.
  revert t; induction s as [|a s IH]; intros [|c t]; simpl; split;
    try congruence; try reflexivity.
  - intros H. apply andb_prop in H as [Hb Hs].
    apply Byte.byte_dec_bl in Hb. apply IH in Hs. congruence.
  - intros [= -> ->]. rewrite (Byte.byte_dec_lb eq_refl).
    simpl. apply IH. reflexivity.
Qed.

Lemma bytes_eqb_refl (s : bytes) : bytes_eqb s s = true.
Proof. apply bytes_eqb_eq. reflexivity. Qed.

(** ** The signature table *)

(** A signature predicate answers [Some true]/[Some false], or [None] when
    evaluating it raises [IndexError]. *)
Definition check := bytes -> option bool.

Definition total (f : bytes -> bool) : check := fun s => Some (f s).

Definition _signature_html (s : bytes) : bool :=
  let s := lstrip (firstn 14 s) in
  match s with
  | [] => false
  | _ => startswith (lit "<!doctype html") (map byte_lower s)
  end.

(** [s[4:11] == b"ftypavi" and s[11] in b"fs"]: the index [s[11]] is
    evaluated only when the left operand holds, and raises on a string of
    fewer than twelve bytes. *)
Definition signature_avif : check := fun s =>
  if bytes_eqb (slice 4 11 s) (lit "ftypavi")
  then match nth_error s 11 with
       | Some c => Some (Byte.eqb c x66 || Byte.eqb c x73)
       | None => None
       end
  else Some false.

Definition SIGNATURE_CHECKS : list (string * check) :=
  [ ("jpg"%string, total (fun s => bytes_eqb (slice 0 3 s) [xff; xd8; xff]));
    ("png"%string, total (fun s => bytes_eqb (slice 0 8 s)
                             [x89; x50; x4e; x47; x0d; x0a; x1a; x0a]));
    ("gif"%string, total (fun s => bytes_in (slice 0 6 s) [lit "GIF87a"; lit "GIF89a"]));
    ("bmp"%string, total (fun s => bytes_eqb (slice 0 2 s) (lit "BM")));
    ("webp"%string, total (fun s => bytes_eqb (slice 0 4 s) (lit "RIFF") &&
                              bytes_eqb (slice 8 12 s) (lit "WEBP")));
    ("avif"%string, signature_avif);
    ("heic"%string, total (fun s => bytes_eqb (slice 4 10 s) (lit "ftyphe") &&
                              bytes_in (slice 10 12 s)
                                [lit "ic"; lit "im"; lit "is"; lit "ix"; lit "vc"; lit "vm"; lit "vs"]));
    ("svg"%string, total (fun s => bytes_eqb (slice 0 5 s) (lit "<?xml")));
    ("ico"%string, total (fun s => bytes_eqb (slice 0 4 s) [x00; x00; x01; x00]));
    ("cur"%string, total (fun s => bytes_eqb (slice 0 4 s) [x00; x00; x02; x00]));
    ("psd"%string, total (fun s => bytes_eqb (slice 0 4 s) (lit "8BPS")));
    ("mp4"%string, total (fun s => bytes_eqb (slice 4 8 s) (lit "ftyp") &&
                              bytes_in (slice 8 11 s) [lit "mp4"; lit "avc"; lit "iso"]));
    ("m4v"%string, total (fun s => bytes_eqb (slice 4 11 s) (lit "ftypM4V")));
    ("mov"%string, total (fun s => bytes_eqb (slice 4 12 s) (lit "ftypqt  ")));
    ("webm"%string, total (fun s => bytes_eqb (slice 0 4 s) [x1a; x45; xdf; xa3]));
    ("ogg"%string, total (fun s => bytes_eqb (slice 0 4 s) (lit "OggS")));
    ("wav"%string, total (fun s => bytes_eqb (slice 0 4 s) (lit "RIFF") &&
                              bytes_eqb (slice 8 12 s) (lit "WAVE")));
    ("mp3"%string, total (fun s => bytes_eqb (slice 0 3 s) (lit "ID3") ||
                              bytes_in (slice 0 2 s)
                                [[xff; xfb]; [xff; xf3]; [xff; xf2]]));
    ("zip"%string, total (fun s => bytes_in (slice 0 4 s)
                             [[x50; x4b; x03; x04]; [x50; x4b; x05; x06];
                              [x50; x4b; x07; x08]]));
    ("rar"%string, total (fun s => bytes_eqb (slice 0 6 s)
                             [x52; x61; x72; x21; x1a; x07]));
    ("7z"%string, total (fun s => bytes_eqb (slice 0 6 s)
                            [x37; x7a; xbc; xaf; x27; x1c]));
    ("pdf"%string, total (fun s => bytes_eqb (slice 0 5 s) (lit "%PDF-")));
    ("swf"%string, total (fun s => bytes_in (slice 0 3 s) [lit "CWS"; lit "FWS"]));
    ("html"%string, total _signature_html);
    ("htm"%string, total _signature_html);
    ("blend"%string, total (fun s => bytes_eqb (slice 0 7 s) (lit "BLENDER")));
    ("obj"%string, total (fun s => bytes_eqb (slice 0 11 s) (lit "# Blender v")));
    ("clip"%string, total (fun s => bytes_eqb (slice 0 8 s) (lit "CSFCHUNK")));
    ("bin"%string, total (fun _ => false)) ].

(** [ext in SIGNATURE_CHECKS] and [SIGNATURE_CHECKS[ext]] *)
Fixpoint sig_lookup (tbl : list (string * check)) (ext : string) : option check :=
  match tbl with
  | [] => None
  | (e, c) :: tbl' => if String.eqb e ext then Some c else sig_lookup tbl' ext
  end.

Definition in_signature_checks (ext : string) : bool :=
  match sig_lookup SIGNATURE_CHECKS ext with Some _ => true | None => false end.

(** The [for ext, check in SIGNATURE_CHECKS.items()] loop of
    [_adjust_extension]: the first entry whose predicate holds wins. *)
Inductive scan_result :=
| ScanFound (ext : string)
| ScanNone
| ScanRaise.

Fixpoint scan_signatures (tbl : list (string * check)) (h : bytes) : scan_result :=
  match tbl with
  | [] => ScanNone
  | (e, c) :: tbl' =>
      match c h with
      | None => ScanRaise
      | Some true => ScanFound e
      | Some false => scan_signatures tbl' h
      end
  end.

(** ** The MIME table *)

Definition MIME_TYPES : gmap string string :=
  list_to_map
    [ ("image/jpeg", "jpg"); ("image/jpg", "jpg"); ("image/png", "png");
      ("image/gif", "gif"); ("image/bmp", "bmp"); ("image/x-bmp", "bmp");
      ("image/x-ms-bmp", "bmp"); ("image/webp", "webp"); ("image/avif", "avif");
      ("image/heic", "heic"); ("image/heif", "heif"); ("image/svg+xml", "svg");
      ("image/ico", "ico"); ("image/icon", "ico"); ("image/x-icon", "ico");
      ("image/vnd.microsoft.icon", "ico"); ("image/x-photoshop", "psd");
      ("application/x-photoshop", "psd"); ("image/vnd.adobe.photoshop", "psd");
      ("video/webm", "webm"); ("video/ogg", "ogg"); ("video/mp4", "mp4");
      ("video/m4v", "m4v"); ("video/x-m4v", "m4v"); ("video/quicktime", "mov");
      ("audio/wav", "wav"); ("audio/x-wav", "wav"); ("audio/webm", "webm");
      ("audio/ogg", "ogg"); ("audio/mpeg", "mp3");
      ("application/zip", "zip"); ("application/x-zip", "zip");
      ("application/x-zip-compressed", "zip"); ("application/rar", "rar");
      ("application/x-rar", "rar"); ("application/x-rar-compressed", "rar");
      ("application/x-7z-compressed", "7z");
      ("application/pdf", "pdf"); ("application/x-pdf", "pdf");
      ("application/x-shockwave-flash", "swf");
      ("text/html", "html");
      ("application/ogg", "ogg"); ("model/obj", "obj");
      ("application/octet-stream", "bin") ]%string.

(** [s.partition(c)[0]]: what precedes the first [c], all of [s] without one. *)
Fixpoint partition_head (c : ascii) (s : string) : string :=
  match s with
  | EmptyString => EmptyString
  | String a s' => if Ascii.eqb a c then EmptyString else String a (partition_head c s')
  end.

(** [s.rpartition(c)[2]]: what follows the last [c], all of [s] without one. *)
Fixpoint rpartition_tail (c : ascii) (s : string) : string :=
  match s with
  | EmptyString => EmptyString
  | String a s' =>
      if existsb (Ascii.eqb c) (list_ascii_of_string s') then rpartition_tail c s'
      else if Ascii.eqb a c then s' else String a s'
  end.

(** [c in s] for a one-character [c]. *)
Definition contains_char (c : ascii) (s : string) : bool :=
  existsb (Ascii.eqb c) (list_ascii_of_string s).

(** [s[1:]] *)
Definition drop_first (s : string) : string :=
  match s with
  | EmptyString => EmptyString
  | String _ s' => s'
  end.

Definition nonempty (s : string) : bool :=
  match s with EmptyString => false | _ => true end.

(** ** Data model *)

(** [self.retries]: a negative configured value means no limit. *)
Inductive retry_limit :=
| Limit (r : nat)
| Unbounded.

(** [tries > self.retries] *)
Definition exceeds (tries : nat) (l : retry_limit) : bool :=
  match l with
  | Limit r => (r <? tries)%nat
  | Unbounded => false
  end.

(** The headers of a response that the downloader reads
    ([response.headers] is case-insensitive). *)
Record headers := {
  content_type : option string;
  content_length : option string;
  content_range : option string;
  last_modified : option string;
}.

(** What [FLAGS.process("DOWNLOAD")] raises when a flag is set:
    [StopExtraction], or another [ControlException]. *)
Inductive signal :=
| SigStop
| SigControl.

(** One step of a lazy [iter_content] stream: a chunk, with the reading of
    [time.monotonic()] when it arrives and the flag polled after it is
    written, or a [RequestException]/[SSLError] raised by the read. *)
Inductive item :=
| Chunk (t : Q) (data : bytes) (flag : option signal)
| ReadError (msg : string).

Record response := {
  status_code : Z;
  reason : string;
  r_url : string;
  history : bool;                  (* [response.history] is non-empty *)
  r_headers : headers;
  chunked : bool;                  (* [response.raw.chunked] *)
  content : list item;             (* [response.iter_content(chunk_size)] *)
  probe16 : item;                  (* [next(response.iter_content(16), b'')] *)
  content_after_probe : list item; (* [content], read after that probe *)
  time_start : Q;                  (* [time.monotonic()] when receiving starts *)
}.

(** [bool(response)] is [response.ok] in [requests]: no 4xx or 5xx status. *)
Definition response_ok (r : response) : bool :=
  negb ((400 <=? status_code r) && (status_code r <? 600)).

(** What [session.request] does: raise [ConnectionError] (with the message
    extracted from it), raise [Timeout], raise something else, or answer. *)
Inductive reply :=
| ConnectionError (msg : string)
| Timeout (msg : string)
| OtherException (msg : string)
| Answer (r : response).

Record request := {
  rq_index : nat;          (* requests issued before this one *)
  rq_url : string;
  rq_range : option N;     (* [headers["Range"] = f"bytes={file_size}-"] *)
}.

(** The result of [kwdict["_http_validate"](response)]. *)
Inductive validation :=
| VString (url : string)
| VBool (ok : bool)          (* any other value, by its truth value *)
| VRaise.

(** The result of [kwdict["_http_signature"](file_header)]: [True], or
    anything else (a message when it is a non-empty string). *)
Inductive sig_validation :=
| SigTrue
| SigOther (text : option string).

(** The [_http_*] entries of [pathfmt.kwdict]. *)
Record kwdict := {
  _http_expected_status : list Z;
  _http_adjust_extension : option bool;
  _http_retry : option (response -> bool);
  _http_validate : option (response -> validation);
  _http_signature : option (bytes -> sig_validation);
  _http_lastmodified : option (option string);
}.

(** The attributes of the downloader after [__init__]. *)
Record config := {
  adjust_extension : bool;
  metadata : option string;
  progress : option Q;
  validate : bool;
  validate_html : bool;
  minsize : option Z;
  maxsize : option Z;
  retries : retry_limit;
  retry_codes : list Z;
  mtime : bool;
  rate : option (nat -> Q);          (* [self.rate()], by attempt *)
  interval_429 : option (nat -> Q);  (* [self.interval_429()], by attempt *)
  part : bool;
}.

(** The oracles of a run. *)
Record env := {
  server : request -> reply;
  detect_challenge : response -> option string;  (* [util.detect_challenge] *)
  guess_extension : string -> option string;     (* [mimetypes.guess_extension] *)
  parse_int : option string -> option Z;         (* [text.parse_int(_, None)] *)
}.

Inductive open_mode :=
| WPlusB   (* "w+b": create or truncate *)
| RPlusB.  (* "r+b": update in place *)

(** The path handle [pathfmt] (together with the files behind it) and the
    file object it opens. *)
Class PathFormat (P F : Type) := {
  extension : P -> string;
  temppath : P -> string;
  set_temppath : string -> P -> P;
  set_extension : string -> P -> P;
  build_path : P -> P;
  path_exists : P -> bool;                        (* [pathfmt.exists()] *)
  part_enable : P -> P;
  part_size : P -> N;
  set_kwdict : string -> headers -> P -> P;       (* [kwdict[metadata] = ...] *)
  set_mtime_http : option string -> P -> P;       (* [kwdict["_mtime_http"] = ...] *)
  path_open : open_mode -> P -> option F;         (* [None]: the file is gone *)
  path_close : F -> P -> P;                       (* leaving the [with] block *)
  remove_file : string -> P -> P;                 (* [util.remove_file] *)
  f_write : bytes -> F -> F;
  f_read : nat -> F -> bytes;
  f_seek : N -> F -> F;
  f_tell : F -> N;
}.

(** Messages kept in [msg] for the next retry warning. *)
Inductive message :=
| MsgNone                                              (* the empty string *)
| MsgText (s : string)                                 (* [str(exc)] *)
| MsgStatus (code : Z) (reason url : string)           (* "'{code} {reason}' for '{url}'" *)
| MsgSizeMismatch (have : N) (want : Z).               (* "file size mismatch ({} < {})" *)

(** The calls of [self.log.warning]. *)
Inductive warning :=
| WRetry (m : message) (tries : nat) (total : retry_limit)  (* "%s (%s/%s)", with retries+1 *)
| WException (s : string)
| WChallenge (s : string)
| WStatus (m : message)
| WInvalidResponse
| WRedirect (url : string)
| WHtmlResponse
| WTooSmall (size min : Z)
| WTooLarge (size max : Z)
| WSignature (s : string)
| WUnknownMime (mtype : string).

Inductive event :=
| EvRequest (rq : request)
| EvSleep (secs : Q)
| EvWarning (w : warning)
| EvDebug (s : string)
| EvRelease                      (* [self.release_conn(response)] *)
| EvResponseClose                (* [response.close()] *)
| EvPartEnable
| EvSetExtension (ext : string)
| EvBuildPath
| EvClearTemppath                (* [pathfmt.temppath = ''] *)
| EvSetKwdict (key : string)
| EvSetMtime (v : option string)
| EvOpen (m : open_mode)
| EvRead (n : nat)
| EvSeek (pos : N)
| EvWrite (data : bytes)
| EvClose
| EvStart                        (* [self.out.start(pathfmt.path)] *)
| EvProgress (total : option Z) (done : Z) (speed : Z)
| EvStderr                       (* [output.stderr_write] of a newline *)
| EvRemoveFile (path : string).

(** The [return] statements of [_download_impl], by the source line, and
    the end of the function after the loop. *)
Inductive exit :=
| ExitRetries      (* 128 *)
| ExitTransport    (* 177 *)
| ExitStatus       (* 203 *)
| ExitInvalid      (* 220 *)
| ExitHtml         (* 228 *)
| ExitTooSmall     (* 239 *)
| ExitTooLarge     (* 246 *)
| ExitExists       (* 273 *)
| ExitSignature    (* 299 *)
| ExitAdjusted     (* 304 *)
| ExitStop         (* 339 *)
| ExitDone.        (* 361 *)

(** The value returned at each of them. *)
Definition returned (e : exit) : bool :=
  match e with
  | ExitRetries | ExitTransport | ExitStatus | ExitInvalid | ExitHtml
  | ExitSignature | ExitStop => false
  | ExitTooSmall | ExitTooLarge | ExitExists | ExitAdjusted | ExitDone => true
  end.

Inductive exn :=
| KeyError
| IndexError
| ZeroDivisionError
| AttributeError
| ValidateError        (* raised by the [_http_validate] callback *)
| ControlException.

(** Modelled from the spec: the tri-state outcome that the design document
    reads into the boolean result.  [Skipped] is the result [True] of the
    two size-limit returns, [Failed] is the result [False], and every other
    [True] is [Success]. *)
Inductive TransferOutcome :=
| Success
| Skipped
| Failed.

Definition outcome (e : exit) : TransferOutcome :=
  match e with
  | ExitTooSmall | ExitTooLarge => Skipped
  | _ => if returned e then Success else Failed
  end.

(** ** The control monad

    A computation reads and updates the variables of the run, emits
    events, and either goes on with a value or leaves the loop body through
    [continue], [break], [return] or an exception. *)

Inductive flow (A : Type) :=
| Next (a : A)
| Continue
| Break
| Return (e : exit)
| Raise (x : exn).

Arguments Next {A} a.
Arguments Continue {A}.
Arguments Break {A}.
Arguments Return {A} e.
Arguments Raise {A} x.

Section Downloader.

Context {P F : Type} `{PathFormat P F}.
Variable cfg : config.
Variable E : env.
Variable kw : kwdict.

(** The variables of [_download_impl] that outlive one pass of the loop, the
    [downloading] attribute, and the path handle. *)
Record state := {
  world : P;
  downloading : bool;
  tries : nat;
  code : Z;
  msg : message;
  url : string;
  resp : option response;
  pending : option string;   (* the local [metadata] *)
  issued : nat;              (* requests issued so far *)
}.

Definition M (A : Type) : Type := state -> flow A * state * list event.

Definition pure {A} (a : A) : M A := fun s => (Next a, s, []).

Definition bind {A B} (m : M A) (k : A -> M B) : M B := fun s =>
  let '(r, s1, t1) := m s in
  match r with
  | Next a => let '(r2, s2, t2) := k a s1 in (r2, s2, t1 ++ t2)
  | Continue => (Continue, s1, t1)
  | Break => (Break, s1, t1)
  | Return e => (Return e, s1, t1)
  | Raise x => (Raise x, s1, t1)
  end.

Notation "x <- m ;; k" := (bind m (fun x => k))
  (at level 100, m at next level, right associativity).
Notation "m ;; k" := (bind m (fun _ => k))
  (at level 100, right associativity).

Definition emit (ev : event) : M unit := fun s => (Next tt, s, [ev]).
Definition gets {A} (f : state -> A) : M A := fun s => (Next (f s), s, []).
Definition modify (f : state -> state) : M unit := fun s => (Next tt, f s, []).
Definition leave {A} (r : flow A) : M A := fun s => (r, s, []).
Definition when (c : bool) (m : M unit) : M unit := if c then m else pure tt.

Definition set_world (w : P) (s : state) : state :=
  {| world := w; downloading := downloading s; tries := tries s; code := code s;
     msg := msg s; url := url s; resp := resp s; pending := pending s;
     issued := issued s |}.
Definition set_downloading (d : bool) (s : state) : state :=
  {| world := world s; downloading := d; tries := tries s; code := code s;
     msg := msg s; url := url s; resp := resp s; pending := pending s;
     issued := issued s |}.
Definition set_tries (n : nat) (s : state) : state :=
  {| world := world s; downloading := downloading s; tries := n; code := code s;
     msg := msg s; url := url s; resp := resp s; pending := pending s;
     issued := issued s |}.
Definition set_code (c : Z) (s : state) : state :=
  {| world := world s; downloading := downloading s; tries := tries s; code := c;
     msg := msg s; url := url s; resp := resp s; pending := pending s;
     issued := issued s |}.
Definition set_msg (m : message) (s : state) : state :=
  {| world := world s; downloading := downloading s; tries := tries s; code := code s;
     msg := m; url := url s; resp := resp s; pending := pending s;
     issued := issued s |}.
Definition set_url (u : string) (s : state) : state :=
  {| world := world s; downloading := downloading s; tries := tries s; code := code s;
     msg := msg s; url := u; resp := resp s; pending := pending s;
     issued := issued s |}.
Definition set_resp (r : option response) (s : state) : state :=
  {| world := world s; downloading := downloading s; tries := tries s; code := code s;
     msg := msg s; url := url s; resp := r; pending := pending s;
     issued := issued s |}.
Definition set_pending (m : option string) (s : state) : state :=
  {| world := world s; downloading := downloading s; tries := tries s; code := code s;
     msg := msg s; url := url s; resp := resp s; pending := m;
     issued := issued s |}.
Definition set_issued (n : nat) (s : state) : state :=
  {| world := world s; downloading := downloading s; tries := tries s; code := code s;
     msg := msg s; url := url s; resp := resp s; pending := pending s;
     issued := n |}.

(** A call on the path handle: the event, and its effect. *)
Definition call (ev : event) (f : P -> P) : M unit :=
  emit ev ;; modify (fun s => set_world (f (world s)) s).

Definition warn (w : warning) : M unit := emit (EvWarning w).

(** [self.release_conn(response)] *)
Definition release_conn : M unit := emit EvRelease.

(** [pathfmt.temppath = ''] *)
Definition clear_temppath : M unit := call EvClearTemppath (set_temppath EmptyString).

(** ** [_find_extension] *)

Definition _find_extension (r : response) : M string :=
  let mtype := default "image/jpeg"%string (content_type (r_headers r)) in
  let mtype := partition_head ";"%char mtype in
  let mtype := if contains_char "/"%char mtype then mtype
               else ("image/" ++ mtype)%string in
  match MIME_TYPES !! mtype with
  | Some ext => pure ext
  | None =>
      match guess_extension E mtype with
      | Some (String c ext) => pure ext
      | _ => warn (WUnknownMime mtype) ;; pure "bin"%string
      end
  end.

(** ** [_adjust_extension] *)

Definition _adjust_extension (file_header : bytes) : M bool :=
  p <- gets world ;;
  match sig_lookup SIGNATURE_CHECKS (extension p) with
  | None => leave (Raise KeyError)
  | Some chk =>
      match chk file_header with
      | None => leave (Raise IndexError)
      | Some true => pure false
      | Some false =>
          match scan_signatures SIGNATURE_CHECKS file_header with
          | ScanRaise => leave (Raise IndexError)
          | ScanNone => pure false
          | ScanFound ext =>
              call (EvSetExtension ext) (set_extension ext) ;;
              call EvBuildPath build_path ;;
              pure true
          end
      end
  end.

(** ** The receivers *)

(** How a receiver call ends: normally, or with one of the exceptions that
    [_download_impl] tells apart. *)
Inductive received :=
| RecvDone
| RecvError (m : string)      (* [RequestException], [SSLError] *)
| RecvStop                    (* [StopExtraction] *)
| RecvControl                 (* another [ControlException] *)
| RecvZeroDivision.

Definition raised_by (g : signal) : received :=
  match g with
  | SigStop => RecvStop
  | SigControl => RecvControl
  end.

(** [receive(fp, content, bytes_total, bytes_start)] *)
Fixpoint receive (fp : F) (content : list item) : received * F * list event :=
  match content with
  | [] => (RecvDone, fp, [])
  | ReadError m :: _ => (RecvError m, fp, [])
  | Chunk _ data flag :: rest =>
      let fp := f_write data fp in
      match flag with
      | Some g => (raised_by g, fp, [EvWrite data])
      | None =>
          let '(r, fp, t) := receive fp rest in
          (r, fp, EvWrite data :: t)
      end
  end.

Definition Qltb (x y : Q) : bool := negb (Qle_bool y x).

(** [int(q)]: truncation towards zero. *)
Definition int_of_Q (q : Q) : Z := Z.quot (Qnum q) (Zpos (Qden q)).

Definition byte_count (data : bytes) : Z := Z.of_nat (length data).

(** The [if progress is not None] block for one chunk. *)
Definition report_progress (progress : option Q) (bytes_total : option Z)
    (bytes_start bytes_downloaded : Z) (time_elapsed : Q)
  : option (list event) :=
  match progress with
  | Some p =>
      if Qltb p time_elapsed then
        if Qeq_bool time_elapsed 0 then None
        else Some [EvProgress bytes_total (bytes_start + bytes_downloaded)
                     (int_of_Q (inject_Z bytes_downloaded / time_elapsed))]
      else Some []
  | None => Some []
  end.

(** The [if rate is not None] block for one chunk. *)
Definition throttle (rate : option Q) (bytes_downloaded : Z) (time_elapsed : Q)
  : option (list event) :=
  match rate with
  | Some r =>
      if Qeq_bool r 0 then None
      else
        let time_expected := (inject_Z bytes_downloaded / r)%Q in
        if Qltb time_elapsed time_expected
        then Some [EvSleep (time_expected - time_elapsed)%Q]
        else Some []
  | None => Some []
  end.

(** The loop of [_receive_rate], with [bytes_downloaded] so far. *)
Fixpoint receive_rate_loop (rate progress : option Q) (bytes_total : option Z)
    (bytes_start : Z) (time_start : Q) (bytes_downloaded : Z)
    (fp : F) (content : list item) : received * F * list event :=
  match content with
  | [] => (RecvDone, fp, [])
  | ReadError m :: _ => (RecvError m, fp, [])
  | Chunk t data flag :: rest =>
      let time_elapsed := (t - time_start)%Q in
      let bytes_downloaded := bytes_downloaded + byte_count data in
      let fp := f_write data fp in
      match flag with
      | Some g => (raised_by g, fp, [EvWrite data])
      | None =>
          match report_progress progress bytes_total bytes_start
                  bytes_downloaded time_elapsed with
          | None => (RecvZeroDivision, fp, [EvWrite data])
          | Some t1 =>
              match throttle rate bytes_downloaded time_elapsed with
              | None => (RecvZeroDivision, fp, EvWrite data :: t1)
              | Some t2 =>
                  let '(r, fp, t3) :=
                    receive_rate_loop rate progress bytes_total bytes_start
                      time_start bytes_downloaded fp rest in
                  (r, fp, EvWrite data :: t1 ++ t2 ++ t3)
              end
          end
      end
  end.

(** [_receive_rate(fp, content, bytes_total, bytes_start)]; [rate] is the
    value of [self.rate() if self.rate else None]. *)
Definition _receive_rate (rate : option Q) (fp : F) (content : list item)
    (bytes_total : option Z) (bytes_start : Z) (time_start : Q)
  : received * F * list event :=
  receive_rate_loop rate (progress cfg) bytes_total bytes_start time_start 0
    fp content.

(** [self.receive]: [__init__] installs [_receive_rate] when a rate limit or
    a progress interval is configured. *)
Definition self_receive (n : nat) (fp : F) (content : list item)
    (bytes_total : option Z) (bytes_start : Z) (time_start : Q)
  : received * F * list event :=
  match rate cfg, progress cfg with
  | None, None => receive fp content
  | _, _ =>
      _receive_rate (option_map (fun f => f n) (rate cfg)) fp content
        bytes_total bytes_start time_start
  end.

(** ** [_download_impl] *)

Definition truthy (z : option Z) : bool :=
  match z with Some v => negb (v =? 0) | None => false end.

Definition truthy_key (k : option string) : bool :=
  match k with Some v => nonempty v | None => false end.

Definition code_in (c : Z) (codes : list Z) : bool := existsb (Z.eqb c) codes.

(** [kwdict.get("_http_adjust_extension", self.adjust_extension)] *)
Definition adjust : bool :=
  default (adjust_extension cfg) (_http_adjust_extension kw).

(** The [time.sleep] before a further attempt (lines 130-134). *)
Definition backoff (code : Z) (tries : nat) : Q :=
  match interval_429 cfg with
  | Some f =>
      if code =? 429 then
        let s := f tries in
        if Qltb (inject_Z (Z.of_nat tries)) s then s
        else inject_Z (Z.of_nat tries)
      else inject_Z (Z.of_nat tries)
  | None => inject_Z (Z.of_nat tries)
  end.

(** The total shown in a retry warning: [self.retries + 1]. *)
Definition total_tries : retry_limit :=
  match retries cfg with
  | Limit k => Limit (k + 1)
  | Unbounded => Unbounded
  end.

(** Lines 121-135: what precedes every pass but the first. *)
Definition retry_wait : M unit :=
  n <- gets tries ;;
  match n with
  | O => pure tt
  | S _ =>
      r <- gets resp ;;
      match r with
      | Some r' =>
          when (response_ok r') (release_conn ;; modify (set_resp None))
      | None => pure tt
      end ;;
      m <- gets msg ;;
      warn (WRetry m n total_tries) ;;
      if exceeds n (retries cfg) then leave (Return ExitRetries)
      else
        c <- gets code ;;
        emit (EvSleep (backoff c n)) ;;
        modify (set_code 0)
  end.

(** Lines 140-162: the request that a pass of the loop sends; the [Range]
    header is set when the partial file is not empty.  (The other headers,
    the method and the body are handed on to the session unchanged.) *)
Definition next_request (s : state) : request :=
  {| rq_index := issued s; rq_url := url s;
     rq_range := if (part_size (world s) =? 0)%N then None
                 else Some (part_size (world s)) |}.

(** Lines 137-177: count the attempt and issue the request.  The result is
    [file_size] and the response. *)
Definition send_request : M (N * response) :=
  modify (fun s => set_tries (S (tries s)) s) ;;
  rq <- gets next_request ;;
  file_size <- gets (fun s => part_size (world s)) ;;
  emit (EvRequest rq) ;;
  modify (fun s => set_issued (S (issued s)) s) ;;
  match server E rq with
  | ConnectionError m => modify (set_msg (MsgText m)) ;; leave Continue
  | Timeout m => modify (set_msg (MsgText m)) ;; leave Continue
  | OtherException m => warn (WException m) ;; leave (Return ExitTransport)
  | Answer r => modify (set_resp (Some r)) ;; pure (file_size, r)
  end.

(** Lines 196-200: a status that is tried again. *)
Definition wants_retry (r : response) : bool :=
  let c := status_code r in
  code_in c (retry_codes cfg) || ((500 <=? c) && (c <? 600))
  || match _http_retry kw with Some retry => retry r | None => false end.

(** Lines 190-203: any other status. *)
Definition reject_status {A} (r : response) : M A :=
  u <- gets url ;;
  modify (set_msg (MsgStatus (status_code r) (reason r) u)) ;;
  match detect_challenge E r with
  | Some challenge => warn (WChallenge challenge)
  | None => pure tt
  end ;;
  if wants_retry r then leave Continue
  else
    release_conn ;;
    m <- gets msg ;;
    warn (WStatus m) ;;
    leave (Return ExitStatus).

(** Lines 180-203: the status code.  The result is [offset] and the
    declared size, still a string. *)
Definition check_response (file_size : N) (r : response)
  : M (N * option string) :=
  let c := status_code r in
  modify (set_code c) ;;
  if (c =? 200) || code_in c (_http_expected_status kw) then
    pure (0%N, content_length (r_headers r))
  else if c =? 206 then
    match content_range (r_headers r) with
    | Some v => pure (file_size, Some (rpartition_tail "/"%char v))
    | None => leave (Raise KeyError)
    end
  else if (c =? 416) && negb (file_size =? 0)%N then
    leave Break
  else reject_status r.

(** Lines 206-220: the [_http_validate] callback. *)
Definition check_validate (r : response) : M unit :=
  match (if validate cfg then _http_validate kw else None) with
  | Some v =>
      match v r with
      | VRaise => release_conn ;; leave (Raise ValidateError)
      | VString u =>
          modify (set_url u) ;;
          modify (fun s => set_tries (Nat.pred (tries s)) s) ;;
          leave Continue
      | VBool false =>
          release_conn ;; warn WInvalidResponse ;; leave (Return ExitInvalid)
      | VBool true => pure tt
      end
  | None => pure tt
  end.

(** Lines 221-228: an HTML page where a file was expected. *)
Definition check_html (r : response) : M unit :=
  p <- gets world ;;
  if validate_html cfg
     && String.prefix "text/html" (default EmptyString (content_type (r_headers r)))
     && negb (String.eqb (extension p) "html" || String.eqb (extension p) "htm")
  then
    (if history r then warn (WRedirect (r_url r)) else warn WHtmlResponse) ;;
    leave (Return ExitHtml)
  else pure tt.

(** Lines 231-246: the size limits.  The result is the parsed size. *)
Definition check_size (size : option string) : M (option Z) :=
  match parse_int E size with
  | Some sz =>
      if truthy (minsize cfg) && (sz <? default 0 (minsize cfg)) then
        release_conn ;;
        warn (WTooSmall sz (default 0 (minsize cfg))) ;;
        clear_temppath ;;
        leave (Return ExitTooSmall)
      else if truthy (maxsize cfg) && (default 0 (maxsize cfg) <? sz) then
        release_conn ;;
        warn (WTooLarge sz (default 0 (maxsize cfg))) ;;
        clear_temppath ;;
        leave (Return ExitTooLarge)
      else pure (Some sz)
  | None => pure None
  end.

(** Lines 248-276: the extension from the MIME type, the metadata from the
    headers, and the path. *)
Definition prepare_path (r : response) : M unit :=
  p <- gets world ;;
  b1 <- (if nonempty (extension p) then pure false
         else
           ext <- _find_extension r ;;
           call (EvSetExtension ext) (set_extension ext) ;;
           pure true) ;;
  md <- gets pending ;;
  b2 <- (match md with
         | Some key =>
             if nonempty key then
               call (EvSetKwdict key) (set_kwdict key (r_headers r)) ;;
               pure true
             else pure b1
         | None => pure b1
         end) ;;
  if b2 then
    call EvBuildPath build_path ;;
    p <- gets world ;;
    if path_exists p then
      clear_temppath ;;
      emit EvResponseClose ;;
      leave (Return ExitExists)
    else
      when (part cfg && truthy_key md) (call EvPartEnable part_enable) ;;
      modify (set_pending None)
  else pure tt.

(** [result or "Invalid file signature bytes"] *)
Definition signature_text (t : option string) : string :=
  match t with
  | Some (String c s) => String c s
  | _ => "Invalid file signature bytes"%string
  end.

(** Lines 278-304: the header probe.  The result is [file_header] and what
    is left of [content]. *)
Definition check_header (r : response) (offset : N)
  : M (option bytes * list item) :=
  p <- gets world ;;
  let validate_sig := _http_signature kw in
  let validate_ext := adjust && in_signature_checks (extension p) in
  if (offset =? 0)%N && (validate_ext || bool_decide (is_Some validate_sig)) then
    let '(first, rest) :=
      if chunked r then
        match content r with
        | i :: rest => (i, rest)
        | [] => (Chunk 0 [] None, [])
        end
      else (probe16 r, content_after_probe r) in
    match first with
    | ReadError m => modify (set_msg (MsgText m)) ;; leave Continue
    | Chunk _ file_header _ =>
        match validate_sig with
        | Some vs =>
            match vs file_header with
            | SigTrue => pure tt
            | SigOther t =>
                release_conn ;;
                warn (WSignature (signature_text t)) ;;
                leave (Return ExitSignature)
            end
        | None => pure tt
        end ;;
        (if validate_ext then
           changed <- _adjust_extension file_header ;;
           p <- gets world ;;
           if changed && path_exists p then
             clear_temppath ;;
             emit EvResponseClose ;;
             leave (Return ExitAdjusted)
           else pure tt
         else pure tt) ;;
        pure (Some file_header, rest)
    end
  else pure (None, content r).

Fixpoint emit_all (t : list event) : M unit :=
  match t with
  | [] => pure tt
  | ev :: t' => emit ev ;; emit_all t'
  end.

(** Leaving the [with pathfmt.open(mode) as fp] block other than by
    falling through closes the file. *)
Definition guard {A} (fp : F) (m : M A) : M A := fun s =>
  let '(r, s1, t1) := m s in
  match r with
  | Next a => (r, s1, t1)
  | _ => (r, set_world (path_close fp (world s1)) s1, t1 ++ [EvClose])
  end.

(** Lines 316-317: [self.downloading = True], then [pathfmt.open(mode)]. *)
Definition open_file (mode : open_mode) : M (option F) :=
  modify (set_downloading true) ;;
  p <- gets world ;;
  emit (EvOpen mode) ;;
  pure (path_open mode p).

(** Lines 330-348: the receiver on the open file [fst fo], from the
    position [snd fo], and the checks after it. *)
Definition receive_into (r : response) (rest : list item) (size : option Z)
    (fo : F * N) : M unit :=
  emit EvStart ;;
  n <- gets tries ;;
  let received :=
    self_receive n (fst fo) rest size (Z.of_N (snd fo)) (time_start r) in
  let fp := snd (fst received) in
  emit_all (snd received) ;;
  guard fp
    (match fst (fst received) with
     | RecvError m =>
         modify (set_msg (MsgText m)) ;; emit EvStderr ;; leave Continue
     | RecvStop => emit EvResponseClose ;; leave (Return ExitStop)
     | RecvControl => emit EvResponseClose ;; leave (Raise ControlException)
     | RecvZeroDivision => leave (Raise ZeroDivisionError)
     | RecvDone =>
         if truthy size && (Z.of_N (f_tell fp) <? default 0 size) then
           modify (set_msg (MsgSizeMismatch (f_tell fp) (default 0 size))) ;;
           emit EvStderr ;;
           leave Continue
         else pure tt
     end) ;;
  call EvClose (path_close fp) ;;
  leave Break.

(** Lines 318-348: the body of the [with] block, on the open file. *)
Definition transfer (r : response) (offset : N) (file_header : option bytes)
    (rest : list item) (size : option Z) (fp : F) : M unit :=
  fo <- guard fp
    (match file_header with
     | Some (c :: h) =>
         emit (EvWrite (c :: h)) ;;
         pure (f_write (c :: h) fp, (offset + N.of_nat (length (c :: h)))%N)
     | _ =>
         if (offset =? 0)%N then pure (fp, offset)
         else
           p <- gets world ;;
           (if adjust && in_signature_checks (extension p) then
              emit (EvRead 16) ;;
              _ <- _adjust_extension (f_read 16 fp) ;;
              pure tt
            else pure tt) ;;
           emit (EvSeek offset) ;;
           pure (f_seek offset fp, offset)
     end) ;;
  receive_into r rest size fo.

(** Lines 307-350: the open mode, the file, and the body. *)
Definition stream (r : response) (file_size offset : N)
    (file_header : option bytes) (rest : list item) (size : option Z)
  : M unit :=
  let mode := if (offset =? 0)%N then WPlusB else RPlusB in
  (if (offset =? 0)%N then
     when (negb (file_size =? 0)%N)
       (emit (EvDebug "Unable to resume partial download"))
   else emit (EvDebug "Resuming download at byte")) ;;
  opened <- open_file mode ;;
  match opened with
  | None => leave Break
  | Some fp => transfer r offset file_header rest size fp
  end.

(** Lines 180-350: what becomes of an answer. *)
Definition handle_answer (file_size : N) (r : response) : M unit :=
  os <- check_response file_size r ;;
  let '(offset, size) := os in
  check_validate r ;;
  check_html r ;;
  size <- check_size size ;;
  prepare_path r ;;
  hc <- check_header r offset ;;
  let '(file_header, rest) := hc in
  stream r file_size offset file_header rest size.

(** Lines 137-350: one request and what becomes of its answer. *)
Definition exchange : M unit :=
  fr <- send_request ;;
  handle_answer (fst fr) (snd fr).

(** One pass of the [while True] loop. *)
Definition attempt : M unit := retry_wait ;; exchange.

(** How the loop is left. *)
Inductive ending :=
| Broke
| Returns (e : exit)
| Raises (x : exn).

(** The loop; [None] when [fuel] passes do not reach its end. *)
Fixpoint loop (fuel : nat) (s : state) : option (ending * state * list event) :=
  match fuel with
  | O => None
  | S fuel' =>
      let '(r, s1, t1) := attempt s in
      match r with
      | Continue =>
          match loop fuel' s1 with
          | Some (e, s2, t2) => Some (e, s2, t1 ++ t2)
          | None => None
          end
      | Next _ | Break => Some (Broke, s1, t1)
      | Return e => Some (Returns e, s1, t1)
      | Raise x => Some (Raises x, s1, t1)
      end
  end.

Inductive result :=
| Returned (e : exit)
| Raised (x : exn).

(** Lines 106-118: the start of [_download_impl]. *)
Definition init (u : string) (w : P) (d : bool) : state :=
  {| world := w; downloading := d; tries := 0; code := 0; msg := MsgNone;
     url := u; resp := None; pending := metadata cfg; issued := 0 |}.

Definition prologue : M unit :=
  when (part cfg && negb (truthy_key (metadata cfg)))
    (call EvPartEnable part_enable).

(** Lines 352-361: after the loop. *)
Definition epilogue : M unit :=
  modify (set_downloading false) ;;
  (if mtime cfg then
     match _http_lastmodified kw with
     | Some v => call (EvSetMtime v) (set_mtime_http v)
     | None =>
         r <- gets resp ;;
         match r with
         | Some r' =>
             call (EvSetMtime (last_modified (r_headers r')))
               (set_mtime_http (last_modified (r_headers r')))
         | None => leave (Raise AttributeError)
         end
     end
   else call (EvSetMtime None) (set_mtime_http None)) ;;
  leave (Return ExitDone).

Definition _download_impl (fuel : nat) (u : string) (w : P) (d : bool)
  : option (result * state * list event) :=
  let '(_, s1, t0) := prologue (init u w d) in
  match loop fuel s1 with
  | None => None
  | Some (Broke, s2, t1) =>
      let '(r, s3, t2) := epilogue s2 in
      Some (match r with Raise x => Raised x | _ => Returned ExitDone end,
            s3, t0 ++ t1 ++ t2)
  | Some (Returns e, s2, t1) => Some (Returned e, s2, t0 ++ t1)
  | Some (Raises x, s2, t1) => Some (Raised x, s2, t0 ++ t1)
  end.

(** [download]: the result (or the exception that passes through), the
    path handle and the [downloading] attribute afterwards, and the events. *)
Definition download (fuel : nat) (u : string) (w : P) (d : bool)
  : option (result * P * bool * list event) :=
  match _download_impl fuel u w d with
  | None => None
  | Some (r, s, t) =>
      let t1 := match r with
                | Raised _ =>
                    (if downloading s then [EvStderr] else [])
                    ++ [EvDebug EmptyString]
                | Returned _ => []
                end in
      if downloading s && negb (part cfg) then
        Some (r, remove_file (temppath (world s)) (world s), downloading s,
              t ++ t1 ++ [EvRemoveFile (temppath (world s))])
      else Some (r, world s, downloading s, t ++ t1)
  end.

End Downloader.

(** ** A reference path handle

    Modelled from the spec: the destination handle of the design document
    (the [PathFormat] class of the repository is not part of this
    development): it exposes the current on-disk partial size, the current
    extension, an exists-check for the final path, a path (re)build, a
    scoped open-for-write with mode selection and a mutable metadata
    mapping.  Here the files are a finite map from paths to contents, the
    final path is a stem followed by the extension, and the side file of a
    partial download carries the suffix [.part]. *)

Record handle := {
  files : gmap string bytes;
  h_stem : string;
  h_extension : string;
  h_temppath : string;
  h_realpath : string;
  h_keys : list string;                 (* metadata keys stored so far *)
  h_mtime : option (option string);     (* [kwdict["_mtime_http"]] *)
}.

Record file := {
  f_path : string;
  f_data : bytes;
  f_pos : nat;
}.

Definition with_files (m : gmap string bytes) (h : handle) : handle :=
  {| files := m; h_stem := h_stem h; h_extension := h_extension h;
     h_temppath := h_temppath h; h_realpath := h_realpath h;
     h_keys := h_keys h; h_mtime := h_mtime h |}.

Definition with_paths (e t r : string) (h : handle) : handle :=
  {| files := files h; h_stem := h_stem h; h_extension := e;
     h_temppath := t; h_realpath := r;
     h_keys := h_keys h; h_mtime := h_mtime h |}.

Definition handle_build_path (h : handle) : handle :=
  let r := (h_stem h ++ "." ++ h_extension h)%string in
  with_paths (h_extension h)
    (if nonempty (h_temppath h) then h_temppath h else r) r h.

Definition handle_open (m : open_mode) (h : handle) : option file :=
  match m with
  | WPlusB => Some {| f_path := h_temppath h; f_data := []; f_pos := 0 |}
  | RPlusB =>
      match files h !! h_temppath h with
      | Some d => Some {| f_path := h_temppath h; f_data := d; f_pos := 0 |}
      | None => None
      end
  end.

Definition file_write (data : bytes) (f : file) : file :=
  {| f_path := f_path f;
     f_data := firstn (f_pos f) (f_data f) ++ data
               ++ skipn (f_pos f + length data) (f_data f);
     f_pos := f_pos f + length data |}.

#[export] Instance handle_PathFormat : PathFormat handle file := {|
  extension := h_extension;
  temppath := h_temppath;
  set_temppath t h := with_paths (h_extension h) t (h_realpath h) h;
  set_extension e h := with_paths e (h_temppath h) (h_realpath h) h;
  build_path := handle_build_path;
  path_exists h := nonempty (h_extension h) && bool_decide (is_Some (files h !! h_realpath h));
  part_enable h :=
    with_paths (h_extension h) (h_temppath h ++ ".part")%string (h_realpath h) h;
  part_size h :=
    match files h !! h_temppath h with
    | Some d => N.of_nat (length d)
    | None => 0%N
    end;
  set_kwdict k _ h :=
    {| files := files h; h_stem := h_stem h; h_extension := h_extension h;
       h_temppath := h_temppath h; h_realpath := h_realpath h;
       h_keys := k :: h_keys h; h_mtime := h_mtime h |};
  set_mtime_http v h :=
    {| files := files h; h_stem := h_stem h; h_extension := h_extension h;
       h_temppath := h_temppath h; h_realpath := h_realpath h;
       h_keys := h_keys h; h_mtime := Some v |};
  path_open := handle_open;
  path_close f h := with_files (<[f_path f := f_data f]> (files h)) h;
  remove_file p h := with_files (delete p (files h)) h;
  f_write := file_write;
  f_read n f := firstn n (skipn (f_pos f) (f_data f));
  f_seek pos f := {| f_path := f_path f; f_data := f_data f; f_pos := N.to_nat pos |};
  f_tell f := N.of_nat (f_pos f);
|}.

(** ** Sample tasks *)

(** [text.parse_int] on the strings of the examples: decimal digits only. *)
Fixpoint decimal (acc : Z) (s : string) : option Z :=
  match s with
  | EmptyString => Some acc
  | String c s' =>
      let n := Z.of_nat (nat_of_ascii c) in
      if (48 <=? n) && (n <=? 57) then decimal (10 * acc + (n - 48)) s'
      else None
  end.

Definition sample_parse_int (v : option string) : option Z :=
  match v with
  | Some (String c s) => decimal 0 (String c s)
  | _ => None
  end.

Definition no_headers : headers :=
  {| content_type := None; content_length := None; content_range := None;
     last_modified := None |}.

Definition sample_response (c : Z) (h : headers) (body : list item) : response :=
  {| status_code := c; reason := "reason"; r_url := "http://example.org/a";
     history := false; r_headers := h; chunked := true; content := body;
     probe16 := Chunk 0 [] None; content_after_probe := [];
     time_start := 0 |}.

Definition sample_env (srv : request -> reply) : env :=
  {| server := srv; detect_challenge := fun _ => None;
     guess_extension := fun _ => None; parse_int := sample_parse_int |}.

Definition sample_kwdict : kwdict :=
  {| _http_expected_status := []; _http_adjust_extension := None;
     _http_retry := None; _http_validate := None; _http_signature := None;
     _http_lastmodified := None |}.

(** The defaults of [__init__], with the retry limit and the part-file
    switch left open. *)
Definition sample_config (r : nat) (use_part : bool) : config :=
  {| adjust_extension := true; metadata := None; progress := Some 3%Q;
     validate := true; validate_html := true; minsize := None;
     maxsize := None; retries := Limit r; retry_codes := []; mtime := true;
     rate := None; interval_429 := None; part := use_part |}.

Definition sample_handle (ext : string) (m : gmap string bytes) : handle :=
  {| files := m; h_stem := "out/a"; h_extension := ext;
     h_temppath := ("out/a." ++ ext)%string;
     h_realpath := ("out/a." ++ ext)%string;
     h_keys := []; h_mtime := None |}.

(** ** [__init__] *)

(** The options of the downloader as the configuration holds them, each
    with its default already applied when the key is absent. *)
Record options := {
  o_adjust_extensions : bool;
  o_chunk_size : Z + string;            (* a number, or a string with a suffix *)
  o_http_metadata : option string;
  o_progress : option Q;                (* [None]: [null], no progress line *)
  o_validate : bool;
  o_validate_html : bool;
  o_filesize_min : option string;
  o_filesize_max : option string;
  o_retries : Z;
  o_retry_codes : list Z;
  o_mtime : bool;
  o_rate : option string;
  o_sleep_429 : option string;
  o_part : bool;
}.

(** What [util.build_selection_func(rate, 0, text.parse_bytes)] gives: the
    function that is called for every download, and the value that
    [__init__] reads from it ([func.args[1]], or [func()]). *)
Record rate_limit := {
  rate_value : nat -> Q;
  rate_max : Z;
}.

(** The helpers of [__init__] that live in other modules. *)
Record helpers := {
  parse_bytes : string -> Z;                    (* [text.parse_bytes]; 0 when invalid *)
  build_selection_func : string -> rate_limit;
  build_duration_func : string -> nat -> Q;
  extractor_interval_429 : option (nat -> Q);   (* [extractor._interval_429] *)
}.

(** The warnings of [__init__]. *)
Inductive init_warning :=
| InvalidMinimum (raw : string)
| InvalidMaximum (raw : string)
| InvalidChunkSize (raw : string)
| InvalidRate (raw : string).

(** The attributes that [__init__] leaves: those of [config], the chunk
    size, and the warnings it logged. *)
Record downloader := {
  attributes : config;
  chunk_size : Z;
  init_log : list init_warning;
}.

(** Lines 53-64: [filesize-min] and [filesize-max]. *)
Definition init_size (h : helpers) (raw : option string)
    (invalid : string -> init_warning) : option Z * list init_warning :=
  match raw with
  | Some (String c s) =>
      let size := parse_bytes h (String c s) in
      (Some size, if size =? 0 then [invalid (String c s)] else [])
  | _ => (None, [])
  end.

(** Lines 65-71: [chunk-size] given as a string. *)
Definition init_chunk_size (h : helpers) (raw : Z + string)
  : Z * list init_warning :=
  match raw with
  | inl n => (n, [])
  | inr s =>
      let n := parse_bytes h s in
      if n =? 0 then (32768, [InvalidChunkSize s]) else (n, [])
  end.

(** Lines 72-82: [rate]. *)
Definition init_rate (h : helpers) (raw : option string) (chunk : Z)
  : option (nat -> Q) * Z * list init_warning :=
  match raw with
  | Some (String c s) =>
      let func := build_selection_func h (String c s) in
      if rate_max func =? 0 then (None, chunk, [InvalidRate (String c s)])
      else (Some (rate_value func),
            if rate_max func <? chunk then rate_max func else chunk, [])
  | _ => (None, chunk, [])
  end.

(** Lines 83-86: [progress]. *)
Definition init_progress (raw : option Q) : option Q :=
  match raw with
  | Some p => Some (if Qltb p 0 then 0%Q else p)
  | None => None
  end.

Definition __init__ (h : helpers) (o : options) : downloader :=
  let '(minsize, log1) := init_size h (o_filesize_min o) InvalidMinimum in
  let '(maxsize, log2) := init_size h (o_filesize_max o) InvalidMaximum in
  let '(chunk, log3) := init_chunk_size h (o_chunk_size o) in
  let '(rate, chunk, log4) := init_rate h (o_rate o) chunk in
  {| attributes :=
       {| adjust_extension := o_adjust_extensions o;
          metadata := o_http_metadata o;
          progress := init_progress (o_progress o);
          validate := o_validate o;
          validate_html := o_validate_html o;
          minsize := minsize;
          maxsize := maxsize;
          retries := if o_retries o <? 0 then Unbounded
                     else Limit (Z.to_nat (o_retries o));
          retry_codes := o_retry_codes o;
          mtime := o_mtime o;
          rate := rate;
          interval_429 := match o_sleep_429 o with
                          | Some raw => Some (build_duration_func h raw)
                          | None => extractor_interval_429 h
                          end;
          part := o_part o |};
     chunk_size := chunk;
     init_log := log1 ++ log2 ++ log3 ++ log4 |}.


(** * The logging actions ([gallery_dl/actions.py])

    A shallow embedding of the rules that attach actions to log messages
    and to signals.  Strings are sequences of code points below 256.  The
    regular expressions, [int], the case mappings and the look-up of names
    in other modules are external ([library]); what an action does outside
    of its arguments is recorded, in program order, in the [effects] of the
    [world]. *)

Module Actions.

(** The argument of an exception instance. *)
Inductive argument :=
| NoArgument
| Text (s : string)
| Number (n : Z)
| Message.                  (* the message of the interpreter or of a library *)

(** An exception: the module and the name of its class, and its argument. *)
Record error := Error {
  e_module : string;
  e_class : string;
  e_argument : argument;
}.

Definition KeyError : error := Error "builtins" "KeyError" Message.
Definition ValueError : error := Error "builtins" "ValueError" Message.
Definition AttributeError : error := Error "builtins" "AttributeError" Message.
Definition re_error : error := Error "re" "error" Message.
Definition StopExtraction : error := Error "exception" "StopExtraction" NoArgument.
Definition TerminateExtraction : error :=
  Error "exception" "TerminateExtraction" NoArgument.
Definition RestartExtraction : error :=
  Error "exception" "RestartExtraction" NoArgument.

(** A value or an exception. *)
Inductive res (A : Type) :=
| Ok (a : A)
| Err (e : error).
Arguments Ok {A} a.
Arguments Err {A} e.

Inductive effect :=
| Print (opts : string)            (* [print(opts)] *)
| Popen (opts : string)            (* [util.Popen(opts, shell=True).wait()] *)
| Sleep (opts : string)            (* [time.sleep(seconds())], [seconds] built from [opts] *)
| Input                            (* [input("Press Enter to continue")] *)
| SetFlag (flag value : string)    (* [util.FLAGS.__dict__[flag] = value] *)
| Emit (level : Z) (msg : string). (* [self.logger._log(level, msg, (), **kwargs)] *)

(** What actions act on outside of their argument: [job.status], and what
    they did. *)
Record world := {
  status : Z;
  effects : list effect;
}.

Definition set_status (v : Z) (w : world) : world :=
  {| status := v; effects := effects w |}.

Definition record (ev : effect) (w : world) : world :=
  {| status := status w; effects := effects w ++ [ev] |}.

(** The dictionary [args] that an action is called with: whether it has
    the entry [job], and its entry [level]. *)
Record args := {
  job : bool;
  level : option Z;
}.

Definition set_level (l : Z) (a : args) : args :=
  {| job := job a; level := Some l |}.

(** An action: what it raises, the dictionary and the world afterwards. *)
Definition action := args -> world -> option error * args * world.

(** A condition and an action: an entry of the lists of [parse_logging]. *)
Definition hook : Type := (string -> bool) * action.

(** What lives in other modules. *)
Record library := {
  re_search : string -> option (string -> bool);
      (* [util.re(pattern).search]; [None]: the pattern does not compile *)
  status_match : string -> option (string * string);
      (* the groups of [util.re(r"\s*([&|^=])=?\s*(\d+)").match(opts)] *)
  flag_match : string -> option (string * option string);
      (* the groups of
         [util.re(r"(?i)(file|post|child|download)(?:\s*[= ]\s*(.+))?").match(opts)] *)
  int : string -> option Z;             (* [int(s)]; [None]: [ValueError] *)
  upper : string -> string;             (* [s.upper()] *)
  lower : string -> string;             (* [s.lower()] *)
  duration_error : string -> option error;
      (* what [util.build_duration_func(opts)] raises, if anything *)
  in_exception : string -> bool;        (* [getattr(exception, name, None)] is not [None] *)
  in_builtins : string -> bool;         (* [builtins] has the attribute [name] *)
  signal_number : string -> option Z;   (* [getattr(signal, name, None)] *)
  signal_error : Z -> option error;
      (* what [signal.signal(signal_num, handler)] raises, if anything *)
}.

(** ** Strings *)

(** [s.partition(c)[2]]: what follows the first [c], nothing without one. *)
Fixpoint partition_tail (c : ascii) (s : string) : string :=
  match s with
  | EmptyString => EmptyString
  | String a s' => if Ascii.eqb a c then s' else partition_tail c s'
  end.

(** [c.isspace()] for a code point below 256. *)
Definition is_space (c : ascii) : bool :=
  let n := N_of_ascii c in
  (((9 <=? n) && (n <=? 13)) || ((28 <=? n) && (n <=? 32))
   || (n =? 133) || (n =? 160))%N.

Fixpoint lstrip_chars (chars : ascii -> bool) (s : string) : string :=
  match s with
  | EmptyString => EmptyString
  | String a s' => if chars a then lstrip_chars chars s' else s
  end.

Fixpoint rstrip_chars (chars : ascii -> bool) (s : string) : string :=
  match s with
  | EmptyString => EmptyString
  | String a s' =>
      match rstrip_chars chars s' with
      | EmptyString => if chars a then EmptyString else String a EmptyString
      | r => String a r
      end
  end.

(** [s.strip()] *)
Definition strip (s : string) : string :=
  rstrip_chars is_space (lstrip_chars is_space s).

(** A [dict] with string keys, as the list of its items. *)
Fixpoint lookup_name {A} (tbl : list (string * A)) (k : string) : option A :=
  match tbl with
  | [] => None
  | (k', v) :: tbl' => if String.eqb k' k then Some v else lookup_name tbl' k
  end.

(** ** Levels *)

Definition DEBUG : Z := 10.
Definition INFO : Z := 20.
Definition WARNING : Z := 30.
Definition ERROR : Z := 40.

(** [logging._nameToLevel] *)
Definition _nameToLevel : list (string * Z) :=
  [ ("CRITICAL", 50); ("FATAL", 50); ("ERROR", 40); ("WARN", 30);
    ("WARNING", 30); ("INFO", 20); ("DEBUG", 10); ("NOTSET", 0) ]%string.

Section Library.

Variable lib : library.

(** Lines 152-156; [None]: [ValueError]. *)
Definition _level_to_int (name : string) : option Z :=
  match lookup_name _nameToLevel name with
  | Some l => Some l
  | None => int lib name
  end.

(** ** The actions *)

(** Lines 159-163 *)
Fixpoint _chain_actions (actions : list action) : action := fun a w =>
  match actions with
  | [] => (None, a, w)
  | act :: rest =>
      match act a w with
      | (None, a', w') => _chain_actions rest a' w'
      | raised => raised
      end
  end.

Definition raises (e : error) : action := fun a w => (Some e, a, w).

Definition doing (ev : effect) : action := fun a w => (None, a, record ev w).

(** Lines 174-177 *)
Definition action_print (opts : string) : res (option action * option action) :=
  Ok (None, Some (doing (Print opts))).

Definition operator (op : string) : option (Z -> Z -> Z) :=
  lookup_name
    [ ("&"%string, Z.land); ("|"%string, Z.lor); ("^"%string, Z.lxor);
      ("="%string, fun _ y => y) ] op.

(** [args["job"].status = op(args["job"].status, value)] *)
Definition _status (op : Z -> Z -> Z) (value : Z) : action := fun a w =>
  if job a then (None, a, set_status (op (status w) value) w)
  else (Some KeyError, a, w).

(** Lines 180-194 *)
Definition action_status (opts : string) : res (option action * option action) :=
  match status_match lib opts with
  | None => Err AttributeError
  | Some (op, value) =>
      match operator op with
      | None => Err KeyError
      | Some f =>
          match int lib value with
          | None => Err ValueError
          | Some v => Ok (Some (_status f v), None)
          end
      end
  end.

Definition _level (l : Z) : action := fun a w => (None, set_level l a, w).

(** Lines 197-202 *)
Definition action_level (opts : string) : res (option action * option action) :=
  let chars c := existsb (Ascii.eqb c) (list_ascii_of_string " ~=") in
  match _level_to_int (lstrip_chars chars opts) with
  | None => Err ValueError
  | Some l => Ok (Some (_level l), None)
  end.

(** Lines 205-208 *)
Definition action_exec (opts : string) : res (option action * option action) :=
  Ok (None, Some (doing (Popen opts))).

(** Lines 211-221 *)
Definition action_wait (opts : string) : res (option action * option action) :=
  if nonempty opts then
    match duration_error lib opts with
    | Some e => Err e
    | None => Ok (None, Some (doing (Sleep opts)))
    end
  else Ok (None, Some (doing Input)).

(** Lines 224-233 *)
Definition action_flag (opts : string) : res (option action * option action) :=
  match flag_match lib opts with
  | None => Err AttributeError
  | Some (flag, value) =>
      Ok (Some (doing (SetFlag (upper lib flag)
                         (match value with
                          | None => "stop"%string
                          | Some v => lower lib v
                          end))), None)
  end.

(** Lines 236-251 *)
Definition action_raise (opts : string) : res (option action * option action) :=
  let name := partition_head " " opts in
  let arg := partition_tail " " opts in
  let '(m, c) :=
    if in_exception lib name then ("exception", name)
    else if in_builtins lib name then ("builtins", name)
    else ("builtins", "Exception") in
  Ok (None, Some (raises (Error m c (if nonempty arg then Text arg
                                     else NoArgument))))%string.

(** Lines 254-263 *)
Definition action_abort (opts : string) : res (option action * option action) :=
  Ok (None, Some (raises StopExtraction)).

Definition action_terminate (opts : string)
  : res (option action * option action) :=
  Ok (None, Some (raises TerminateExtraction)).

Definition action_restart (opts : string) : res (option action * option action) :=
  Ok (None, Some (raises RestartExtraction)).

(** Lines 266-274 *)
Definition action_exit (opts : string) : res (option action * option action) :=
  Ok (None,
      Some (raises (Error "builtins" "SystemExit"
                      (match int lib opts with
                       | Some n => Number n
                       | None => Text opts
                       end)))).

(** Lines 277-289 *)
Definition ACTIONS
  : list (string * (string -> res (option action * option action))) :=
  [ ("abort", action_abort); ("exec", action_exec); ("exit", action_exit);
    ("flag", action_flag); ("level", action_level); ("print", action_print);
    ("raise", action_raise); ("restart", action_restart);
    ("status", action_status); ("terminate", action_terminate);
    ("wait", action_wait) ]%string.

(** [type, _, args = s.partition(" ")] and [ACTIONS[type](args)] *)
Definition build (s : string) : res (option action * option action) :=
  match lookup_name ACTIONS (partition_head " " s) with
  | None => Err KeyError
  | Some constructor => constructor (partition_tail " " s)
  end.

(** ** [parse_logging] *)

(** The right-hand side of a rule: one action, or a list of them. *)
Inductive spec :=
| One (s : string)
| Many (l : list string).

Definition table := gmap Z (list hook).

(** Lines 22-30 *)
Definition empty_table : table :=
  list_to_map
    [ (- DEBUG, []); (- INFO, []); (- WARNING, []); (- ERROR, []);
      (DEBUG, []); (INFO, []); (WARNING, []); (ERROR, []) ].

(** Lines 40-47: the loop over a list of actions. *)
Fixpoint collect (l : list string) : res (list action * list action) :=
  match l with
  | [] => Ok ([], [])
  | s :: l' =>
      match build s with
      | Err e => Err e
      | Ok (before, after) =>
          match collect l' with
          | Err e => Err e
          | Ok (actions_before, actions_after) =>
              Ok (match before with
                  | Some b => b :: actions_before
                  | None => actions_before
                  end,
                  match after with
                  | Some a => a :: actions_after
                  | None => actions_after
                  end)
          end
      end
  end.

(** Lines 36-49: the two actions of a rule. *)
Definition actions_of (sp : spec) : res (option action * option action) :=
  match sp with
  | One s => build s
  | Many l =>
      match collect l with
      | Err e => Err e
      | Ok (actions_before, actions_after) =>
          Ok (Some (_chain_actions actions_before),
              Some (_chain_actions actions_after))
      end
  end.

(** [lst.append(h)] on the list that is the value of key [k]. *)
Definition append (k : Z) (h : hook) (t : table) : table :=
  alter (fun l => l ++ [h]) k t.

(** [actions[k].append(h)] *)
Definition append_at (k : Z) (h : hook) (t : table) : res table :=
  match t !! k with
  | Some _ => Ok (append k h t)
  | None => Err KeyError
  end.

(** Line 33 and line 51: the level that a rule names. *)
Definition level_name (rule : string * spec) : string :=
  strip (partition_head ":" (fst rule)).

(** Line 52: [not level or level == "*"] *)
Definition wildcard (name : string) : bool :=
  String.eqb name "" || String.eqb name "*".

(** Lines 33-34: the condition of a rule; [None] when its pattern does not
    compile. *)
Definition condition (rule : string * spec) : option (string -> bool) :=
  if nonempty (partition_tail ":" (fst rule))
  then re_search lib (partition_tail ":" (fst rule))
  else Some (fun _ => true).

(** Lines 32-71: one pass of the loop over the rules. *)
Definition add_rule (t : table) (rule : string * spec) : res table :=
  match condition rule with
  | None => Err re_error
  | Some search =>
      match actions_of (snd rule) with
      | Err e => Err e
      | Ok (before, after) =>
          if wildcard (level_name rule) then
            let t1 :=
              match before with
              | Some b =>
                  append (- ERROR) (search, b)
                    (append (- WARNING) (search, b)
                       (append (- INFO) (search, b)
                          (append (- DEBUG) (search, b) t)))
              | None => t
              end in
            Ok (match after with
                | Some a =>
                    append ERROR (search, a)
                      (append WARNING (search, a)
                         (append INFO (search, a)
                            (append DEBUG (search, a) t1)))
                | None => t1
                end)
          else
            match _level_to_int (level_name rule) with
            | None => Err ValueError
            | Some l =>
                match (match before with
                       | Some b => append_at (- l) (search, b) t
                       | None => Ok t
                       end) with
                | Err e => Err e
                | Ok t1 =>
                    match after with
                    | Some a => append_at l (search, a) t1
                    | None => Ok t1
                    end
                end
            end
      end
  end.

Fixpoint add_rules (t : table) (actionspec : list (string * spec)) : res table :=
  match actionspec with
  | [] => Ok t
  | rule :: rest =>
      match add_rule t rule with
      | Err e => Err e
      | Ok t' => add_rules t' rest
      end
  end.

(** Lines 18-73 *)
Definition parse_logging (actionspec : list (string * spec)) : res table :=
  add_rules empty_table actionspec.

(** ** [LoggerAdapter] *)

(** Lines 113-116: the attributes of an adapter; [enabled] is
    [self.logger.isEnabledFor]. *)
Record LoggerAdapter := {
  enabled : Z -> bool;
  extra : args;
  actions : table;
}.

(** [for cond, action in hooks: if cond(msg): action(args)] *)
Fixpoint run (hooks : list hook) (msg : string) : action := fun a w =>
  match hooks with
  | [] => (None, a, w)
  | (cond, act) :: rest =>
      if cond msg then
        match act a w with
        | (None, a', w') => run rest msg a' w'
        | raised => raised
        end
      else run rest msg a w
  end.

(** Lines 123-149, from the formatted message on. *)
Definition log (self : LoggerAdapter) (lvl : Z) (msg : string) (w : world)
  : option error * world :=
  match actions self !! (- lvl) with
  | None => (Some KeyError, w)
  | Some before =>
      match actions self !! lvl with
      | None => (Some KeyError, w)
      | Some after =>
          let '(raised, a, w1) :=
            match before with
            | [] => (None, set_level lvl (extra self), w)
            | _ => run before msg (set_level lvl (extra self)) w
            end in
          match raised, level a with
          | Some e, _ => (Some e, w1)
          | None, None => (Some KeyError, w1)
          | None, Some lvl' =>
              let w2 := if enabled self lvl' then record (Emit lvl' msg) w1
                        else w1 in
              match after with
              | [] => (None, w2)
              | _ =>
                  let '(raised, _, w3) := run after msg (extra self) w2 in
                  (raised, w3)
              end
          end
      end
  end.

(** ** [parse_signals] *)

(** Lines 166-169: the handler calls the action with the dictionary that
    is the default of [signals_handler], which has no entry at first. *)
Definition no_args : args := {| job := false; level := None |}.

(** What [parse_signals] has done when it ends or raises: the handlers
    that it installed, and the names that it warned about. *)
Record installed := {
  handlers : list (Z * action);
  undefined : list string;
}.

(** Lines 88-103: the action of a rule. *)
Definition signal_action (sp : spec) : res action :=
  match sp with
  | One s =>
      match build s with
      | Err e => Err e
      | Ok (before, after) =>
          match after, before with
          | Some a, _ => Ok a
          | None, Some b => Ok b
          | None, None =>
              (* the handler would call [None] *)
              Ok (raises (Error "builtins" "TypeError" Message))
          end
      end
  | Many l =>
      match collect l with
      | Err e => Err e
      | Ok (actions_before, actions_after) =>
          Ok (_chain_actions (actions_before ++ actions_after))
      end
  end.

(** Lines 76-108 *)
Fixpoint parse_signals (actionspec : list (string * spec)) (done : installed)
  : option error * installed :=
  match actionspec with
  | [] => (None, done)
  | (signal_name, sp) :: rest =>
      match signal_number lib signal_name with
      | None =>
          parse_signals rest
            {| handlers := handlers done;
               undefined := undefined done ++ [signal_name] |}
      | Some signal_num =>
          match signal_action sp with
          | Err e => (Some e, done)
          | Ok act =>
              match signal_error lib signal_num with
              | Some e => (Some e, done)
              | None =>
                  parse_signals rest
                    {| handlers := handlers done ++ [(signal_num, act)];
                       undefined := undefined done |}
              end
          end
      end
  end.

End Library.

End Actions.

(** * Properties *)

(** ** Strings and the MIME resolver *)

Lemma partition_head_plain (c : ascii) (s : string) :
  contains_char c s = false -> partition_head c s = s.
Proof.
  unfold contains_char. induction s as [|a s IH]; simpl; [reflexivity|].
  intros Hc. apply orb_false_elim in Hc as [Ha Hs].
  rewrite Ascii.eqb_sym, Ha. f_equal. apply IH, Hs.
Qed.

Lemma partition_head_params (c : ascii) (s rest : string) :
  contains_char c s = false ->
  partition_head c (s ++ String c rest) = s.
Proof.
  unfold contains_char. induction s as [|a s IH]; simpl.
  - intros _. rewrite Ascii.eqb_refl. reflexivity.
  - intros Hc. apply orb_false_elim in Hc as [Ha Hs].
    rewrite Ascii.eqb_sym, Ha. f_equal. apply IH, Hs.
Qed.

(** The type that [_find_extension] looks up for a header value [base],
    once its parameters are gone. *)
Definition mime_key (base : string) : string :=
  if contains_char "/"%char base then base else ("image/" ++ base)%string.

(** C7.  The extension derived from a [Content-Type] whose part before the
    first [;] is [base] (the parameters after it are dropped; a response
    without the header counts as [image/jpeg]): [base] gets the prefix
    [image/] when it has no slash; the explicit table answers if it has the
    type; otherwise the system resolver answers, without its first
    character (the dot); otherwise a warning is logged and the extension is
    [bin].  Nothing else happens. *)
Theorem find_extension_resolution {P : Type} (E : env) (r : response)
    (s : @state P) (base params : string) :
  contains_char ";"%char base = false ->
  content_type (r_headers r) = Some base \/
  content_type (r_headers r) = Some (base ++ String ";"%char params)%string \/
  content_type (r_headers r) = None /\ base = "image/jpeg"%string ->
  _find_extension E r s =
    match MIME_TYPES !! mime_key base with
    | Some ext => (Next ext, s, [])
    | None =>
        match guess_extension E (mime_key base) with
        | Some (String dot ext) => (Next ext, s, [])
        | _ => (Next "bin"%string, s, [EvWarning (WUnknownMime (mime_key base))])
        end
    end.
Proof.
  intros Hbase Hct. unfold _find_extension.
  assert (Hhead : partition_head ";"%char
            (default "image/jpeg"%string (content_type (r_headers r))) = base).
  { destruct Hct as [-> | [-> | [-> ->]]]; simpl default.
    - apply partition_head_plain, Hbase.
    - apply partition_head_params, Hbase.
    - reflexivity. }
  rewrite Hhead. fold (mime_key base).
  destruct (MIME_TYPES !! mime_key base) as [ext|]; [reflexivity|].
  destruct (guess_extension E (mime_key base)) as [[|c ext]|]; reflexivity.
Qed.

Lemma find_extension_resolution_witness :
  _find_extension (sample_env (fun _ => Timeout EmptyString))
    (sample_response 200
       {| content_type := Some "png; charset=binary"%string;
          content_length := None; content_range := None;
          last_modified := None |} [])
    (init (sample_config 0 true) "u"%string (sample_handle "jpg" ∅) false)
  = (Next "png"%string,
     init (sample_config 0 true) "u"%string (sample_handle "jpg" ∅) false, []).
Proof.
  apply (find_extension_resolution (sample_env (fun _ => Timeout EmptyString))
           (sample_response 200
              {| content_type := Some "png; charset=binary"%string;
                 content_length := None; content_range := None;
                 last_modified := None |} [])
           _ "png"%string " charset=binary"%string).
  - reflexivity.
  - right. left. reflexivity.
Defined.

(** ** The signature scan *)

(** The keys of the table, in the order of the scan. *)
Lemma signature_order :
  map fst SIGNATURE_CHECKS =
  [ "jpg"; "png"; "gif"; "bmp"; "webp"; "avif"; "heic"; "svg"; "ico"; "cur";
    "psd"; "mp4"; "m4v"; "mov"; "webm"; "ogg"; "wav"; "mp3"; "zip"; "rar";
    "7z"; "pdf"; "swf"; "html"; "htm"; "blend"; "obj"; "clip"; "bin" ]%string.
Proof. reflexivity. Qed.

(** A scan that finds an extension finds the first entry whose predicate
    holds: the predicates of all entries before it answer [False]. *)
Lemma scan_signatures_found (tbl : list (string * check)) (h : bytes) (e : string) :
  scan_signatures tbl h = ScanFound e ->
  exists pre chk post,
    tbl = pre ++ (e, chk) :: post /\ chk h = Some true /\
    Forall (fun ec => snd ec h = Some false) pre.
Proof.
  induction tbl as [|[e' c] tbl IH]; simpl; [discriminate|].
  destruct (c h) as [[|]|] eqn:Hc; try discriminate.
  - intros [= <-]. exists [], c, tbl. repeat split; [assumption|constructor].
  - intros Hs. destruct (IH Hs) as (pre & chk & post & -> & Hchk & Hpre).
    exists ((e', c) :: pre), chk, post. repeat split; [assumption|].
    constructor; assumption.
Qed.

(** When no predicate raises, the scan finds the first match of the table. *)
Lemma scan_signatures_first (pre post : list (string * check)) (h : bytes)
    (e : string) (chk : check) :
  Forall (fun ec => snd ec h = Some false) pre ->
  chk h = Some true ->
  scan_signatures (pre ++ (e, chk) :: post) h = ScanFound e.
Proof.
  intros Hpre Hchk. induction Hpre as [|[e' c] pre Hc _ IH]; simpl.
  - rewrite Hchk. reflexivity.
  - simpl in Hc. rewrite Hc. exact IH.
Qed.

(** A header that starts with the PNG signature, under the extension [jpg]:
    the extension becomes [png] and the path is rebuilt. *)
Example adjust_extension_png_under_jpg (rest : bytes) (files : gmap string bytes) :
  let s := init (sample_config 0 true) "u"%string (sample_handle "jpg" files) false in
  _adjust_extension ([x89; x50; x4e; x47; x0d; x0a; x1a; x0a] ++ rest) s =
    (Next true,
     set_world (build_path (set_extension "png"%string (world s))) s,
     [EvSetExtension "png"; EvBuildPath]).
Proof. reflexivity. Qed.

(** An eleven-byte body: the ICO signature, then [ftypavi]. *)
Definition short_avif_probe : bytes :=
  [x00; x00; x01; x00] ++ lit "ftypavi".

Definition short_avif_response : response :=
  {| status_code := 200; reason := "OK"; r_url := "http://example.org/a";
     history := false; r_headers := no_headers; chunked := false;
     content := [Chunk 0 short_avif_probe None];
     probe16 := Chunk 0 short_avif_probe None;
     content_after_probe := []; time_start := 0 |}.

(** C6, at the failing input.  The probe fails the [jpg] predicate, and
    [ico] is the first entry of the table whose predicate holds on it; but
    the scan evaluates the [avif] predicate on the way, whose [s[11]] is out
    of range on eleven bytes: [_adjust_extension] raises [IndexError], no
    extension is adopted, and the exception leaves [download]. *)
Theorem adjust_extension_short_avif_probe :
  let s := init (sample_config 0 true) "u"%string (sample_handle "jpg" ∅) false in
  (exists jpg, sig_lookup SIGNATURE_CHECKS "jpg" = Some jpg /\
               jpg short_avif_probe = Some false) /\
  (exists pre chk post,
     SIGNATURE_CHECKS = pre ++ ("ico"%string, chk) :: post /\
     chk short_avif_probe = Some true /\
     Forall (fun ec => snd ec short_avif_probe <> Some true) pre) /\
  _adjust_extension short_avif_probe s = (Raise IndexError, s, []) /\
  exists w t,
    download (sample_config 0 true)
      (sample_env (fun _ => Answer short_avif_response)) sample_kwdict
      1 "u"%string (sample_handle "jpg" ∅) false
    = Some (Raised IndexError, w, false, t) /\
    extension w = "jpg"%string /\
    Forall (fun ev => forall d, ev <> EvWrite d) t.
Proof.
  cbv zeta. split; [|split; [|split]].
  - eexists. split; reflexivity.
  - exists (firstn 8 SIGNATURE_CHECKS). eexists. exists (skipn 9 SIGNATURE_CHECKS).
    split; [reflexivity|]. split; [reflexivity|].
    repeat constructor; vm_compute; discriminate.
  - reflexivity.
  - eexists. eexists. split; [vm_compute; reflexivity|].
    split; [reflexivity|]. repeat constructor; discriminate.
Qed.

(** ** The rate-aware receiver *)



(** The data of the [fp.write] calls of a trace. *)
Fixpoint writes_of (t : list event) : list bytes :=
  match t with
  | EvWrite d :: t' => d :: writes_of t'
  | _ :: t' => writes_of t'
  | [] => []
  end.



(** The update after a chunk that arrives at [t], when [n] bytes of this
    stream are written: none unless the time since the start of the stream
    exceeds the interval. *)
Definition update_at (progress : option Q) (bytes_total : option Z)
    (bytes_start n : Z) (time_start t : Q) : list event :=
  match progress with
  | Some p =>
      if Qltb p (t - time_start)
      then [EvProgress bytes_total (bytes_start + n)
              (int_of_Q (inject_Z n / (t - time_start)))]
      else []
  | None => []
  end.

Section Receiver.

Context {P F : Type} `{PathFormat P F}.
Variables (progress rate : option Q) (bytes_total : option Z).
Variables (bytes_start : Z) (time_start : Q).

(** After [__init__] the interval is not negative and the rate not zero. *)
Hypothesis progress_nonneg : forall p, progress = Some p -> (0 <= p)%Q.
Hypothesis rate_nonzero : forall r, rate = Some r -> ~ (r == 0)%Q.

Lemma report_progress_defined (n : Z) (t : Q) :
  report_progress progress bytes_total bytes_start n (t - time_start)
  = Some (update_at progress bytes_total bytes_start n time_start t).
Proof.
  unfold report_progress, update_at.
  destruct progress as [p|] eqn:Hp; [|reflexivity].
  destruct (Qltb p (t - time_start)) eqn:Hlt; [|reflexivity].
  destruct (Qeq_bool (t - time_start) 0) eqn:Hz; [|reflexivity].
  exfalso. apply Qeq_bool_iff in Hz.
  unfold Qltb in Hlt. apply negb_true_iff in Hlt.
  assert (Hle : Qle_bool (t - time_start) p = true).
  { apply Qle_bool_iff. rewrite Hz. apply progress_nonneg. reflexivity. }
  congruence.
Qed.

Lemma throttle_defined (n : Z) (q : Q) :
  exists t, throttle rate n q = Some t /\
            Forall (fun ev => exists secs, ev = EvSleep secs) t.
Proof.
  unfold throttle. destruct rate as [r|] eqn:Hr.
  - destruct (Qeq_bool r 0) eqn:Hz.
    + exfalso. apply Qeq_bool_iff in Hz. exact (rate_nonzero r eq_refl Hz).
    + destruct (Qltb q (inject_Z n / r)); eexists; split; try reflexivity;
        repeat constructor. eexists; reflexivity.
  - eexists; split; [reflexivity|constructor].
Qed.



End Receiver.



Definition sample_file : file :=
  {| f_path := "out/a.jpg.part"; f_data := []; f_pos := 0 |}.



(** ** Reasoning about the control monad *)

Section Control.

Context {P F : Type} `{PathFormat P F}.

Lemma bind_next {A B} (m : @M P A) (k : A -> @M P B) s a s1 t1 :
  m s = (Next a, s1, t1) ->
  bind m k s = (let '(r, s2, t2) := k a s1 in (r, s2, t1 ++ t2)).
Proof. intros Hm. unfold bind. rewrite Hm. reflexivity. Qed.

(** What a run of [bind m k] is made of. *)
Lemma bind_inv {A B} (m : @M P A) (k : A -> @M P B) s r s' t :
  bind m k s = (r, s', t) ->
  (exists a s1 t1 t2,
     m s = (Next a, s1, t1) /\ k a s1 = (r, s', t2) /\ t = t1 ++ t2) \/
  (exists r0, m s = (r0, s', t) /\
     match r0, r with
     | Continue, Continue | Break, Break => True
     | Return e0, Return e => e0 = e
     | Raise x0, Raise x => x0 = x
     | _, _ => False
     end).
Proof.
  unfold bind. destruct (m s) as [[r0 s1] t1]. destruct r0 as [a| | |e|x].
  - destruct (k a s1) as [[r2 s2] t2] eqn:Hk. intros [= <- <- <-].
    left. exists a, s1, t1, t2. repeat split; auto.
  - intros [= <- <- <-]. right. exists Continue. auto.
  - intros [= <- <- <-]. right. exists Break. auto.
  - intros [= <- <- <-]. right. exists (Return e). auto.
  - intros [= <- <- <-]. right. exists (Raise x). auto.
Qed.

End Control.

(** ** The status code *)

Section Status.

Context {P F : Type} `{PathFormat P F}.
Variables (cfg : config) (E : env) (kw : kwdict).

(** The variables once the request was counted and answered. *)
Definition sent (s : @state P) (a : response) : state :=
  set_resp (Some a) (set_issued (S (issued s)) (set_tries (S (tries s)) s)).

Lemma send_request_answer (s : state) (a : response) :
  server E (next_request s) = Answer a ->
  send_request E s
  = (Next (part_size (world s), a), sent s a, [EvRequest (next_request s)]).
Proof.
  intros Ha. unfold send_request, bind, modify, gets, emit. simpl.
  change (next_request (set_tries (S (tries s)) s)) with (next_request s).
  rewrite Ha. reflexivity.
Qed.

Lemma exchange_answer (s : state) (a : response) :
  server E (next_request s) = Answer a ->
  exchange cfg E kw s
  = (let '(r, s', t) := handle_answer cfg E kw (part_size (world s)) a (sent s a) in
     (r, s', EvRequest (next_request s) :: t)).
Proof.
  intros Ha. unfold exchange.
  rewrite (bind_next _ _ _ _ _ _ (send_request_answer s a Ha)). reflexivity.
Qed.

(** C3, amended.  For a pass whose request is answered with status 416,
    when 416 is not in the expected-status set of the task (which is tested
    first and makes the answer a full-content one): if the partial file is
    not empty (its size was sent as the [Range] header) the loop is left at
    once, nothing is opened or written, and the function returns [True]
    after storing the modification time; if there is no partial file the
    answer takes the path of any other status: the pass is repeated when
    the status is to be retried, and the function returns [False]
    otherwise. *)
Theorem range_not_satisfiable (s : state) (a : response) :
  server E (next_request s) = Answer a ->
  status_code a = 416 ->
  code_in 416 (_http_expected_status kw) = false ->
  (part_size (world s) <> 0%N ->
     rq_range (next_request s) = Some (part_size (world s)) /\
     exchange cfg E kw s
     = (Break, set_code 416 (sent s a), [EvRequest (next_request s)]) /\
     exists s' lm,
       epilogue cfg kw (set_code 416 (sent s a))
       = (Return ExitDone, s', [EvSetMtime lm])) /\
  (part_size (world s) = 0%N ->
     rq_range (next_request s) = None /\
     exists s' t,
       exchange cfg E kw s
       = (if wants_retry cfg kw a then Continue else Return ExitStatus,
          s', EvRequest (next_request s) :: t) /\
       writes_of t = [] /\ Forall (fun ev => forall m, ev <> EvOpen m) t).
Proof.
  intros Ha Hc Hexp. split; intros Hsize.
  - split; [|split].
    + unfold next_request. simpl. apply N.eqb_neq in Hsize. rewrite Hsize.
      reflexivity.
    + rewrite (exchange_answer s a Ha). unfold handle_answer.
      unfold check_response, bind, modify. simpl. rewrite Hc, Hexp. simpl.
      apply N.eqb_neq in Hsize. rewrite Hsize. reflexivity.
    + unfold epilogue, bind, modify, call, emit, gets, leave. simpl.
      destruct (mtime cfg); [destruct (_http_lastmodified kw)|]; simpl;
        eexists; eexists; reflexivity.
  - split.
    + unfold next_request. rewrite Hsize. reflexivity.
    + rewrite (exchange_answer s a Ha). unfold handle_answer.
      unfold check_response, bind, modify. simpl. rewrite Hc, Hexp, Hsize. simpl.
      unfold reject_status, bind, modify, gets, warn, emit, leave, release_conn,
        pure. simpl.
      destruct (detect_challenge E a); destruct (wants_retry cfg kw a); simpl;
        eexists; eexists; (split; [reflexivity|]);
        (split; [reflexivity|]); repeat constructor; discriminate.
Qed.

End Status.

(** A partial file of three bytes beside the destination. *)
Definition partial_files : gmap string bytes :=
  {[ "out/a.jpg.part"%string := lit "abc" ]}.

Definition answer_416 : response :=
  sample_response 416 no_headers [Chunk 0 (lit "xyz") None].

Lemma range_not_satisfiable_witness :
  let cfg := sample_config 2 true in
  let E := sample_env (fun _ => Answer answer_416) in
  let s := init cfg "u"%string (part_enable (sample_handle "jpg" partial_files)) false in
  (part_size (world s) <> 0%N ->
     rq_range (next_request s) = Some (part_size (world s)) /\
     exchange cfg E sample_kwdict s
     = (Break, set_code 416 (sent s answer_416), [EvRequest (next_request s)]) /\
     exists s' lm,
       epilogue cfg sample_kwdict (set_code 416 (sent s answer_416))
       = (Return ExitDone, s', [EvSetMtime lm])) /\
  (part_size (world s) = 0%N ->
     rq_range (next_request s) = None /\
     exists s' t,
       exchange cfg E sample_kwdict s
       = (if wants_retry cfg sample_kwdict answer_416 then Continue
          else Return ExitStatus,
          s', EvRequest (next_request s) :: t) /\
       writes_of t = [] /\ Forall (fun ev => forall m, ev <> EvOpen m) t).
Proof.
  apply (range_not_satisfiable (sample_config 2 true)
           (sample_env (fun _ => Answer answer_416)) sample_kwdict
           (init (sample_config 2 true) "u"%string
              (part_enable (sample_handle "jpg" partial_files)) false)
           answer_416); reflexivity.
Defined.

(** C3, as stated, fails.  A task that lists 416 among its expected status
    codes, with a partial file of three bytes: the size is sent as the
    [Range] header, the answer is 416, and the body is streamed into the
    file (opened anew) instead of the loop being left. *)
Lemma expected_416_is_streamed :
  exists w,
    download (sample_config 0 true) (sample_env (fun _ => Answer answer_416))
      {| _http_expected_status := [416]; _http_adjust_extension := None;
         _http_retry := None; _http_validate := None;
         _http_signature := None; _http_lastmodified := None |}
      1 "u"%string (sample_handle "jpg" partial_files) false
    = Some (Returned ExitDone, w, false,
            [EvPartEnable;
             EvRequest {| rq_index := 0; rq_url := "u"; rq_range := Some 3%N |};
             EvDebug "Unable to resume partial download";
             EvOpen WPlusB; EvWrite (lit "xyz"); EvStart; EvClose;
             EvSetMtime None]) /\
    files w !! "out/a.jpg.part"%string = Some (lit "xyz").
Proof. eexists. split; vm_compute; reflexivity. Qed.

(** ** The response validator *)

Section Validator.

Context {P F : Type} `{PathFormat P F}.
Variables (cfg : config) (kw : kwdict).

(** C4, amended.  When the configured validator is called on a response:
    - a string replaces the URL, takes one off the try counter and repeats
      the pass with nothing released, logged or slept.  The next pass
      issues its request at once when the counter is back at zero (the
      substitution happened on the first counted attempt); otherwise it
      starts like any retry, from the lowered counter: the response is
      released (when its status is below 400), the stored message is logged
      as a warning, and either the budget is found exhausted or the backoff
      sleep is taken before the request;
    - [False] releases the connection, logs a warning and returns [False];
    - [True] lets the response through to the next test. *)
Theorem validator_results (v : response -> validation) (r : response)
    (s : @state P) :
  validate cfg = true ->
  _http_validate kw = Some v ->
  (forall u, v r = VString u ->
     let s' := set_tries (Nat.pred (tries s)) (set_url u s) in
     check_validate cfg kw r s = (Continue, s', []) /\
     (tries s' = 0%nat -> retry_wait cfg s' = (Next tt, s', [])) /\
     (forall n, tries s' = S n -> resp s' = Some r ->
        let released := if response_ok r then [EvRelease] else [] in
        let s1 := if response_ok r then set_resp None s' else s' in
        retry_wait cfg s'
        = if exceeds (S n) (retries cfg)
          then (Return ExitRetries, s1,
                released ++ [EvWarning (WRetry (msg s) (S n) (total_tries cfg))])
          else (Next tt, set_code 0 s1,
                released ++ [EvWarning (WRetry (msg s) (S n) (total_tries cfg));
                             EvSleep (backoff cfg (code s) (S n))]))) /\
  (v r = VBool false ->
     check_validate cfg kw r s
     = (Return ExitInvalid, s, [EvRelease; EvWarning WInvalidResponse])) /\
  (v r = VBool true -> check_validate cfg kw r s = (Next tt, s, [])).
Proof.
  intros Hval Hkw. unfold check_validate. rewrite Hval, Hkw.
  split; [|split].
  - intros u ->. cbv zeta. split; [reflexivity|]. split.
    + intros Ht. unfold retry_wait, bind, gets. simpl in *. rewrite Ht.
      reflexivity.
    + intros n Ht Hr. unfold retry_wait, bind, gets, when, release_conn,
        modify, warn, emit, leave, pure. simpl in *. rewrite Ht. simpl.
      rewrite Hr. simpl. unfold total_tries.
      destruct (response_ok r); simpl;
        (destruct (retries cfg) as [k|]; simpl; [|reflexivity]);
        destruct (k <? S n)%nat; reflexivity.
  - intros ->. reflexivity.
  - intros ->. reflexivity.
Qed.

End Validator.

(** The requests and the sleeps of a run, in order. *)
Inductive tick :=
| TRequest (url : string)
| TSleep (secs : Q).

Fixpoint schedule (t : list event) : list tick :=
  match t with
  | EvRequest rq :: t' => TRequest (rq_url rq) :: schedule t'
  | EvSleep secs :: t' => TSleep secs :: schedule t'
  | _ :: t' => schedule t'
  | [] => []
  end.

(** A server whose first answer is 503 and whose later answers are 200,
    each naming the URL that was asked for; and a validator that sends
    every answer for [u] on to [v]. *)
Definition answer_for (c : Z) (u : string) : response :=
  {| status_code := c; reason := "reason"; r_url := u; history := false;
     r_headers := no_headers; chunked := true; content := [];
     probe16 := Chunk 0 [] None; content_after_probe := []; time_start := 0 |}.

Definition busy_once (rq : request) : reply :=
  match rq_index rq with
  | O => Answer (answer_for 503 (rq_url rq))
  | _ => Answer (answer_for 200 (rq_url rq))
  end.

Definition send_on (r : response) : validation :=
  if String.eqb (r_url r) "u" then VString "v" else VBool true.

Definition kwdict_send_on : kwdict :=
  {| _http_expected_status := []; _http_adjust_extension := None;
     _http_retry := None; _http_validate := Some send_on;
     _http_signature := None; _http_lastmodified := None |}.

Lemma validator_results_witness :
  let cfg := sample_config 1 true in
  let r := answer_for 200 "u" in
  let s := sent (init cfg "u"%string (sample_handle "jpg" ∅) false) r in
  (forall u, send_on r = VString u ->
     let s' := set_tries (Nat.pred (tries s)) (set_url u s) in
     check_validate cfg kwdict_send_on r s = (Continue, s', []) /\
     (tries s' = 0%nat -> retry_wait cfg s' = (Next tt, s', [])) /\
     (forall n, tries s' = S n -> resp s' = Some r ->
        let released := if response_ok r then [EvRelease] else [] in
        let s1 := if response_ok r then set_resp None s' else s' in
        retry_wait cfg s'
        = if exceeds (S n) (retries cfg)
          then (Return ExitRetries, s1,
                released ++ [EvWarning (WRetry (msg s) (S n) (total_tries cfg))])
          else (Next tt, set_code 0 s1,
                released ++ [EvWarning (WRetry (msg s) (S n) (total_tries cfg));
                             EvSleep (backoff cfg (code s) (S n))]))) /\
  (send_on r = VBool false ->
     check_validate cfg kwdict_send_on r s
     = (Return ExitInvalid, s, [EvRelease; EvWarning WInvalidResponse])) /\
  (send_on r = VBool true -> check_validate cfg kwdict_send_on r s = (Next tt, s, [])).
Proof.
  apply (validator_results (sample_config 1 true) kwdict_send_on send_on
           (answer_for 200 "u")
           (sent (init (sample_config 1 true) "u"%string
                    (sample_handle "jpg" ∅) false) (answer_for 200 "u")));
    reflexivity.
Defined.

(** C4, as stated, fails.  The first answer is 503, the second is sent on
    to another URL by the validator: the counter goes from 2 back to 1, so
    the next pass starts like a retry and sleeps one second before it
    requests the new URL (after logging the warning of the 503 again). *)
Lemma substitution_after_retry_sleeps :
  exists w t,
    download (sample_config 1 true) (sample_env busy_once) kwdict_send_on
      4 "u"%string (sample_handle "jpg" ∅) false
    = Some (Returned ExitDone, w, false, t) /\
    schedule t = [TRequest "u"; TSleep 1; TRequest "u"; TSleep 1; TRequest "v"].
Proof. eexists. eexists. split; vm_compute; reflexivity. Qed.

(** ** Invariants of a pass *)

(** How a computation ends, whatever the type of its value. *)
Inductive how :=
| HNext
| HContinue
| HBreak
| HReturn (e : exit)
| HRaise (x : exn).

Definition how_of {A} (r : flow A) : how :=
  match r with
  | Next _ => HNext
  | Continue => HContinue
  | Break => HBreak
  | Return e => HReturn e
  | Raise x => HRaise x
  end.

Definition is_open (ev : event) : bool :=
  match ev with EvOpen _ => true | _ => false end.

Definition has_open (t : list event) : bool := existsb is_open t.

Section Invariants.

Context {P F : Type} `{PathFormat P F}.

(** [inv ok X]: the [downloading] attribute is set exactly by opening the
    file, every event satisfies [ok], and a [return] is described by [X]. *)
Definition inv (ok : event -> bool) (X : exit -> list event -> Prop)
    (s : @state P) (h : how) (s' : @state P) (t : list event) : Prop :=
  downloading s' = downloading s || has_open t /\
  forallb ok t = true /\
  forall e, h = HReturn e -> X e t.

Definition sat {A} (Q : @state P -> how -> @state P -> list event -> Prop)
    (m : @M P A) : Prop :=
  forall s r s' t, m s = (r, s', t) -> Q s (how_of r) s' t.

(** [X] looks at the end of the trace only. *)
Definition suffix_closed (X : exit -> list event -> Prop) : Prop :=
  forall e t1 t2, X e t2 -> X e (t1 ++ t2).

Lemma sat_bind {A B} ok X (m : @M P A) (k : A -> @M P B) :
  suffix_closed X ->
  sat (inv ok X) m ->
  (forall a, (exists s s1 t1, m s = (Next a, s1, t1)) -> sat (inv ok X) (k a)) ->
  sat (inv ok X) (bind m k).
Proof.
  intros HX Hm Hk s r s' t Hrun.
  apply bind_inv in Hrun as [(a & s1 & t1 & t2 & Hm1 & Hk1 & ->)|(r0 & Hm1 & Hr)].
  - destruct (Hm _ _ _ _ Hm1) as (Hd1 & Ho1 & _).
    destruct (Hk a (ex_intro _ s (ex_intro _ s1 (ex_intro _ t1 Hm1))) _ _ _ _ Hk1)
      as (Hd2 & Ho2 & HX2).
    split; [|split].
    + rewrite Hd2, Hd1. unfold has_open. rewrite existsb_app, orb_assoc.
      reflexivity.
    + rewrite forallb_app, Ho1, Ho2. reflexivity.
    + intros e He. apply HX, HX2, He.
  - specialize (Hm _ _ _ _ Hm1). destruct r0, r; try contradiction; subst;
      exact Hm.
Qed.

Lemma sat_weaken {A} (ok ok' : event -> bool) (X X' : exit -> list event -> Prop)
    (m : @M P A) :
  (forall ev, ok ev = true -> ok' ev = true) ->
  (forall e t, X e t -> X' e t) ->
  sat (inv ok X) m -> sat (inv ok' X') m.
Proof.
  intros Hok HX Hm s r s' t Hrun. destruct (Hm _ _ _ _ Hrun) as (Hd & Ho & Hx).
  split; [exact Hd|]. split; [|intros e He; apply HX, Hx, He].
  rewrite forallb_forall in *. intros ev Hin. apply Hok, Ho, Hin.
Qed.

Lemma sat_pure {A} ok X (a : A) : sat (inv ok X) (pure a).
Proof.
  intros s r s' t [= <- <- <-]. split; [|split]; simpl;
    [rewrite orb_false_r; reflexivity|reflexivity|discriminate].
Qed.

Lemma sat_gets {A} ok X (f : @state P -> A) : sat (inv ok X) (gets f).
Proof.
  intros s r s' t [= <- <- <-]. split; [|split]; simpl;
    [rewrite orb_false_r; reflexivity|reflexivity|discriminate].
Qed.

Lemma sat_emit ok X (ev : event) :
  ok ev = true -> is_open ev = false -> sat (inv ok X) (emit ev).
Proof.
  intros Hok Hop s r s' t [= <- <- <-]. split; [|split]; simpl.
  - rewrite Hop, orb_false_r. reflexivity.
  - rewrite Hok. reflexivity.
  - discriminate.
Qed.

Lemma sat_modify ok X (f : @state P -> @state P) :
  (forall s, downloading (f s) = downloading s) -> sat (inv ok X) (modify f).
Proof.
  intros Hf s r s' t [= <- <- <-]. split; [|split]; simpl;
    [rewrite Hf, orb_false_r; reflexivity|reflexivity|discriminate].
Qed.

Lemma sat_call ok X (ev : event) (f : P -> P) :
  ok ev = true -> is_open ev = false -> sat (inv ok X) (call ev f).
Proof.
  intros Hok Hop s r s' t [= <- <- <-]. split; [|split]; simpl.
  - rewrite Hop, !orb_false_r. reflexivity.
  - rewrite Hok. reflexivity.
  - discriminate.
Qed.

(** Leaving without [return]. *)
Lemma sat_leave {A} ok X (r : flow A) :
  (forall e, r <> Return e) -> sat (inv ok X) (leave r).
Proof.
  intros Hr s r' s' t [= <- <- <-]. split; [|split]; simpl;
    [rewrite orb_false_r; reflexivity|reflexivity|].
  intros e He. destruct r; try discriminate. exfalso. exact (Hr e0 eq_refl).
Qed.

Lemma sat_when ok X (c : bool) (m : @M P unit) :
  sat (inv ok X) m -> sat (inv ok X) (when c m).
Proof. intros Hm. destruct c; [exact Hm|apply sat_pure]. Qed.

Lemma emit_all_run (t : list event) (s : @state P) :
  emit_all t s = (Next tt, s, t).
Proof.
  induction t as [|ev t IH]; [reflexivity|].
  simpl. unfold bind, emit. rewrite IH. reflexivity.
Qed.

Lemma sat_emit_all ok X (t : list event) :
  forallb ok t = true -> has_open t = false -> sat (inv ok X) (emit_all t).
Proof.
  intros Hok Hop s r s' t'. rewrite emit_all_run. intros [= <- <- <-].
  split; [|split]; simpl; [rewrite Hop, orb_false_r; reflexivity|exact Hok|
    discriminate].
Qed.

(** Closing the file on the way out keeps an invariant that tolerates the
    [close] at the end of the trace. *)
Lemma sat_guard {A} ok (X : exit -> list event -> Prop) (fp : F) (m : @M P A) :
  ok EvClose = true ->
  (forall e t, X e t -> X e (t ++ [EvClose])) ->
  sat (inv ok X) m -> sat (inv ok X) (guard fp m).
Proof.
  intros Hok HX Hm s r s' t. unfold guard.
  destruct (m s) as [[r1 s1] t1] eqn:Hrun.
  destruct (Hm _ _ _ _ Hrun) as (Hd & Ho & Hx).
  destruct r1; intros [= <- <- <-];
    (split; [|split];
     [ simpl; rewrite ?Hd; unfold has_open; rewrite ?existsb_app; simpl;
       rewrite ?orb_false_r; reflexivity
     | rewrite ?forallb_app, ?Ho; simpl; rewrite ?Hok; reflexivity
     | simpl; intros e' He'; try discriminate; try (apply HX, Hx, He') ]).
Qed.

End Invariants.

(** ** What each part of a pass may do *)

(** The warning that belongs to a [return]. *)
Definition cause (e : exit) (w : warning) : bool :=
  match e, w with
  | ExitRetries, WRetry _ _ _
  | ExitTransport, WException _
  | ExitStatus, WStatus _
  | ExitInvalid, WInvalidResponse
  | ExitHtml, WRedirect _
  | ExitHtml, WHtmlResponse
  | ExitTooSmall, WTooSmall _ _
  | ExitTooLarge, WTooLarge _ _
  | ExitSignature, WSignature _ => true
  | _, _ => false
  end.

(** The trace ends with the warning that belongs to the [return]; only the
    clearing of the temporary path, on the size limits, comes after it. *)
Definition announced (e : exit) (t : list event) : Prop :=
  exists t0 w,
    cause e w = true /\
    t = t0 ++ EvWarning w
           :: match outcome e with Skipped => [EvClearTemppath] | _ => [] end.

(** A [return] is one of [allowed], and announced unless it reports a
    success or gives way to [StopExtraction]. *)
Definition described (allowed : list exit) (e : exit) (t : list event) : Prop :=
  In e allowed /\ (outcome e <> Success -> e <> ExitStop -> announced e t).

(** Events that touch neither a file nor the file system. *)
Definition quiet (ev : event) : bool :=
  match ev with
  | EvOpen _ | EvRead _ | EvSeek _ | EvWrite _ | EvClose | EvRemoveFile _ => false
  | _ => true
  end.

(** Events of the body of the [with] block. *)
Definition in_file (ev : event) : bool :=
  match ev with
  | EvOpen _ | EvRemoveFile _ => false
  | _ => true
  end.

(** The same, for a file that was opened anew: nothing is read back, and
    the position is never moved. *)
Definition in_new_file (ev : event) : bool :=
  match ev with
  | EvOpen _ | EvRemoveFile _ | EvRead _ | EvSeek _ => false
  | _ => true
  end.

Definition kept (ev : event) : bool :=
  match ev with EvRemoveFile _ => false | _ => true end.

Definition from_receiver (ev : event) : bool :=
  match ev with
  | EvWrite _ | EvProgress _ _ _ | EvSleep _ => true
  | _ => false
  end.

Lemma announced_app (e : exit) (t1 t2 : list event) :
  announced e t2 -> announced e (t1 ++ t2).
Proof.
  intros (t0 & w & Hc & ->). exists (t1 ++ t0), w. split; [exact Hc|].
  rewrite <- app_assoc. reflexivity.
Qed.

Lemma described_suffix (allowed : list exit) : suffix_closed (described allowed).
Proof.
  intros e t1 t2 [Hin Ha]. split; [exact Hin|].
  intros Ho Hs. apply announced_app, Ha; assumption.
Qed.

Lemma described_mono (l l' : list exit) (e : exit) (t : list event) :
  incl l l' -> described l e t -> described l' e t.
Proof. intros Hl [Hin Ha]. split; [apply Hl, Hin|exact Ha]. Qed.

#[local] Hint Resolve described_suffix : core.

(** One step of a proof that a computation keeps an invariant. *)
Ltac announce_after t0 :=
  refine (ex_intro _ t0 _); eexists; split; [|reflexivity]; reflexivity.

Ltac announce :=
  first [ announce_after (@nil event)
        | announce_after constr:([EvRelease])
        | simpl;
          match goal with
          | |- announced _ (?a :: _) => announce_after constr:([a])
          end
        | simpl;
          match goal with
          | |- announced _ (?a :: ?c :: _) => announce_after constr:([a; c])
          end ].

Ltac describe :=
  split;
  [ simpl; auto 12
  | intros Hout Hstop;
    first [ exfalso; apply Hout; reflexivity
          | exfalso; apply Hstop; reflexivity
          | announce ] ].

Ltac sat_eval :=
  let s := fresh "s" in
  let Hrun := fresh "Hrun" in
  intros s ? ? ? Hrun;
  cbv [bind pure emit gets modify leave when call warn release_conn
       clear_temppath] in Hrun;
  injection Hrun as <- <- <-;
  split; [|split];
  [ simpl; rewrite ?orb_false_r; reflexivity
  | reflexivity
  | simpl; intros ? [= <-]; describe ].

Ltac sat_step :=
  first
    [ solve [sat_eval]
    | lazymatch goal with
      | |- sat _ (bind _ _) => apply sat_bind; [solve [auto]| |intros ? ?]
      | |- sat _ (pure _) => apply sat_pure
      | |- sat _ (gets _) => apply sat_gets
      | |- sat _ (emit _) => apply sat_emit; reflexivity
      | |- sat _ (warn _) => apply sat_emit; reflexivity
      | |- sat _ release_conn => apply sat_emit; reflexivity
      | |- sat _ clear_temppath => apply sat_call; reflexivity
      | |- sat _ (modify _) => apply sat_modify; intros; reflexivity
      | |- sat _ (call _ _) => apply sat_call; reflexivity
      | |- sat _ (leave _) => apply sat_leave; discriminate
      | |- sat _ (when _ _) => apply sat_when
      | |- sat _ (if ?c then _ else _) => destruct c eqn:?
      | |- sat _ (match ?x with _ => _ end) => destruct x eqn:?
      end ].

Section Phases.

Context {P F : Type} `{PathFormat P F}.
Variables (cfg : config) (E : env) (kw : kwdict).

Lemma find_extension_quiet (r : response) :
  sat (inv quiet (described [])) (_find_extension (P:=P) E r).
Proof. unfold _find_extension. repeat sat_step. Qed.

Lemma adjust_extension_quiet (h : bytes) :
  sat (inv quiet (described [])) (_adjust_extension (P:=P) h).
Proof. unfold _adjust_extension. repeat sat_step. Qed.

Lemma retry_wait_inv :
  sat (inv quiet (described [ExitRetries])) (retry_wait (P:=P) cfg).
Proof.
  intros s r s' t. unfold retry_wait.
  cbv [bind pure emit gets modify leave when call warn release_conn].
  destruct (tries s) as [|n]; [intros [= <- <- <-]|].
  - split; [|split]; simpl; [rewrite orb_false_r; reflexivity|reflexivity|
      discriminate].
  - destruct (resp s) as [r'|]; [destruct (response_ok r')|];
      destruct (exceeds (S n) (retries cfg)); intros [= <- <- <-];
      (split; [|split];
       [ simpl; rewrite ?orb_false_r; reflexivity | reflexivity
       | simpl; intros ? [= <-]; describe ]).
Qed.

Lemma send_request_inv :
  sat (inv quiet (described [ExitTransport])) (send_request (P:=P) E).
Proof. unfold send_request. repeat sat_step. Qed.

Lemma reject_status_inv {A} (r : response) :
  sat (inv quiet (described [ExitStatus])) (reject_status (P:=P) (A:=A) cfg E kw r).
Proof. unfold reject_status. repeat sat_step. Qed.

Lemma check_response_inv (file_size : N) (r : response) :
  sat (inv quiet (described [ExitStatus])) (check_response (P:=P) cfg E kw file_size r).
Proof.
  unfold check_response. repeat sat_step. apply reject_status_inv.
Qed.

Lemma check_validate_inv (r : response) :
  sat (inv quiet (described [ExitInvalid])) (check_validate (P:=P) cfg kw r).
Proof. unfold check_validate. repeat sat_step. Qed.

Lemma check_html_inv (r : response) :
  sat (inv quiet (described [ExitHtml])) (check_html (P:=P) cfg r).
Proof.
  unfold check_html. sat_step; [sat_step|]. sat_step; [|sat_step].
  destruct (history r); sat_eval.
Qed.

Lemma check_size_inv (size : option string) :
  sat (inv quiet (described [ExitTooSmall; ExitTooLarge]))
    (check_size (P:=P) cfg E size).
Proof. unfold check_size. repeat sat_step. Qed.

Lemma prepare_path_inv (r : response) :
  sat (inv quiet (described [ExitExists])) (prepare_path (P:=P) cfg E r).
Proof.
  unfold prepare_path. sat_step; [sat_step|]. sat_step.
  - sat_step; [sat_step|]. sat_step.
    + eapply sat_weaken; [| |apply find_extension_quiet]; [auto|].
      intros ex tx [[] _].
    + repeat sat_step.
  - repeat sat_step.
Qed.

Lemma check_header_inv (r : response) (offset : N) :
  sat (inv quiet (described [ExitSignature; ExitAdjusted]))
    (check_header (P:=P) cfg kw r offset).
Proof.
  unfold check_header. sat_step; [sat_step|].
  sat_step; [|sat_step].
  sat_step. sat_step; [|repeat sat_step].
  sat_step.
  - repeat sat_step.
  - sat_step; [|sat_step]. sat_step; [|sat_step].
    sat_step.
    + eapply sat_weaken; [| |apply adjust_extension_quiet]; [auto|].
      intros ex tx [[] _].
    + repeat sat_step.
Qed.

(** A receiver writes, reports and sleeps, and does nothing else. *)
Lemma receive_trace (fp : F) (items : list item) rv fp' t :
  receive fp items = (rv, fp', t) -> forallb from_receiver t = true.
Proof.
  revert fp rv fp' t. induction items as [|[tm d [g|]|m] items IH];
    intros fp rv fp' t; simpl.
  - intros [= <- <- <-]. reflexivity.
  - intros [= <- <- <-]. reflexivity.
  - destruct (receive (f_write d fp) items) as [[rv1 fp1] t1] eqn:Hr.
    intros [= <- <- <-]. simpl. eapply IH, Hr.
  - intros [= <- <- <-]. reflexivity.
Qed.

Lemma receive_rate_loop_trace rate progress total start t0 n (fp : F)
    (items : list item) rv fp' t :
  receive_rate_loop rate progress total start t0 n fp items = (rv, fp', t) ->
  forallb from_receiver t = true.
Proof.
  revert n fp rv fp' t. induction items as [|[tm d [g|]|m] items IH];
    intros n fp rv fp' t; simpl.
  - intros [= <- <- <-]. reflexivity.
  - intros [= <- <- <-]. reflexivity.
  - assert (Hp : forall t1, report_progress progress total start
                   (n + byte_count d) (tm - t0) = Some t1 ->
                 forallb from_receiver t1 = true).
    { unfold report_progress. intros t1.
      destruct progress as [p|]; [|intros [= <-]; reflexivity].
      destruct (Qltb p (tm - t0)); [|intros [= <-]; reflexivity].
      destruct (Qeq_bool (tm - t0) 0); [discriminate|].
      intros [= <-]. reflexivity. }
    assert (Ht : forall t2, throttle rate (n + byte_count d) (tm - t0) = Some t2 ->
                 forallb from_receiver t2 = true).
    { unfold throttle. intros t2.
      destruct rate as [q|]; [|intros [= <-]; reflexivity].
      destruct (Qeq_bool q 0); [discriminate|].
      destruct (Qltb _ _); intros [= <-]; reflexivity. }
    destruct (report_progress _ _ _ _ _) as [t1|];
      [|intros [= <- <- <-]; reflexivity].
    destruct (throttle _ _ _) as [t2|].
    + destruct (receive_rate_loop _ _ _ _ _ _ (f_write d fp) items)
        as [[rv1 fp1] t3] eqn:Hr.
      intros [= <- <- <-]. simpl.
      rewrite !forallb_app, (Hp t1 eq_refl), (Ht t2 eq_refl),
        (IH _ _ _ _ _ Hr). reflexivity.
    + intros [= <- <- <-]. simpl. apply (Hp t1 eq_refl).
  - intros [= <- <- <-]. reflexivity.
Qed.

Lemma self_receive_trace n (fp : F) (items : list item) total start t0 :
  forallb from_receiver (snd (self_receive cfg n fp items total start t0)) = true.
Proof.
  unfold self_receive, _receive_rate.
  destruct (rate cfg), (progress cfg);
    match goal with
    | |- context [receive ?fp ?l] =>
        destruct (receive fp l) as [[rv fp'] t] eqn:Hr;
        exact (receive_trace _ _ _ _ _ Hr)
    | |- context [receive_rate_loop ?a ?b ?c ?d ?e ?f ?g ?h] =>
        destruct (receive_rate_loop a b c d e f g h) as [[rv fp'] t] eqn:Hr;
        exact (receive_rate_loop_trace _ _ _ _ _ _ _ _ _ _ _ Hr)
    end.
Qed.

Lemma from_receiver_in_new_file (t : list event) :
  forallb from_receiver t = true ->
  forallb in_new_file t = true /\ has_open t = false.
Proof.
  induction t as [|ev t IH]; simpl; [auto|].
  intros Hev. apply andb_prop in Hev as [Hev Ht].
  destruct (IH Ht) as [-> ->]. destruct ev; try discriminate; auto.
Qed.

Lemma in_new_file_in_file (ev : event) : in_new_file ev = true -> in_file ev = true.
Proof. destruct ev; simpl; congruence. Qed.

Lemma in_file_kept (ev : event) : in_file ev = true -> kept ev = true.
Proof. destruct ev; simpl; congruence. Qed.

Lemma quiet_in_new_file (ev : event) : quiet ev = true -> in_new_file ev = true.
Proof. destruct ev; simpl; congruence. Qed.

Lemma quiet_kept (ev : event) : quiet ev = true -> kept ev = true.
Proof. destruct ev; simpl; congruence. Qed.

Lemma described_stop_close (e : exit) (t : list event) :
  described [ExitStop] e t -> described [ExitStop] e (t ++ [EvClose]).
Proof.
  intros [[<-|[]] _]. split; [left; reflexivity|].
  intros _ Hs. exfalso. apply Hs. reflexivity.
Qed.

(** The receiver, the checks after it, and the end of the [with] block. *)
Lemma receive_into_inv (ok : event -> bool) (r : response) (rest : list item)
    (size : option Z) (fo : F * N) :
  (forall ev, in_new_file ev = true -> ok ev = true) ->
  sat (inv ok (described [ExitStop])) (receive_into (P:=P) cfg r rest size fo).
Proof.
  intros Hok. unfold receive_into.
  assert (Hev : forall ev, in_new_file ev = true -> is_open ev = false)
    by (intros []; simpl; congruence).
  apply sat_bind; [auto|apply sat_emit; [apply Hok|]; reflexivity|intros _ _].
  apply sat_bind; [auto|apply sat_gets|intros n _]. cbv zeta.
  destruct (from_receiver_in_new_file _
              (self_receive_trace n (fst fo) rest size (Z.of_N (snd fo))
                 (time_start r))) as [Hnew Hno].
  apply sat_bind; [auto| |intros _ _].
  { apply sat_emit_all; [|exact Hno].
    rewrite forallb_forall in *. intros ev Hin. apply Hok, Hnew, Hin. }
  apply sat_bind; [auto| |intros _ _].
  - apply sat_guard; [apply Hok; reflexivity|apply described_stop_close|].
    eapply sat_weaken; [exact Hok|intros ? ? Hd; exact Hd|].
    destruct (fst (fst (self_receive _ _ _ _ _ _ _))); repeat sat_step.
  - eapply sat_weaken; [exact Hok|intros ? ? Hd; exact Hd|]. repeat sat_step.
Qed.

Lemma transfer_inv (r : response) (offset : N) (file_header : option bytes)
    (rest : list item) (size : option Z) (fp : F) :
  sat (inv in_file (described [ExitStop]))
    (transfer (P:=P) cfg kw r offset file_header rest size fp).
Proof.
  unfold transfer. apply sat_bind; [auto| |intros fo _].
  - apply sat_guard; [reflexivity|apply described_stop_close|].
    destruct file_header as [[|c h]|].
    + sat_step; [sat_step|]. sat_step; [sat_step|]. sat_step; [|repeat sat_step].
      sat_step; [|sat_step]. sat_step; [sat_step|]. sat_step; [|sat_step].
      eapply sat_weaken; [| |apply adjust_extension_quiet].
      * intros []; simpl; congruence.
      * intros ex tx [[] _].
    + repeat sat_step.
    + sat_step; [sat_step|]. sat_step; [sat_step|]. sat_step; [|repeat sat_step].
      sat_step; [|sat_step]. sat_step; [sat_step|]. sat_step; [|sat_step].
      eapply sat_weaken; [| |apply adjust_extension_quiet].
      * intros []; simpl; congruence.
      * intros ex tx [[] _].
  - apply receive_into_inv. exact in_new_file_in_file.
Qed.


Lemma open_file_inv (X : exit -> list event -> Prop) (mode : open_mode) :
  sat (inv kept X) (open_file (P:=P) mode).
Proof.
  intros s r s' t [= <- <- <-]. split; [|split]; simpl;
    [rewrite orb_true_r; reflexivity|reflexivity|discriminate].
Qed.

Lemma stream_inv (r : response) (file_size offset : N)
    (file_header : option bytes) (rest : list item) (size : option Z) :
  sat (inv kept (described [ExitStop]))
    (stream (P:=P) cfg kw r file_size offset file_header rest size).
Proof.
  unfold stream. apply sat_bind; [auto|repeat sat_step|intros _ _].
  apply sat_bind; [auto|apply open_file_inv|intros [fp|] _].
  - eapply sat_weaken; [exact in_file_kept|intros ? ? Hd; exact Hd|].
    apply transfer_inv.
  - sat_step.
Qed.

(** The size that a response declares: [Content-Length] on a full answer,
    the total of [Content-Range] on a partial one. *)
Definition declared_size (r : response) : option string :=
  let c := status_code r in
  if (c =? 200) || code_in c (_http_expected_status kw) then
    content_length (r_headers r)
  else if c =? 206 then
    option_map (rpartition_tail "/"%char) (content_range (r_headers r))
  else None.

Lemma check_response_value (file_size : N) (r : response) (s s1 : @state P)
    (os : N * option string) (t1 : list event) :
  check_response cfg E kw file_size r s = (Next os, s1, t1) ->
  snd os = declared_size r /\
  ((status_code r =? 200) || code_in (status_code r) (_http_expected_status kw)
   = true -> fst os = 0%N).
Proof.
  unfold check_response, declared_size, bind, modify, pure, leave. simpl.
  destruct ((status_code r =? 200) || code_in _ _).
  - intros [= <- <- <-]. auto.
  - destruct (status_code r =? 206).
    + destruct (content_range (r_headers r)); [|discriminate].
      intros [= <- <- <-]. split; [reflexivity|discriminate].
    + destruct ((status_code r =? 416) && negb (file_size =? 0)%N);
        [discriminate|].
      intros Hrun. exfalso.
      unfold reject_status, bind, modify, gets, warn, emit, leave, release_conn,
        pure in Hrun. simpl in Hrun.
      destruct (detect_challenge E r); destruct (wants_retry cfg kw r);
        discriminate.
Qed.

(** A size inside the limits, or no size, or no limits. *)
Definition within (sz : option Z) : bool :=
  match sz with
  | Some z =>
      negb (truthy (minsize cfg) && (z <? default 0 (minsize cfg)))
      && negb (truthy (maxsize cfg) && (default 0 (maxsize cfg) <? z))
  | None => true
  end.

Lemma check_size_within (size : option string) :
  within (parse_int E size) = true ->
  sat (inv quiet (described [])) (check_size (P:=P) cfg E size).
Proof.
  unfold within, check_size.
  destruct (parse_int E size) as [z|]; intros Hw; [|sat_step].
  apply andb_prop in Hw as [Hmin Hmax].
  apply negb_true_iff in Hmin, Hmax. rewrite Hmin, Hmax. sat_step.
Qed.

(** The returns of the part of a pass that follows the size limits or
    precedes them. *)
Definition exits_of_answer : list exit :=
  [ExitStatus; ExitInvalid; ExitHtml; ExitExists; ExitSignature; ExitAdjusted;
   ExitStop].

Ltac widen L :=
  eapply sat_weaken; [ | |apply L];
  [ first [exact quiet_kept | intros ? Hk; exact Hk]
  | intros ? ? Hd; eapply described_mono; [|exact Hd];
    intros ? Hin; simpl in Hin; apply in_or_app;
    first [left; exact Hin | right; simpl; tauto] ].

Lemma handle_answer_inv (limits : list exit) (file_size : N) (r : response) :
  sat (inv quiet (described limits)) (check_size (P:=P) cfg E (declared_size r)) ->
  sat (inv kept (described (limits ++ exits_of_answer)))
    (handle_answer (P:=P) cfg E kw file_size r).
Proof.
  intros Hsize. unfold handle_answer.
  apply sat_bind; [auto|widen check_response_inv|].
  intros [offset size] (s & s1 & t1 & Hrun).
  apply check_response_value in Hrun as [Hdecl _]. simpl in Hdecl. subst size.
  apply sat_bind; [auto|widen check_validate_inv|intros _ _].
  apply sat_bind; [auto|widen check_html_inv|intros _ _].
  apply sat_bind; [auto|widen Hsize|intros size _].
  apply sat_bind; [auto|widen prepare_path_inv|intros _ _].
  apply sat_bind; [auto|widen check_header_inv|intros [file_header rest] _].
  widen stream_inv.
Qed.

(** The returns of the loop. *)
Definition loop_exits : list exit :=
  ExitRetries :: ExitTransport :: [ExitTooSmall; ExitTooLarge] ++ exits_of_answer.

Lemma exchange_inv :
  sat (inv kept (described loop_exits)) (exchange (P:=P) cfg E kw).
Proof.
  unfold exchange. apply sat_bind; [auto| |intros [file_size r] _].
  - eapply sat_weaken; [exact quiet_kept| |apply send_request_inv].
    intros e t Hd. eapply described_mono; [|exact Hd].
    intros x [<-|[]]. simpl. tauto.
  - eapply sat_weaken; [intros ? Hk; exact Hk| |
      apply (handle_answer_inv [ExitTooSmall; ExitTooLarge]), check_size_inv].
    intros e t Hd. eapply described_mono; [|exact Hd].
    intros x Hin. right. right. exact Hin.
Qed.

Lemma attempt_inv :
  sat (inv kept (described loop_exits)) (attempt (P:=P) cfg E kw).
Proof.
  unfold attempt. apply sat_bind; [auto| |intros _ _; apply exchange_inv].
  eapply sat_weaken; [exact quiet_kept| |apply retry_wait_inv].
  intros e t Hd. eapply described_mono; [|exact Hd].
  intros x [<-|[]]. left. reflexivity.
Qed.

Lemma loop_inv (fuel : nat) :
  forall (s s' : @state P) (e : ending) (t : list event),
  loop cfg E kw fuel s = Some (e, s', t) ->
  downloading s' = downloading s || has_open t /\
  forallb kept t = true /\
  forall x, e = Returns x -> described loop_exits x t.
Proof.
  induction fuel as [|fuel IH]; intros s s' e t; simpl; [discriminate|].
  destruct (attempt cfg E kw s) as [[r s1] t1] eqn:Hrun.
  destruct (attempt_inv _ _ _ _ Hrun) as (Hd & Hk & Hx).
  destruct r as [[]| | |x|x].
  - intros [= <- <- <-]. split; [exact Hd|split; [exact Hk|discriminate]].
  - destruct (loop cfg E kw fuel s1) as [[[e2 s2] t2]|] eqn:Hloop; [|discriminate].
    intros [= <- <- <-]. destruct (IH _ _ _ _ Hloop) as (Hd2 & Hk2 & Hx2).
    split; [|split].
    + rewrite Hd2, Hd. unfold has_open. rewrite existsb_app, orb_assoc.
      reflexivity.
    + rewrite forallb_app, Hk, Hk2. reflexivity.
    + intros x Hx'. apply described_suffix, Hx2, Hx'.
  - intros [= <- <- <-]. split; [exact Hd|split; [exact Hk|discriminate]].
  - intros [= <- <- <-]. split; [exact Hd|split; [exact Hk|]].
    intros x' [= <-]. apply Hx. reflexivity.
  - intros [= <- <- <-]. split; [exact Hd|split; [exact Hk|discriminate]].
Qed.

(** [_download_impl] removes nothing; when it returns at the end of the
    function the [downloading] attribute is cleared; when it returns from
    within the loop the attribute is set if it was set before or the file
    was opened, and the return is described. *)
Lemma download_impl_inv (fuel : nat) (u : string) (w : P) (d : bool)
    (e : exit) (s : @state P) (t : list event) :
  _download_impl cfg E kw fuel u w d = Some (Returned e, s, t) ->
  forallb kept t = true /\
  (e = ExitDone -> downloading s = false) /\
  (e <> ExitDone ->
     downloading s = d || has_open t /\ described loop_exits e t).
Proof.
  unfold _download_impl.
  assert (Hpro : exists t0, prologue cfg (init cfg u w d)
                   = (Next tt, set_world (if part cfg && negb (truthy_key (metadata cfg))
                                          then part_enable w else w) (init cfg u w d), t0)
                   /\ forallb kept t0 = true /\ has_open t0 = false).
  { unfold prologue, when. destruct (part cfg && negb (truthy_key (metadata cfg)));
      eexists; split; try reflexivity; split; reflexivity. }
  destruct Hpro as (t0 & -> & Hk0 & Ho0).
  destruct (loop cfg E kw fuel _) as [[[en s2] t1]|] eqn:Hloop; [|discriminate].
  destruct (loop_inv _ _ _ _ _ Hloop) as (Hd & Hk & Hx). simpl in Hd.
  destruct en as [|x|x].
  - destruct (epilogue cfg kw s2) as [[r s3] t2] eqn:Hepi.
    assert (Hdone : downloading s3 = false /\ forallb kept t2 = true).
    { revert Hepi. unfold epilogue, bind, modify, call, emit, gets, leave. simpl.
      destruct (mtime cfg); simpl;
        [destruct (_http_lastmodified kw); simpl; [|destruct (resp s2); simpl]|];
        intros [= <- <- <-]; auto. }
    destruct Hdone as [Hd3 Hk3].
    destruct r; intros Heq; try discriminate; injection Heq as <- <- <-;
      (split; [rewrite !forallb_app, Hk0, Hk, Hk3; reflexivity|]);
      (split; [intros _; exact Hd3|intros Hne; exfalso; apply Hne; reflexivity]).
  - intros [= <- <- <-]. split; [rewrite forallb_app, Hk0, Hk; reflexivity|].
    specialize (Hx x eq_refl). split.
    + intros ->. destruct Hx as [Hin _]. simpl in Hin.
      repeat (destruct Hin as [Hin|Hin]; [discriminate|]). contradiction.
    + intros _. split; [|apply described_suffix, Hx].
      rewrite Hd. unfold has_open. rewrite existsb_app.
      fold (has_open t0). rewrite Ho0. reflexivity.
  - discriminate.
Qed.

End Phases.

(** ** Warnings, and the temporary file *)

Section Outcomes.

Context {P F : Type} `{PathFormat P F}.
Variables (cfg : config) (E : env) (kw : kwdict).

(** C9, amended.  Every call of [download] that returns the failed or the
    skipped outcome, other than on a [StopExtraction] raised while the body
    is received (which logs nothing), has logged a warning that describes
    the cause as its last log line: after that warning the function only
    clears the temporary path (on a size limit) and removes the file (when
    it does).  Earlier passes that were retried, and a detected challenge,
    have logged warnings of their own before it. *)
Theorem failure_is_announced (fuel : nat) (u : string) (w w' : P)
    (d d' : bool) (e : exit) (t : list event) :
  download cfg E kw fuel u w d = Some (Returned e, w', d', t) ->
  outcome e = Failed \/ outcome e = Skipped ->
  e <> ExitStop ->
  exists t0 wn rest,
    t = t0 ++ EvWarning wn :: rest /\
    cause e wn = true /\
    Forall (fun ev => ev = EvClearTemppath \/ exists p, ev = EvRemoveFile p) rest.
Proof.
  unfold download.
  destruct (_download_impl cfg E kw fuel u w d) as [[[r s] t1]|] eqn:Himpl;
    [|discriminate].
  intros Hrun Hout Hstop.
  assert (Hr : r = Returned e)
    by (destruct (downloading s && negb (part cfg)); congruence).
  subst r.
  assert (exists tl, t = t1 ++ tl /\
          Forall (fun ev => ev = EvClearTemppath \/ exists p, ev = EvRemoveFile p) tl)
    as (tl & -> & Htl).
  { destruct (downloading s && negb (part cfg)); injection Hrun as <- <- <-;
      simpl; eexists; (split; [reflexivity|]);
      repeat first [apply List.Forall_nil
                   |apply List.Forall_cons; [right; eexists; reflexivity|]]. }
  destruct (download_impl_inv cfg E kw _ _ _ _ _ _ _ Himpl) as (_ & _ & Hne).
  destruct Hne as [_ [_ Han]].
  { intros ->. destruct Hout; discriminate. }
  destruct Han as (t0 & wn & Hc & ->).
  - intros Hs. rewrite Hs in Hout. destruct Hout; discriminate.
  - exact Hstop.
  - exists t0, wn. eexists. split; [rewrite <- app_assoc; reflexivity|].
    split; [exact Hc|]. apply Forall_app. split; [|exact Htl].
    destruct (outcome e); repeat constructor; auto.
Qed.


(** C2, amended.  When the size limits are reached (the status was
    accepted, and neither the validator nor the HTML test refused the
    response) with a declared size that parses to [sz]: if a minimum is set
    (not zero) and [sz] is below it, or else a maximum is set and [sz] is
    above it, the connection is released, a warning is logged, the
    temporary path is set to the empty string and the function returns the
    skipped outcome; nothing is removed, so a partial file that is already
    on disk stays there.  Conversely, a response whose declared size is
    inside the limits (or does not parse, or with no limit set) never
    yields the skipped outcome. *)
Theorem size_limits (size : option string) (sz : Z) (s : @state P) :
  parse_int E size = Some sz ->
  (truthy (minsize cfg) && (sz <? default 0 (minsize cfg)) = true ->
     outcome ExitTooSmall = Skipped /\
     check_size cfg E size s
     = (Return ExitTooSmall, set_world (set_temppath EmptyString (world s)) s,
        [EvRelease; EvWarning (WTooSmall sz (default 0 (minsize cfg)));
         EvClearTemppath])) /\
  (truthy (minsize cfg) && (sz <? default 0 (minsize cfg)) = false ->
   truthy (maxsize cfg) && (default 0 (maxsize cfg) <? sz) = true ->
     outcome ExitTooLarge = Skipped /\
     check_size cfg E size s
     = (Return ExitTooLarge, set_world (set_temppath EmptyString (world s)) s,
        [EvRelease; EvWarning (WTooLarge sz (default 0 (maxsize cfg)));
         EvClearTemppath])) /\
  (forall file_size r s0 fl s' t,
     declared_size kw r = size ->
     within cfg (Some sz) = true ->
     handle_answer cfg E kw file_size r s0 = (fl, s', t) ->
     forall e, fl = Return e -> outcome e <> Skipped).
Proof.
  intros Hparse. split; [|split].
  - intros Hmin. split; [reflexivity|]. unfold check_size.
    rewrite Hparse, Hmin. reflexivity.
  - intros Hmin Hmax. split; [reflexivity|]. unfold check_size.
    rewrite Hparse, Hmin, Hmax. reflexivity.
  - intros file_size r s0 fl s' t Hdecl Hwithin Hrun e ->.
    assert (Hsat : sat (inv quiet (described []))
                     (check_size (P:=P) cfg E (declared_size kw r))).
    { apply check_size_within. rewrite Hdecl, Hparse. exact Hwithin. }
    destruct (handle_answer_inv cfg E kw [] file_size r Hsat _ _ _ _ Hrun)
      as (_ & _ & Hx).
    destruct (Hx e eq_refl) as [Hin _]. simpl in Hin.
    repeat (destruct Hin as [<-|Hin]; [discriminate|]). contradiction.
Qed.

End Outcomes.

(** *** Sample runs *)

(** A server that is always busy, and a task that allows no retry. *)
Definition busy_env : env :=
  sample_env (fun _ => Answer (sample_response 503 no_headers [])).

Definition busy_trace : list event :=
  [EvPartEnable;
   EvRequest {| rq_index := 0; rq_url := "u"; rq_range := None |};
   EvWarning (WRetry (MsgStatus 503 "reason" "u") 1 (Limit 1))].

Lemma busy_run :
  download (sample_config 0 true) busy_env sample_kwdict 2 "u"%string
    (sample_handle "jpg" ∅) false
  = Some (Returned ExitRetries, part_enable (sample_handle "jpg" ∅), false,
          busy_trace).
Proof. vm_compute. reflexivity. Qed.

Lemma failure_is_announced_witness :
  exists t0 wn rest,
    busy_trace = t0 ++ EvWarning wn :: rest /\
    cause ExitRetries wn = true /\
    Forall (fun ev => ev = EvClearTemppath \/ exists p, ev = EvRemoveFile p) rest.
Proof.
  apply (failure_is_announced (sample_config 0 true) busy_env sample_kwdict
           2 "u"%string (sample_handle "jpg" ∅)
           (part_enable (sample_handle "jpg" ∅)) false false ExitRetries).
  - vm_compute. reflexivity.
  - left. reflexivity.
  - discriminate.
Defined.

(** C9, as stated, fails.  The stop flag is found set after the second
    chunk is written: [StopExtraction] is caught, the response is closed and
    [download] returns [False] without a single warning. *)
Lemma stop_extraction_is_silent :
  exists w t,
    download (sample_config 0 true)
      (sample_env (fun _ =>
         Answer (sample_response 200 no_headers
                   [Chunk 0 (lit "abc") None; Chunk 1 (lit "def") (Some SigStop)])))
      sample_kwdict 1 "u"%string (sample_handle "jpg" ∅) false
    = Some (Returned ExitStop, w, true, t) /\
    outcome ExitStop = Failed /\
    Forall (fun ev => forall wn, ev <> EvWarning wn) t.
Proof.
  eexists. eexists. split; [vm_compute; reflexivity|]. split; [reflexivity|].
  repeat first [apply List.Forall_nil|apply List.Forall_cons; [discriminate|]].
Qed.



(** A task with a minimum size of a hundred bytes. *)
Definition limited_config : config :=
  {| adjust_extension := true; metadata := None; progress := Some 3%Q;
     validate := true; validate_html := true; minsize := Some 100;
     maxsize := None; retries := Limit 0; retry_codes := []; mtime := true;
     rate := None; interval_429 := None; part := true |}.

Lemma size_limits_witness :
  let cfg := limited_config in
  let E := busy_env in
  let s := init cfg "u"%string (sample_handle "jpg" ∅) false in
  (truthy (minsize cfg) && (10 <? default 0 (minsize cfg)) = true ->
     outcome ExitTooSmall = Skipped /\
     check_size cfg E (Some "10"%string) s
     = (Return ExitTooSmall, set_world (set_temppath EmptyString (world s)) s,
        [EvRelease; EvWarning (WTooSmall 10 (default 0 (minsize cfg)));
         EvClearTemppath])) /\
  (truthy (minsize cfg) && (10 <? default 0 (minsize cfg)) = false ->
   truthy (maxsize cfg) && (default 0 (maxsize cfg) <? 10) = true ->
     outcome ExitTooLarge = Skipped /\
     check_size cfg E (Some "10"%string) s
     = (Return ExitTooLarge, set_world (set_temppath EmptyString (world s)) s,
        [EvRelease; EvWarning (WTooLarge 10 (default 0 (maxsize cfg)));
         EvClearTemppath])) /\
  (forall file_size r (s0 : @state handle) fl s' t,
     declared_size sample_kwdict r = Some "10"%string ->
     within cfg (Some 10) = true ->
     handle_answer cfg E sample_kwdict file_size r s0 = (fl, s', t) ->
     forall e, fl = Return e -> outcome e <> Skipped).
Proof.
  apply (size_limits limited_config busy_env sample_kwdict (Some "10"%string) 10
           (init limited_config "u"%string (sample_handle "jpg" ∅) false)).
  reflexivity.
Defined.

(** C2, as stated, fails.  A partial file of three bytes is on disk, the
    server answers the range request with a partial content whose total is
    ten bytes, and the minimum is a hundred: the download is skipped and the
    temporary path is cleared, but the partial file is still there. *)
Lemma skipped_download_keeps_partial_file :
  exists w t,
    download limited_config
      (sample_env (fun _ =>
         Answer (sample_response 206
                   {| content_type := None; content_length := Some "7"%string;
                      content_range := Some "bytes 3-9/10"%string;
                      last_modified := None |}
                   [Chunk 0 (lit "defghij") None])))
      sample_kwdict 1 "u"%string (sample_handle "jpg" partial_files) false
    = Some (Returned ExitTooSmall, w, false, t) /\
    outcome ExitTooSmall = Skipped /\
    temppath w = EmptyString /\
    files w !! "out/a.jpg.part"%string = Some (lit "abc").
Proof.
  eexists. eexists. split; [vm_compute; reflexivity|].
  repeat split; vm_compute; reflexivity.
Qed.

(** ** A partial file that cannot be resumed *)


Section Restart.

Context {P F : Type} `{PathFormat P F}.
Variables (cfg : config) (E : env) (kw : kwdict).





End Restart.


(** With the reference path handle: the three bytes of the partial file are
    gone, the file holds the new body. *)
Example partial_file_is_overwritten_on_disk :
  exists w t,
    download (sample_config 0 true)
      (sample_env (fun _ =>
         Answer (sample_response 200 no_headers [Chunk 0 (lit "xyz") None])))
      sample_kwdict 1 "u"%string (sample_handle "jpg" partial_files) false
    = Some (Returned ExitDone, w, false, t) /\
    files w !! "out/a.jpg.part"%string = Some (lit "xyz").
Proof. eexists. eexists. split; vm_compute; reflexivity. Qed.

(** ** The retry budget *)

Lemma schedule_app (t1 t2 : list event) :
  schedule (t1 ++ t2) = schedule t1 ++ schedule t2.
Proof.
  induction t1 as [|ev t1 IH]; [reflexivity|].
  destruct ev; simpl; rewrite IH; reflexivity.
Qed.

(** The number of requests of a run. *)
Definition attempts (t : list event) : nat :=
  length (List.filter
            (fun k => match k with TRequest _ => true | TSleep _ => false end)
            (schedule t)).

Lemma attempts_of_schedule (u : string) (sleep : nat -> Q) (l : list nat)
    (t : list event) :
  schedule t = TRequest u :: flat_map (fun n => [TSleep (sleep n); TRequest u]) l ->
  attempts t = S (length l).
Proof.
  unfold attempts. intros ->. simpl. f_equal.
  induction l as [|n l IH]; simpl; [reflexivity|]. rewrite IH. reflexivity.
Qed.

Section Budget.

Context {P F : Type} `{PathFormat P F}.
Variables (cfg : config) (E : env) (kw : kwdict).

(** A status that is tried again whatever the response says: it is neither
    200 nor expected, not 206, not a 416 that answers a range request, and
    it is one of the retry codes or a 5xx. *)
Definition retryable_status (file_size : N) (c : Z) : bool :=
  negb ((c =? 200) || code_in c (_http_expected_status kw))
  && negb (c =? 206)
  && negb ((c =? 416) && negb (file_size =? 0)%N)
  && (code_in c (retry_codes cfg) || ((500 <=? c) && (c <? 600))).

(** The status of the answer to each request, by the number of requests
    made before it. *)
Variable status_at : nat -> Z.
Hypothesis answers :
  forall rq, exists a,
    server E rq = Answer a /\ status_code a = status_at (rq_index rq).

Lemma exchange_busy (s : @state P) :
  retryable_status (part_size (world s)) (status_at (issued s)) = true ->
  exists s' t,
    exchange cfg E kw s = (Continue, s', EvRequest (next_request s) :: t) /\
    schedule t = [] /\
    tries s' = S (tries s) /\ issued s' = S (issued s) /\
    code s' = status_at (issued s) /\ world s' = world s /\ url s' = url s.
Proof.
  intros Hre. destruct (answers (next_request s)) as (a & Ha & Hc).
  simpl in Hc.
  rewrite (exchange_answer cfg E kw s a Ha). unfold handle_answer.
  unfold retryable_status in Hre.
  apply andb_prop in Hre as [Hre Hretry]. apply andb_prop in Hre as [Hre H416].
  apply andb_prop in Hre as [H200 H206].
  apply negb_true_iff in H200, H206, H416.
  unfold check_response, bind, modify. simpl. rewrite Hc, H200, H206, H416.
  unfold reject_status, wants_retry, bind, modify, gets, warn, emit, leave, pure.
  simpl. rewrite Hc, Hretry. simpl.
  destruct (detect_challenge E a); simpl; eexists; eexists;
    (split; [reflexivity|]); simpl; auto 10.
Qed.

Lemma retry_wait_busy (s : @state P) (n : nat) :
  tries s = S n ->
  exists s' t,
    retry_wait cfg s
    = (if exceeds (S n) (retries cfg) then Return ExitRetries else Next tt, s', t) /\
    schedule t = (if exceeds (S n) (retries cfg) then []
                  else [TSleep (backoff cfg (code s) (S n))]) /\
    tries s' = S n /\ issued s' = issued s /\ world s' = world s /\
    url s' = url s.
Proof.
  intros Ht. unfold retry_wait.
  cbv [bind pure emit gets modify leave when call warn release_conn].
  rewrite Ht.
  destruct (resp s) as [r'|]; [destruct (response_ok r')|];
    destruct (exceeds (S n) (retries cfg)); simpl;
    eexists; eexists; (split; [reflexivity|]); simpl; auto 10.
Qed.




End Budget.


(** The schedule of that run: three requests, after no sleep, one second
    and two seconds. *)
Example retry_budget_of_two :
  exists s t,
    _download_impl (sample_config 2 true) busy_env sample_kwdict 4 "u"%string
      (sample_handle "jpg" ∅) false = Some (Returned ExitRetries, s, t) /\
    schedule t = [TRequest "u"; TSleep 1; TRequest "u"; TSleep 2; TRequest "u"].
Proof. eexists. eexists. split; vm_compute; reflexivity. Qed.


(** * Further properties of the downloader *)

(** ** The signature table as a dictionary *)

(** The keys are distinct: the association list is the [dict] of the source. *)
Lemma signature_keys_distinct : List.NoDup (map fst SIGNATURE_CHECKS).
Proof.
  rewrite signature_order.
  repeat (apply List.NoDup_cons;
          [simpl; intros Hin;
           repeat (destruct Hin as [Hin|Hin]; [discriminate Hin|]); exact Hin|]).
  apply List.NoDup_nil.
Qed.

(** What a scan finds is the entry that a lookup of its key gives. *)
Lemma scan_signatures_lookup (tbl : list (string * check)) (h : bytes) (e : string) :
  List.NoDup (map fst tbl) ->
  scan_signatures tbl h = ScanFound e ->
  exists chk, sig_lookup tbl e = Some chk /\ chk h = Some true.
Proof.
  induction tbl as [|[e' c] tbl IH]; simpl; [discriminate|].
  intros Hnd Hscan. apply List.NoDup_cons_iff in Hnd as [Hnotin Hnd].
  destruct (c h) as [[|]|] eqn:Hc; try discriminate.
  - injection Hscan as <-. rewrite String.eqb_refl. eauto.
  - destruct (IH Hnd Hscan) as (chk & Hl & Hchk).
    destruct (String.eqb e' e) eqn:Heq; [|eauto].
    apply String.eqb_eq in Heq. subst e'. exfalso. apply Hnotin.
    clear -Hl. induction tbl as [|[e2 c2] tbl IH]; simpl in *; [discriminate|].
    destruct (String.eqb e2 e) eqn:Heq; [left; apply String.eqb_eq, Heq|].
    right. apply IH, Hl.
Qed.

Lemma sig_lookup_key (tbl : list (string * check)) (e : string) (chk : check) :
  sig_lookup tbl e = Some chk -> In e (map fst tbl).
Proof.
  induction tbl as [|[e' c] tbl IH]; simpl; [discriminate|].
  destruct (String.eqb e' e) eqn:Heq; [left; apply String.eqb_eq, Heq|].
  intros Hl. right. apply IH, Hl.
Qed.

Lemma scan_signatures_app (tbl1 tbl2 : list (string * check)) (h : bytes)
    (e : string) :
  scan_signatures (tbl1 ++ tbl2) h = ScanFound e ->
  scan_signatures tbl1 h = ScanFound e \/
  Forall (fun ec => snd ec h = Some false) tbl1 /\
  scan_signatures tbl2 h = ScanFound e.
Proof.
  induction tbl1 as [|[e' c] tbl1 IH]; simpl.
  - intros Hs. right. split; [constructor|exact Hs].
  - destruct (c h) as [[|]|] eqn:Hc; try discriminate; [auto|].
    intros Hs. destruct (IH Hs) as [Hl|[Hf Hr]]; [auto|].
    right. split; [constructor; assumption|exact Hr].
Qed.

Section Adjust.

Context {P F : Type} `{PathFormat P F}.

(** X1.  [_adjust_extension] changes the path handle only when it answers
    [True]: then the predicate of the old extension fails on the header,
    the new extension is another key of the table whose predicate holds on
    the header, and the handle gets that extension and a rebuilt path.  In
    every other case (the answer [False], or an exception) the handle is
    left as it was and nothing is called on it. *)
Theorem adjust_extension_effect (h : bytes) (s s' : @state P) (r : flow bool)
    (t : list event) :
  _adjust_extension h s = (r, s', t) ->
  (r = Next true ->
     exists e old new,
       sig_lookup SIGNATURE_CHECKS (extension (world s)) = Some old /\
       old h = Some false /\
       sig_lookup SIGNATURE_CHECKS e = Some new /\ new h = Some true /\
       e <> extension (world s) /\
       s' = set_world (build_path (set_extension e (world s))) s /\
       t = [EvSetExtension e; EvBuildPath]) /\
  (r <> Next true -> s' = s /\ t = []).
Proof.
  cbv [_adjust_extension bind gets leave pure call emit modify].
  destruct (sig_lookup SIGNATURE_CHECKS (extension (world s))) as [old|] eqn:Hold;
    [|intros [= <- <- <-]; split; [discriminate|auto]].
  destruct (old h) as [[|]|] eqn:Hh;
    try (intros [= <- <- <-]; split; [discriminate|auto]; fail).
  destruct (scan_signatures SIGNATURE_CHECKS h) as [e| |] eqn:Hscan;
    try (intros [= <- <- <-]; split; [discriminate|auto]; fail).
  intros [= <- <- <-]. split; [intros _|intros Hne; exfalso; apply Hne; reflexivity].
  destruct (scan_signatures_lookup _ _ _ signature_keys_distinct Hscan)
    as (new & Hnew & Hnh).
  exists e, old, new. repeat split; try assumption.
  intros ->. congruence.
Qed.

(** X2.  Adjusting twice is adjusting once: on a path handle that reports
    the extension it was given, a second call with the same header after a
    call that answered [True] answers [False] and does nothing. *)
Theorem adjust_extension_idempotent (h : bytes) (s s' : @state P)
    (t : list event) :
  (forall e p, extension (build_path (set_extension e p)) = e) ->
  _adjust_extension h s = (Next true, s', t) ->
  _adjust_extension h s' = (Next false, s', []).
Proof.
  intros Hlaw Hrun.
  destruct (adjust_extension_effect h s s' _ t Hrun) as [Hyes _].
  destruct (Hyes eq_refl) as (e & old & new & _ & _ & Hnew & Hnh & _ & -> & _).
  cbv [_adjust_extension bind gets pure]. cbn [world set_world].
  rewrite Hlaw, Hnew, Hnh. reflexivity.
Qed.

(** X3.  A scan never adopts [htm], whose predicate is the one of [html]
    that is tried before it, nor [bin], whose predicate never holds: no
    call of [_adjust_extension] sets one of these two extensions. *)
Theorem adjust_extension_never_htm_or_bin (h : bytes) (s s' : @state P)
    (r : flow bool) (t : list event) (e : string) :
  _adjust_extension h s = (r, s', t) ->
  In (EvSetExtension e) t ->
  e <> "htm"%string /\ e <> "bin"%string.
Proof.
  intros Hrun Hin.
  assert (Hscan : scan_signatures SIGNATURE_CHECKS h = ScanFound e).
  { revert Hrun. cbv [_adjust_extension bind gets leave pure call emit modify].
    destruct (sig_lookup SIGNATURE_CHECKS (extension (world s)));
      [|intros [= <- <- <-]; destruct Hin].
    destruct (c h) as [[|]|]; try (intros [= <- <- <-]; destruct Hin; fail).
    destruct (scan_signatures SIGNATURE_CHECKS h) as [e'| |];
      try (intros [= <- <- <-]; destruct Hin; fail).
    intros [= <- <- <-]. destruct Hin as [[= ->]|[Hin|[]]]; [reflexivity|].
    discriminate Hin. }
  split; intros ->.
  - change SIGNATURE_CHECKS
      with (firstn 24 SIGNATURE_CHECKS ++ skipn 24 SIGNATURE_CHECKS) in Hscan.
    apply scan_signatures_app in Hscan as [Hfirst|[Hfalse Hlast]].
    + apply scan_signatures_found in Hfirst as (pre & chk & post & Heq & _ & _).
      apply (f_equal (map fst)) in Heq. rewrite map_app in Heq. simpl in Heq.
      assert (Hk : In "htm"%string (map fst pre ++ "htm"%string :: map fst post))
        by (apply in_or_app; right; left; reflexivity).
      rewrite <- Heq in Hk. simpl in Hk. repeat (destruct Hk as [Hk|Hk]; [discriminate Hk|]).
      exact Hk.
    + assert (Hhtml : _signature_html h = false).
      { rewrite List.Forall_forall in Hfalse.
        specialize (Hfalse ("html"%string, total _signature_html)).
        simpl in Hfalse. unfold total in Hfalse at 24.
        assert (Hs : Some (_signature_html h) = Some false)
          by (apply Hfalse; do 23 right; left; reflexivity).
        congruence. }
      revert Hlast. simpl. unfold total. rewrite Hhtml.
      repeat (match goal with |- context [if ?c then _ else _] => destruct c end);
        discriminate.
  - destruct (scan_signatures_lookup _ _ _ signature_keys_distinct Hscan)
      as (chk & Hl & Hchk).
    vm_compute in Hl. injection Hl as <-. discriminate Hchk.
Qed.

End Adjust.

Lemma adjust_extension_idempotent_witness :
  let h := [x89; x50; x4e; x47; x0d; x0a; x1a; x0a] in
  let s := init (sample_config 0 true) "u"%string (sample_handle "jpg" ∅) false in
  let s' := set_world (build_path (set_extension "png"%string (world s))) s in
  _adjust_extension h s' = (Next false, s', []).
Proof.
  apply (adjust_extension_idempotent
           [x89; x50; x4e; x47; x0d; x0a; x1a; x0a]
           (init (sample_config 0 true) "u"%string (sample_handle "jpg" ∅) false)
           _ [EvSetExtension "png"; EvBuildPath]).
  - intros e p. reflexivity.
  - reflexivity.
Defined.

(** ** The HTML signature *)

Lemma lstrip_spaces (ws s : bytes) :
  forallb byte_is_space ws = true -> lstrip (ws ++ s) = lstrip s.
Proof.
  induction ws as [|c ws IH]; simpl; [reflexivity|].
  intros Hc. apply andb_prop in Hc as [-> Hws]. apply IH, Hws.
Qed.

Lemma startswith_firstn (k : nat) (l : bytes) : startswith l (firstn k l) = true.
Proof.
  revert l. induction k as [|k IH]; intros [|c l]; simpl; try reflexivity.
  rewrite (Byte.byte_dec_lb eq_refl). apply IH.
Qed.

Lemma byte_lower_not_space (c : byte) :
  byte_lower c = x3c -> byte_is_space c = false.
Proof. destruct c; vm_compute; intros Hc; reflexivity || discriminate Hc. Qed.

(** X4.  [_signature_html] looks at the first fourteen bytes only, drops
    the white space they start with and compares without regard to case:
    a header made of white space followed by [<!doctype html], in any
    casing, is recognised exactly when the white space is shorter than
    fourteen bytes, whatever follows. *)
Theorem signature_html_leading_space (ws d rest : bytes) :
  forallb byte_is_space ws = true ->
  map byte_lower d = lit "<!doctype html" ->
  _signature_html (ws ++ d ++ rest) = (length ws <? 14)%nat.
Proof.
  intros Hws Hd. unfold _signature_html.
  assert (Hlen : length d = 14%nat)
    by (rewrite <- (length_map byte_lower), Hd; reflexivity).
  rewrite List.firstn_app.
  destruct (length ws <? 14)%nat eqn:Hlt.
  - apply Nat.ltb_lt in Hlt.
    rewrite (List.firstn_all2 (n:=14%nat) ws) by lia.
    rewrite lstrip_spaces by exact Hws.
    rewrite List.firstn_app.
    replace (14 - length ws - length d)%nat with 0%nat by lia.
    cbn [firstn]. rewrite app_nil_r.
    destruct d as [|c d]; [discriminate Hlen|].
    destruct (14 - length ws)%nat as [|k] eqn:Hk; [lia|].
    assert (Hc : byte_is_space c = false).
    { apply byte_lower_not_space. injection Hd as Hc _. exact Hc. }
    cbn [firstn lstrip]. rewrite Hc. rewrite <- (List.firstn_cons k c d).
    rewrite <- List.firstn_map, Hd. apply startswith_firstn.
  - apply Nat.ltb_ge in Hlt.
    replace (14 - length ws)%nat with 0%nat by lia.
    cbn [firstn]. rewrite app_nil_r.
    assert (Hsp : forall l, forallb byte_is_space l = true -> lstrip l = []).
    { induction l as [|c l IH]; simpl; [reflexivity|].
      intros Hc. apply andb_prop in Hc as [-> Hl]. apply IH, Hl. }
    rewrite Hsp; [reflexivity|].
    clear -Hws. generalize 14%nat. induction ws as [|c ws IH]; intros [|n]; simpl;
      try reflexivity.
    simpl in Hws. apply andb_prop in Hws as [-> Hws]. apply IH, Hws.
Qed.

Lemma signature_html_leading_space_witness :
  _signature_html (lit "  " ++ lit "<!DOCTYPE Html" ++ lit "><html>")
  = (length (lit "  ") <? 14)%nat.
Proof.
  apply (signature_html_leading_space (lit "  ") (lit "<!DOCTYPE Html")
           (lit "><html>")); reflexivity.
Defined.

(** ** The two receivers *)

Lemma writes_of_app (t1 t2 : list event) :
  writes_of (t1 ++ t2) = writes_of t1 ++ writes_of t2.
Proof.
  induction t1 as [|ev t1 IH]; [reflexivity|].
  destruct ev; simpl; rewrite IH; reflexivity.
Qed.

Lemma writes_of_update progress total start n t0 t :
  writes_of (update_at progress total start n t0 t) = [].
Proof.
  unfold update_at. destruct progress as [p|]; [|reflexivity].
  destruct (Qltb p (t - t0)); reflexivity.
Qed.

Lemma writes_of_sleeps (t : list event) :
  Forall (fun ev => exists secs, ev = EvSleep secs) t -> writes_of t = [].
Proof. induction 1 as [|ev t [secs ->] _ IH]; [reflexivity|exact IH]. Qed.

(** X5.  Progress reports and throttling change nothing of what is
    received: with the interval and the rate that [__init__] admits (an
    interval that is not negative, a rate that is not zero), [_receive_rate]
    ends the way [receive] does on the same stream, leaves the same file
    object and has written the same chunks in the same order. *)
Theorem receivers_agree {P F : Type} `{PathFormat P F} (cfg : config)
    (rate : option Q) (fp : F) (content : list item) (bytes_total : option Z)
    (bytes_start : Z) (time_start : Q) :
  (forall p, progress cfg = Some p -> (0 <= p)%Q) ->
  (forall r, rate = Some r -> ~ (r == 0)%Q) ->
  fst (_receive_rate cfg rate fp content bytes_total bytes_start time_start)
  = fst (receive fp content) /\
  writes_of (snd (_receive_rate cfg rate fp content bytes_total bytes_start
                    time_start))
  = writes_of (snd (receive fp content)).
Proof.
  intros Hp Hr. unfold _receive_rate. generalize 0 as n. revert fp.
  induction content as [|[tm d [g|]|m] content IH]; intros fp n; simpl;
    try (split; reflexivity).
  rewrite (report_progress_defined (progress cfg) bytes_total bytes_start
             time_start Hp).
  destruct (throttle_defined rate Hr (n + byte_count d) (tm - time_start))
    as (t2 & -> & Ht2).
  specialize (IH (f_write d fp) (n + byte_count d)).
  destruct (receive_rate_loop _ _ _ _ _ _ (f_write d fp) content) as [[rv2 fp2] t3].
  destruct (receive (f_write d fp) content) as [[rv1 fp1] t1].
  simpl in *. destruct IH as [Hfst Hw]. split; [exact Hfst|].
  rewrite !writes_of_app, writes_of_update, (writes_of_sleeps _ Ht2), Hw.
  reflexivity.
Qed.

Lemma receivers_agree_witness :
  let content := [Chunk 1 (lit "ab") None; Chunk 5 (lit "cd") None;
                  ReadError "reset"] in
  fst (_receive_rate (sample_config 0 true) (Some 2%Q) sample_file content
         (Some 9) 0 0)
  = fst (receive sample_file content) /\
  writes_of (snd (_receive_rate (sample_config 0 true) (Some 2%Q) sample_file
                    content (Some 9) 0 0))
  = writes_of (snd (receive sample_file content)).
Proof.
  apply (receivers_agree (sample_config 0 true) (Some 2%Q) sample_file
           [Chunk 1 (lit "ab") None; Chunk 5 (lit "cd") None; ReadError "reset"]
           (Some 9) 0 0).
  - intros p [= <-]. discriminate.
  - intros r [= <-] Hz. discriminate Hz.
Defined.

(** ** Other ways through the loop *)

Section Loop.

Context {P F : Type} `{PathFormat P F}.
Variables (cfg : config) (E : env) (kw : kwdict).

(** The path handle when the loop starts (lines 117-118). *)
Definition started (w : P) : P :=
  if part cfg && negb (truthy_key (metadata cfg)) then part_enable w else w.

Definition started_trace : list event :=
  if part cfg && negb (truthy_key (metadata cfg)) then [EvPartEnable] else [].

Lemma prologue_run (u : string) (w : P) (d : bool) :
  prologue cfg (init cfg u w d)
  = (Next tt, set_world (started w) (init cfg u w d), started_trace).
Proof.
  unfold prologue, when, started, started_trace.
  destruct (part cfg && negb (truthy_key (metadata cfg))); reflexivity.
Qed.


Lemma retry_wait_unbounded (s : @state P) :
  retries cfg = Unbounded ->
  exists s1 t1,
    retry_wait cfg s = (Next tt, s1, t1) /\
    world s1 = world s /\ url s1 = url s /\ issued s1 = issued s.
Proof.
  intros Hr. unfold retry_wait.
  cbv [bind pure emit gets modify leave when call warn release_conn].
  rewrite Hr. destruct (tries s) as [|n]; [eauto 10|].
  destruct (resp s) as [r'|]; [destruct (response_ok r')|]; simpl; eauto 10.
Qed.



Section Busy.

Variable status_at : nat -> Z.
Hypothesis answers :
  forall rq, exists a,
    server E rq = Answer a /\ status_code a = status_at (rq_index rq).

(** X7.  Without a retry limit, against a server that answers every
    request with a retryable status, the loop never ends: no number of
    passes brings [_download_impl] to a result. *)
Theorem unbounded_retries_never_return (u : string) (w : P) (d : bool) :
  retries cfg = Unbounded ->
  (forall i, retryable_status cfg kw (part_size (started w)) (status_at i) = true) ->
  forall fuel, _download_impl cfg E kw fuel u w d = None.
Proof.
  intros Hr Hre fuel. unfold _download_impl. rewrite prologue_run.
  assert (Hloop : forall s, world s = started w -> loop cfg E kw fuel s = None).
  { induction fuel as [|fuel IH]; intros s Hw; simpl; [reflexivity|].
    unfold attempt. destruct (retry_wait_unbounded s Hr)
      as (s0 & t0 & Hrw & Hw0 & _).
    rewrite (bind_next _ _ _ _ _ _ Hrw).
    destruct (exchange_busy cfg E kw status_at answers s0)
      as (s1 & t1 & -> & _ & _ & _ & _ & Hw1 & _).
    { rewrite Hw0, Hw. apply Hre. }
    rewrite IH by congruence. reflexivity. }
  rewrite Hloop; reflexivity.
Qed.

End Busy.

(** The server is never reached. *)
Definition unreachable (rq : request) : Prop :=
  exists m, server E rq = ConnectionError m \/ server E rq = Timeout m.

Lemma exchange_unreachable (s : @state P) :
  unreachable (next_request s) ->
  exists s',
    exchange cfg E kw s = (Continue, s', [EvRequest (next_request s)]) /\
    tries s' = S (tries s) /\ code s' = code s /\ url s' = url s.
Proof.
  intros (m & Hm). unfold exchange, send_request.
  cbv [bind pure emit gets modify leave].
  change (next_request (set_tries (S (tries s)) s)) with (next_request s).
  destruct Hm as [-> | ->]; eexists; (split; [reflexivity|]); simpl; auto.
Qed.

Lemma loop_unreachable (r : nat) (u : string) :
  retries cfg = Limit r ->
  (forall rq, unreachable rq) ->
  forall (k n fuel : nat) (s : @state P),
    tries s = S n -> code s = 0 -> url s = u ->
    (S n + k = r + 1)%nat -> (k < fuel)%nat ->
    exists s' t,
      loop cfg E kw fuel s = Some (Returns ExitRetries, s', t) /\
      schedule t
      = flat_map (fun i => [TSleep (inject_Z (Z.of_nat i)); TRequest u])
          (seq (S n) k).
Proof.
  intros Hr Hun. induction k as [|k IH]; intros n fuel s Ht Hc Hu Hsum Hfuel;
    (destruct fuel as [|fuel]; [lia|]); simpl; unfold attempt;
    destruct (retry_wait_busy cfg s n Ht)
      as (s1 & t1 & Hrw & Hs1 & Ht1 & Hi1 & Hw1 & Hu1);
    rewrite Hr in Hrw, Hs1; simpl in Hrw, Hs1.
  - assert (Hex : (r <? S n)%nat = true) by (apply Nat.ltb_lt; lia).
    rewrite Hex in Hrw, Hs1. unfold bind at 1. rewrite Hrw.
    eexists. eexists. split; [reflexivity|exact Hs1].
  - assert (Hex : (r <? S n)%nat = false) by (apply Nat.ltb_ge; lia).
    rewrite Hex in Hrw, Hs1. rewrite (bind_next _ _ _ _ _ _ Hrw).
    assert (Hc1 : code s1 = 0).
    { revert Hrw. unfold retry_wait.
      cbv [bind pure emit gets modify leave when call warn release_conn].
      rewrite Ht, Hr. simpl. rewrite Hex.
      destruct (resp s) as [r'|]; [destruct (response_ok r')|];
        intros [= <- _]; reflexivity. }
    destruct (exchange_unreachable s1 (Hun _)) as (s2 & Hex2 & Ht2 & Hc2 & Hu2).
    rewrite Hex2.
    destruct (IH (S n) fuel s2) as (s3 & t3 & Hloop & Hs3); try lia;
      try congruence.
    rewrite Hloop. eexists. eexists. split; [reflexivity|].
    rewrite !schedule_app, Hs1, Hs3. simpl.
    unfold next_request. simpl. rewrite Hu1, Hu.
    unfold backoff. rewrite Hc. destruct (interval_429 cfg); reflexivity.
Qed.

(** X8.  Connection errors and timeouts use the same budget as retryable
    statuses: with a retry limit [r], against a server that is never
    reached, [_download_impl] makes exactly [r + 1] requests and returns
    [False]; the sleep before request [n + 1] lasts [n] seconds whether or
    not a backoff for 429 is configured, since no status was received. *)
Theorem transport_errors_budget (r : nat) (u : string) (w : P) (d : bool)
    (fuel : nat) :
  retries cfg = Limit r ->
  (forall rq, unreachable rq) ->
  (r + 2 <= fuel)%nat ->
  exists s t,
    _download_impl cfg E kw fuel u w d = Some (Returned ExitRetries, s, t) /\
    attempts t = (r + 1)%nat /\
    schedule t
    = TRequest u
      :: flat_map (fun n => [TSleep (inject_Z (Z.of_nat n)); TRequest u]) (seq 1 r).
Proof.
  intros Hr Hun Hfuel. unfold _download_impl. rewrite prologue_run.
  destruct fuel as [|fuel]; [lia|]. simpl. unfold attempt.
  rewrite (bind_next _ _ _ tt (set_world (started w) (init cfg u w d)) [])
    by reflexivity.
  destruct (exchange_unreachable (set_world (started w) (init cfg u w d)) (Hun _))
    as (s2 & -> & Ht2 & Hc2 & Hu2).
  destruct (loop_unreachable r u Hr Hun r 0 fuel s2) as (s3 & t3 & -> & Hs3);
    try assumption; try lia.
  exists s3. eexists. split; [reflexivity|].
  match goal with
  | |- attempts ?T = _ /\ _ =>
      assert (Hsched : schedule T
                = TRequest u
                  :: flat_map (fun n => [TSleep (inject_Z (Z.of_nat n)); TRequest u])
                       (seq 1 r))
  end.
  { rewrite !schedule_app. simpl. rewrite Hs3.
    unfold started_trace. destruct (part cfg && _); reflexivity. }
  split; [|exact Hsched].
  rewrite (attempts_of_schedule _ _ _ _ Hsched), length_seq. lia.
Qed.

End Loop.

Section AtOnce.

Context {P F : Type} `{PathFormat P F}.
Variables (cfg : config) (E : env) (kw : kwdict).

(** X9.  An exception of the session that is neither a connection error
    nor a timeout is not retried: whatever the retry limit, the first pass
    logs it as a warning and [_download_impl] returns [False] after that
    single request, without a sleep. *)
Theorem unexpected_exception_fails_at_once (fuel : nat) (u : string) (w : P)
    (d : bool) (m : string) :
  let s0 := set_world (started cfg w) (init cfg u w d) in
  server E (next_request s0) = OtherException m ->
  exists s,
    _download_impl cfg E kw (S fuel) u w d
    = Some (Returned ExitTransport, s,
            started_trace cfg
            ++ [EvRequest (next_request s0); EvWarning (WException m)]).
Proof.
  intros s0 Hm. unfold _download_impl. rewrite prologue_run. fold s0.
  simpl. unfold attempt.
  rewrite (bind_next _ _ _ tt s0 []) by reflexivity.
  unfold exchange, send_request.
  cbv [bind pure emit gets modify leave warn].
  change (next_request (set_tries (S (tries s0)) s0)) with (next_request s0).
  rewrite Hm. eexists. reflexivity.
Qed.

(** A status that [_download_impl] goes on with: 200 or an expected one,
    206, or the 416 that answers a range request. *)
Definition accepted (file_size : N) (c : Z) : bool :=
  (c =? 200) || code_in c (_http_expected_status kw) || (c =? 206)
  || ((c =? 416) && negb (file_size =? 0)%N).

(** X10.  A status that is neither accepted nor to be retried (not a retry
    code, not a 5xx, not taken by the retry predicate of the task) ends the
    download at once, whatever the retry limit: one request, the warning of
    a detected challenge if there is one, the release of the connection, a
    warning with the status, and the result [False]; nothing is slept. *)
Theorem refused_status_fails_at_once (fuel : nat) (u : string) (w : P)
    (d : bool) (a : response) :
  let s0 := set_world (started cfg w) (init cfg u w d) in
  server E (next_request s0) = Answer a ->
  accepted (part_size (started cfg w)) (status_code a) = false ->
  wants_retry cfg kw a = false ->
  exists s,
    _download_impl cfg E kw (S fuel) u w d
    = Some (Returned ExitStatus, s,
            started_trace cfg
            ++ EvRequest (next_request s0)
               :: match detect_challenge E a with
                  | Some text => [EvWarning (WChallenge text)]
                  | None => []
                  end
               ++ [EvRelease;
                   EvWarning (WStatus (MsgStatus (status_code a) (reason a) u))]).
Proof.
  intros s0 Ha Hacc Hretry. unfold _download_impl. rewrite prologue_run. fold s0.
  simpl. unfold attempt.
  rewrite (bind_next _ _ _ tt s0 []) by reflexivity.
  rewrite (exchange_answer cfg E kw s0 a Ha). unfold handle_answer.
  unfold accepted in Hacc.
  apply orb_false_elim in Hacc as [Hacc H416].
  apply orb_false_elim in Hacc as [H200 H206].
  unfold check_response, bind, modify. simpl. rewrite H200, H206.
  change (part_size (world s0)) with (part_size (started cfg w)). rewrite H416.
  unfold reject_status, bind, modify, gets, warn, emit, leave, release_conn, pure.
  simpl. rewrite Hretry.
  destruct (detect_challenge E a); simpl; eexists; reflexivity.
Qed.

End AtOnce.

(** *** Sample runs *)

(** A task without a retry limit. *)
Definition tireless_config : config :=
  {| adjust_extension := true; metadata := None; progress := Some 3%Q;
     validate := true; validate_html := true; minsize := None;
     maxsize := None; retries := Unbounded; retry_codes := []; mtime := true;
     rate := None; interval_429 := None; part := true |}.

Definition refusing_env : env :=
  sample_env (fun _ => ConnectionError "Connection refused").


Lemma unbounded_retries_never_return_witness :
  _download_impl tireless_config busy_env sample_kwdict 1000 "u"%string
    (sample_handle "jpg" ∅) false = None.
Proof.
  refine (unbounded_retries_never_return tireless_config busy_env sample_kwdict
            (fun _ => 503)
            (fun rq => ex_intro _ (sample_response 503 no_headers [])
                         (conj eq_refl eq_refl))
            "u"%string (sample_handle "jpg" ∅) false _ _ 1000%nat).
  - reflexivity.
  - intros i. reflexivity.
Defined.

Lemma transport_errors_budget_witness :
  exists s t,
    _download_impl (sample_config 2 true) refusing_env sample_kwdict 4
      "u"%string (sample_handle "jpg" ∅) false
    = Some (Returned ExitRetries, s, t) /\
    attempts t = (2 + 1)%nat /\
    schedule t
    = TRequest "u"
      :: flat_map (fun n => [TSleep (inject_Z (Z.of_nat n)); TRequest "u"])
           (seq 1 2).
Proof.
  apply (transport_errors_budget (sample_config 2 true) refusing_env
           sample_kwdict 2 "u"%string (sample_handle "jpg" ∅) false 4).
  - reflexivity.
  - intros rq. exists "Connection refused"%string. left. reflexivity.
  - lia.
Defined.

Lemma unexpected_exception_fails_at_once_witness :
  let cfg := sample_config 5 true in
  let E := sample_env (fun _ => OtherException "Invalid URL") in
  let s0 := set_world (started cfg (sample_handle "jpg" ∅))
              (init cfg "u"%string (sample_handle "jpg" ∅) false) in
  exists s,
    _download_impl cfg E sample_kwdict 1 "u"%string (sample_handle "jpg" ∅) false
    = Some (Returned ExitTransport, s,
            started_trace cfg
            ++ [EvRequest (next_request s0);
                EvWarning (WException "Invalid URL")]).
Proof.
  apply (unexpected_exception_fails_at_once (sample_config 5 true)
           (sample_env (fun _ => OtherException "Invalid URL")) sample_kwdict
           0 "u"%string (sample_handle "jpg" ∅) false "Invalid URL"%string).
  reflexivity.
Defined.

Lemma refused_status_fails_at_once_witness :
  let cfg := sample_config 5 true in
  let a := sample_response 404 no_headers [] in
  let E := sample_env (fun _ => Answer a) in
  let s0 := set_world (started cfg (sample_handle "jpg" ∅))
              (init cfg "u"%string (sample_handle "jpg" ∅) false) in
  exists s,
    _download_impl cfg E sample_kwdict 1 "u"%string (sample_handle "jpg" ∅) false
    = Some (Returned ExitStatus, s,
            started_trace cfg
            ++ EvRequest (next_request s0)
               :: match detect_challenge E a with
                  | Some text => [EvWarning (WChallenge text)]
                  | None => []
                  end
               ++ [EvRelease;
                   EvWarning (WStatus (MsgStatus (status_code a) (reason a) "u"))]).
Proof.
  apply (refused_status_fails_at_once (sample_config 5 true)
           (sample_env (fun _ => Answer (sample_response 404 no_headers [])))
           sample_kwdict 0 "u"%string (sample_handle "jpg" ∅) false
           (sample_response 404 no_headers [])); reflexivity.
Defined.

(** ** The attributes that [__init__] leaves *)

Lemma init_attributes (h : helpers) (o : options) :
  progress (attributes (__init__ h o)) = init_progress (o_progress o) /\
  minsize (attributes (__init__ h o))
  = fst (init_size h (o_filesize_min o) InvalidMinimum) /\
  maxsize (attributes (__init__ h o))
  = fst (init_size h (o_filesize_max o) InvalidMaximum).
Proof.
  unfold __init__.
  destruct (init_size h (o_filesize_min o) _) as [mn l1].
  destruct (init_size h (o_filesize_max o) _) as [mx l2].
  destruct (init_chunk_size h _) as [ch l3].
  destruct (init_rate h _ ch) as [[rt ch'] l4]. auto.
Qed.

Lemma receive_never_divides {P F : Type} `{PathFormat P F} (fp : F)
    (content : list item) :
  fst (fst (receive fp content)) <> RecvZeroDivision.
Proof.
  revert fp. induction content as [|[tm d [[]|]|m] content IH]; intros fp; simpl;
    try discriminate.
  specialize (IH (f_write d fp)).
  destruct (receive (f_write d fp) content) as [[rv fp'] t]. exact IH.
Qed.

(** X11.  [__init__] raises a negative progress interval to zero, and with
    the interval it leaves the progress report of [_receive_rate] never
    divides by an elapsed time of zero: whatever the interval of the
    configuration, the stream and the clock, a download whose rate is not
    zero does not end in [ZeroDivisionError]. *)
Theorem init_progress_never_divides {P F : Type} `{PathFormat P F}
    (h : helpers) (o : options) (rate : option Q) (fp : F)
    (content : list item) (bytes_total : option Z) (bytes_start : Z)
    (time_start : Q) :
  (forall r, rate = Some r -> ~ (r == 0)%Q) ->
  (forall p, progress (attributes (__init__ h o)) = Some p -> (0 <= p)%Q) /\
  fst (fst (_receive_rate (attributes (__init__ h o)) rate fp content
              bytes_total bytes_start time_start)) <> RecvZeroDivision.
Proof.
  intros Hr.
  assert (Hp : forall p, progress (attributes (__init__ h o)) = Some p ->
                         (0 <= p)%Q).
  { intros p. destruct (init_attributes h o) as [-> _]. unfold init_progress.
    destruct (o_progress o) as [q|]; [|discriminate]. intros [= <-].
    destruct (Qltb q 0) eqn:Hq; [apply Qle_refl|].
    unfold Qltb in Hq. apply negb_false_iff, Qle_bool_iff in Hq. exact Hq. }
  split; [exact Hp|].
  destruct (receivers_agree (attributes (__init__ h o)) rate fp content
              bytes_total bytes_start time_start Hp Hr) as [Hfst _].
  rewrite Hfst. apply receive_never_divides.
Qed.



(** ** Partial content *)

(** The events of a pass that either ends before the file is opened or
    opens it for update ([r+b]) once, after the debug line that the
    download is resumed: whatever is written comes after one [seek] to
    [k], and between that [seek] and the end of the pass the file is not
    opened, read or positioned again. *)
Definition resumes (k : N) (t : list event) : Prop :=
  forallb quiet t = true \/
  exists t0 t1,
    t = t0 ++ EvDebug "Resuming download at byte" :: EvOpen RPlusB :: t1 /\
    forallb quiet t0 = true /\
    (writes_of t1 = [] \/
     exists t2 t3,
       t1 = t2 ++ EvSeek k :: t3 /\ writes_of t2 = [] /\
       forallb in_new_file t3 = true).

Lemma quiet_writes (t : list event) :
  forallb quiet t = true -> writes_of t = [].
Proof.
  induction t as [|ev t IH]; [reflexivity|]. simpl.
  intros [Hq Ht]%andb_prop. destruct ev; try discriminate; auto.
Qed.

Section Resume.

Context {P F : Type} `{PathFormat P F}.
Variables (cfg : config) (E : env) (kw : kwdict).

Lemma resumes_app (k : N) (t0 t : list event) :
  forallb quiet t0 = true -> resumes k t -> resumes k (t0 ++ t).
Proof.
  intros Hq [Ht|(t1 & t2 & -> & Hq1 & Hn)].
  - left. rewrite forallb_app, Hq, Ht. reflexivity.
  - right. exists (t0 ++ t1), t2. rewrite <- app_assoc, forallb_app, Hq, Hq1.
    auto.
Qed.

Lemma resumes_bind {A B} (k : N) X (m : @M P A) (f : A -> @M P B) :
  sat (inv quiet X) m ->
  (forall a s r s' t, f a s = (r, s', t) -> resumes k t) ->
  forall s r s' t, bind m f s = (r, s', t) -> resumes k t.
Proof.
  intros Hm Hf s r s' t Hrun.
  apply bind_inv in Hrun as [(a & s1 & t1 & t2 & Hm1 & Hf1 & ->)|(r0 & Hm1 & _)].
  - apply resumes_app; [apply (Hm _ _ _ _ Hm1)|apply (Hf _ _ _ _ _ Hf1)].
  - left. apply (Hm _ _ _ _ Hm1).
Qed.

(** Lines 278-282: there is no header probe when the download is resumed. *)
Lemma check_header_resumed (r : response) (offset : N) (s : @state P) :
  offset <> 0%N ->
  check_header cfg kw r offset s = (Next (None, content r), s, []).
Proof.
  intros Hoff. apply N.eqb_neq in Hoff. unfold check_header, bind, gets, pure.
  rewrite Hoff. reflexivity.
Qed.

(** Lines 318-328 on a resumed download: nothing is written before the
    [seek]. *)
Lemma transfer_resumed (r : response) (offset : N) (rest : list item)
    (size : option Z) (fp : F) (s : @state P) fl s' t :
  offset <> 0%N ->
  transfer cfg kw r offset None rest size fp s = (fl, s', t) ->
  writes_of t = [] \/
  exists t2 t3,
    t = t2 ++ EvSeek offset :: t3 /\ writes_of t2 = [] /\
    forallb in_new_file t3 = true.
Proof.
  intros Hoff Hrun. apply N.eqb_neq in Hoff. unfold transfer in Hrun.
  rewrite Hoff in Hrun.
  apply bind_inv in Hrun
    as [(fo & s1 & t1 & t2 & Hg & Hrecv & ->)|(r0 & Hg & Hr0)].
  - right.
    assert (Ht1 : exists t0, t1 = t0 ++ [EvSeek offset] /\ writes_of t0 = []).
    { revert Hg. unfold guard. cbv [bind gets emit pure].
      destruct (adjust cfg kw && in_signature_checks (extension (world s))).
      - destruct (_adjust_extension (f_read 16 fp) s) as [[ra sa] ta] eqn:Ha.
        pose proof (adjust_extension_quiet (f_read 16 fp) _ _ _ _ Ha)
          as (_ & Hq & _).
        destruct ra; try discriminate. intros [= _ _ <-].
        exists (EvRead 16 :: ta ++ []). split.
        + simpl. rewrite <- !app_assoc. reflexivity.
        + simpl. rewrite app_nil_r. apply quiet_writes, Hq.
      - intros [= _ _ <-]. exists []. auto. }
    destruct Ht1 as (t0 & -> & Hw). exists t0, t2.
    rewrite <- app_assoc. split; [reflexivity|]. split; [exact Hw|].
    apply (receive_into_inv cfg in_new_file r rest size fo (fun _ Hev => Hev)
             _ _ _ _ Hrecv).
  - left. revert Hg Hr0. unfold guard. cbv [bind gets emit pure].
    destruct (adjust cfg kw && in_signature_checks (extension (world s))).
    + destruct (_adjust_extension (f_read 16 fp) s) as [[ra sa] ta] eqn:Ha.
      pose proof (adjust_extension_quiet (f_read 16 fp) _ _ _ _ Ha)
        as (_ & Hq & _).
      destruct ra; intros [= <- _ <-]; try contradiction; intros _;
        simpl; rewrite !writes_of_app, (quiet_writes _ Hq); reflexivity.
    + intros [= <- _ _]. contradiction.
Qed.

Lemma stream_resumed (r : response) (file_size offset : N) (rest : list item)
    (size : option Z) (s : @state P) fl s' t :
  offset <> 0%N ->
  stream cfg kw r file_size offset None rest size s = (fl, s', t) ->
  resumes offset t.
Proof.
  intros Hoff. pose proof Hoff as Hne. apply N.eqb_neq in Hoff. unfold stream.
  rewrite Hoff.
  rewrite (bind_next _ _ s tt s [EvDebug "Resuming download at byte"])
    by reflexivity.
  rewrite (bind_next _ _ s (path_open RPlusB (world s)) (set_downloading true s)
             [EvOpen RPlusB]) by reflexivity.
  destruct (path_open RPlusB (world s)) as [fp|].
  - destruct (transfer cfg kw r offset None rest size fp _)
      as [[r1 s1] t1] eqn:Hrun.
    intros [= <- <- <-]. right. exists [], t1. split; [reflexivity|].
    split; [reflexivity|]. eapply transfer_resumed; eauto.
  - intros [= <- <- <-]. right. exists [], []. auto.
Qed.

(** X14.  A pass that finds a partial file of [k > 0] bytes and is answered
    with status 206 (not one of the expected-status set) and a
    [Content-Range] header resumes the download: the offset is [k] and the
    declared size is what follows the last slash of the header; the pass
    either ends in one of the tests that precede the file, without touching
    it, or opens the file for update ([r+b]) once, and whatever it writes
    comes after the [seek] to [k], so the body is appended to the [k]
    bytes. *)
Theorem partial_content_is_appended (s : @state P) (a : response) (k : N)
    (v : string) fl s' t :
  server E (next_request s) = Answer a ->
  part_size (world s) = k ->
  k <> 0%N ->
  status_code a = 206 ->
  code_in 206 (_http_expected_status kw) = false ->
  content_range (r_headers a) = Some v ->
  exchange cfg E kw s = (fl, s', t) ->
  rq_range (next_request s) = Some k /\
  check_response cfg E kw k a (sent s a)
  = (Next (k, Some (rpartition_tail "/"%char v)), set_code 206 (sent s a), []) /\
  exists t', t = EvRequest (next_request s) :: t' /\ resumes k t'.
Proof.
  intros Ha Hk Hne Hcode Hexp Hcr Hrun.
  assert (Hresp : check_response cfg E kw k a (sent s a)
                  = (Next (k, Some (rpartition_tail "/"%char v)),
                     set_code 206 (sent s a), [])).
  { unfold check_response, bind, modify, pure. rewrite Hcode, Hexp, Hcr.
    reflexivity. }
  split; [|split; [exact Hresp|]].
  - unfold next_request. rewrite Hk. apply N.eqb_neq in Hne. rewrite Hne.
    reflexivity.
  - rewrite (exchange_answer cfg E kw s a Ha), Hk in Hrun.
    destruct (handle_answer cfg E kw k a (sent s a)) as [[r1 s1] t1] eqn:Hans.
    injection Hrun as <- <- <-. exists t1. split; [reflexivity|].
    revert Hans. unfold handle_answer.
    rewrite (bind_next _ _ _ _ _ _ Hresp).
    destruct (bind (check_validate cfg kw a) _ _) as [[r2 s2] t2] eqn:Hrest.
    intros [= <- <- <-]. simpl. revert Hrest.
    apply (resumes_bind _ _ _ _ (check_validate_inv cfg kw a)). intros _.
    apply (resumes_bind _ _ _ _ (check_html_inv cfg a)). intros _.
    apply (resumes_bind _ _ _ _ (check_size_inv cfg E _)). intros size.
    apply (resumes_bind _ _ _ _ (prepare_path_inv cfg E a)). intros _.
    intros s3 r3 s4 t3.
    rewrite (bind_next _ _ _ _ _ _ (check_header_resumed a k s3 Hne)).
    destruct (stream cfg kw a k k None (content a) size s3)
      as [[r5 s5] t5] eqn:Hstream.
    intros [= <- <- <-]. simpl. eapply stream_resumed; eauto.
Qed.

(** X15.  A 206 answer that carries no [Content-Range] header is not
    handled: the lookup of line 186 raises [KeyError], which leaves
    [_download_impl] at once: the connection is not released, nothing is
    logged and no file is touched. *)
Theorem partial_content_without_range_raises (s : @state P) (a : response) :
  server E (next_request s) = Answer a ->
  status_code a = 206 ->
  code_in 206 (_http_expected_status kw) = false ->
  content_range (r_headers a) = None ->
  exchange cfg E kw s
  = (Raise KeyError, set_code 206 (sent s a), [EvRequest (next_request s)]).
Proof.
  intros Ha Hcode Hexp Hcr. rewrite (exchange_answer cfg E kw s a Ha).
  unfold handle_answer, check_response, bind, modify, leave.
  rewrite Hcode, Hexp, Hcr. reflexivity.
Qed.

End Resume.

(** ** Instances *)

Definition png_header : bytes := [x89; x50; x4e; x47; x0d; x0a; x1a; x0a].

Lemma adjust_extension_effect_witness :
  let s := init (sample_config 0 true) "u"%string (sample_handle "jpg" ∅) false in
  let s' := set_world (build_path (set_extension "png"%string (world s))) s in
  let t := [EvSetExtension "png"; EvBuildPath] in
  (@Next bool true = Next true ->
     exists e old new,
       sig_lookup SIGNATURE_CHECKS (extension (world s)) = Some old /\
       old png_header = Some false /\
       sig_lookup SIGNATURE_CHECKS e = Some new /\ new png_header = Some true /\
       e <> extension (world s) /\
       s' = set_world (build_path (set_extension e (world s))) s /\
       t = [EvSetExtension e; EvBuildPath]) /\
  (@Next bool true <> Next true -> s' = s /\ t = []).
Proof.
  apply (adjust_extension_effect png_header
           (init (sample_config 0 true) "u"%string (sample_handle "jpg" ∅) false)).
  reflexivity.
Defined.

Lemma adjust_extension_never_htm_or_bin_witness :
  "png"%string <> "htm"%string /\ "png"%string <> "bin"%string.
Proof.
  apply (adjust_extension_never_htm_or_bin png_header
           (init (sample_config 0 true) "u"%string (sample_handle "jpg" ∅) false)
           (set_world
              (build_path
                 (set_extension "png"%string (sample_handle "jpg" ∅)))
              (init (sample_config 0 true) "u"%string (sample_handle "jpg" ∅)
                 false))
           (Next true) [EvSetExtension "png"; EvBuildPath]).
  - reflexivity.
  - left. reflexivity.
Defined.

(** Helpers that read decimal digits only, and take a rate as a constant. *)
Definition sample_helpers : helpers :=
  {| parse_bytes := fun raw => default 0 (decimal 0 raw);
     build_selection_func := fun raw =>
       {| rate_value := fun _ => inject_Z (default 0 (decimal 0 raw));
          rate_max := default 0 (decimal 0 raw) |};
     build_duration_func := fun _ _ => 0%Q;
     extractor_interval_429 := None |}.

(** The defaults of [__init__], with the keys that it reads as strings. *)
Definition sample_options (chunk : Z + string) (progress : option Q)
    (smallest rate : option string) : options :=
  {| o_adjust_extensions := true; o_chunk_size := chunk;
     o_http_metadata := None; o_progress := progress; o_validate := true;
     o_validate_html := true; o_filesize_min := smallest;
     o_filesize_max := None; o_retries := 4; o_retry_codes := [];
     o_mtime := true; o_rate := rate; o_sleep_429 := None; o_part := true |}.

Lemma init_progress_never_divides_witness :
  let o := sample_options (inl 32768) (Some (-1)%Q) None None in
  let content := [Chunk 0 (lit "ab") None; Chunk 0 (lit "cd") None] in
  (forall p, progress (attributes (__init__ sample_helpers o)) = Some p ->
             (0 <= p)%Q) /\
  fst (fst (_receive_rate (attributes (__init__ sample_helpers o)) None
              sample_file content (Some 4) 0 0)) <> RecvZeroDivision.
Proof.
  apply (init_progress_never_divides sample_helpers
           (sample_options (inl 32768) (Some (-1)%Q) None None) None).
  intros r. discriminate.
Defined.



Definition answer_206 (range : option string) : response :=
  sample_response 206
    {| content_type := None; content_length := Some "3"%string;
       content_range := range; last_modified := None |}
    [Chunk 0 (lit "xyz") None].

Lemma partial_content_is_appended_witness :
  let cfg := sample_config 0 true in
  let a := answer_206 (Some "bytes 3-5/6"%string) in
  let E := sample_env (fun _ => Answer a) in
  let s := init cfg "u"%string (part_enable (sample_handle "jpg" partial_files)) false in
  rq_range (next_request s) = Some 3%N /\
  check_response cfg E sample_kwdict 3 a (sent s a)
  = (Next (3%N, Some "6"%string), set_code 206 (sent s a), []) /\
  exists t',
    snd (exchange cfg E sample_kwdict s) = EvRequest (next_request s) :: t' /\
    resumes 3 t'.
Proof.
  cbv zeta.
  destruct (exchange (sample_config 0 true)
              (sample_env (fun _ => Answer (answer_206 (Some "bytes 3-5/6"%string))))
              sample_kwdict
              (init (sample_config 0 true) "u"%string
                 (part_enable (sample_handle "jpg" partial_files)) false))
    as [[fl s'] t] eqn:Hrun.
  apply (partial_content_is_appended (sample_config 0 true) _ sample_kwdict
           _ _ 3%N "bytes 3-5/6"%string fl s' t); try reflexivity.
  - discriminate.
  - exact Hrun.
Defined.

(** With the reference path handle: the body follows the three bytes of
    the partial file. *)
Example partial_content_is_appended_on_disk :
  exists w t,
    download (sample_config 0 true)
      (sample_env (fun _ => Answer (answer_206 (Some "bytes 3-5/6"%string))))
      sample_kwdict 1 "u"%string (sample_handle "jpg" partial_files) false
    = Some (Returned ExitDone, w, false, t) /\
    files w !! "out/a.jpg.part"%string = Some (lit "abcxyz").
Proof. eexists. eexists. split; vm_compute; reflexivity. Qed.

Lemma partial_content_without_range_raises_witness :
  let cfg := sample_config 0 true in
  let a := answer_206 None in
  let E := sample_env (fun _ => Answer a) in
  let s := init cfg "u"%string (sample_handle "jpg" ∅) false in
  exchange cfg E sample_kwdict s
  = (Raise KeyError, set_code 206 (sent s a), [EvRequest (next_request s)]).
Proof.
  apply (partial_content_without_range_raises (sample_config 0 true) _
           sample_kwdict); reflexivity.
Defined.

(** ** The response at the end of the loop *)

Section Bound.

Context {P F : Type} `{PathFormat P F}.
Variables (cfg : config) (E : env) (kw : kwdict).






End Bound.


Section Response.

Context {P F : Type} `{PathFormat P F}.
Variables (cfg : config) (E : env) (kw : kwdict).

















End Response.


(** ** HTML where a file was expected *)

Section Html.

Context {P F : Type} `{PathFormat P F}.
Variables (cfg : config) (E : env) (kw : kwdict).




End Html.



(** * Properties of the logging actions *)

Module ActionsFacts.
Import Actions.

(** The keys of the table of [parse_logging]. *)
Definition registered (k : Z) : bool :=
  existsb (Z.eqb k) [-10; -20; -30; -40; 10; 20; 30; 40].

Lemma registered_abs (k : Z) :
  registered k = existsb (Z.eqb (Z.abs k)) [10; 20; 30; 40].
Proof.
  unfold registered. simpl.
  repeat match goal with
         | |- context [?a =? ?b] =>
             lazymatch a with Z.abs _ => fail | _ => idtac end;
             destruct (Z.eqb_spec a b); [subst; reflexivity|]
         end.
  repeat match goal with
         | |- context [?a =? ?b] => destruct (Z.eqb_spec a b); [lia|]
         end.
  reflexivity.
Qed.

Lemma empty_table_lookup (k : Z) :
  empty_table !! k = if registered k then Some [] else None.
Proof.
  unfold registered. cbn [existsb].
  repeat match goal with
         | |- context [k =? ?b] =>
             destruct (Z.eqb_spec k b); [subst; reflexivity|]
         end.
  cbn [orb]. apply not_elem_of_list_to_map_1.
  unfold DEBUG, INFO, WARNING, ERROR. cbn [fmap list_fmap fst Z.opp].
  rewrite !elem_of_cons, elem_of_nil. intuition congruence.
Qed.

Lemma append_lookup (k' k : Z) (h : hook) (t : table) :
  append k' h t !! k
  = (fun l => l ++ (if k =? k' then [h] else [])) <$> t !! k.
Proof.
  unfold append, table in *. destruct (Z.eqb_spec k k') as [->|Hne].
  - rewrite lookup_alter_eq. reflexivity.
  - rewrite lookup_alter_ne by congruence.
    destruct (t !! k); simpl; [rewrite app_nil_r|]; reflexivity.
Qed.

Lemma run_app (h1 h2 : list hook) (msg : string) (a : args) (w : world) :
  run (h1 ++ h2) msg a w
  = match run h1 msg a w with
    | (None, a', w') => run h2 msg a' w'
    | raised => raised
    end.
Proof.
  revert a w. induction h1 as [|[cond act] h1 IH]; intros a w; simpl;
    [reflexivity|].
  destruct (cond msg); [|apply IH].
  destruct (act a w) as [[[e|] a'] w']; [reflexivity|apply IH].
Qed.

Lemma run_unmatched (hooks : list hook) (msg : string) (a : args) (w : world) :
  (forall h, In h hooks -> fst h msg = false) ->
  run hooks msg a w = (None, a, w).
Proof.
  induction hooks as [|[cond act] hooks IH]; intros Hno; simpl; [reflexivity|].
  pose proof (Hno (cond, act) (or_introl eq_refl)) as Hc. simpl in Hc.
  rewrite Hc. apply IH. intros h Hin. apply Hno. right. exact Hin.
Qed.

(** The record of a message, when the logger is enabled for the level. *)
Definition emitted (self : LoggerAdapter) (lvl : Z) (msg : string) (w : world)
  : world :=
  if enabled self lvl then record (Emit lvl msg) w else w.

(** [log] in terms of [run] alone. *)
Lemma log_run (self : LoggerAdapter) (lvl : Z) (msg : string) (w : world)
    (before after : list hook) :
  actions self !! (- lvl) = Some before ->
  actions self !! lvl = Some after ->
  log self lvl msg w
  = match run before msg (set_level lvl (extra self)) w with
    | (Some e, _, w1) => (Some e, w1)
    | (None, a, w1) =>
        match level a with
        | None => (Some KeyError, w1)
        | Some lvl' =>
            let '(raised, _, w3) :=
              run after msg (extra self) (emitted self lvl' msg w1) in
            (raised, w3)
        end
    end.
Proof.
  intros Hb Ha. unfold log. rewrite Hb, Ha.
  assert (Hrun : match before with
                 | [] => (None, set_level lvl (extra self), w)
                 | _ :: _ => run before msg (set_level lvl (extra self)) w
                 end = run before msg (set_level lvl (extra self)) w)
    by (destruct before; reflexivity).
  rewrite Hrun.
  destruct (run before msg _ w) as [[[e|] a] w1]; [reflexivity|].
  destruct (level a) as [lvl'|]; [|reflexivity].
  unfold emitted. destruct after; reflexivity.
Qed.

(** X16.  A rule fires only on the messages that its condition accepts:
    when no hook registered for the level of a call accepts the message,
    [log] is the logger, whatever the actions are: it raises nothing,
    leaves the status alone and emits the record, at the level of the call,
    exactly when the logger is enabled for it. *)
Theorem log_without_matching_rule_is_plain (self : LoggerAdapter) (lvl : Z)
    (msg : string) (w : world) (before after : list hook) :
  actions self !! (- lvl) = Some before ->
  actions self !! lvl = Some after ->
  (forall h, In h (before ++ after) -> fst h msg = false) ->
  log self lvl msg w = (None, emitted self lvl msg w).
Proof.
  intros Hb Ha Hno. rewrite (log_run self lvl msg w before after Hb Ha).
  rewrite run_unmatched
    by (intros h Hin; apply Hno, in_or_app; left; exact Hin).
  simpl. rewrite run_unmatched
    by (intros h Hin; apply Hno, in_or_app; right; exact Hin).
  reflexivity.
Qed.

Section Rules.

Variable lib : library.

(** What a rule is read as: its condition, its two actions, and its level
    ([None]: every level). *)
Record parsed := {
  p_search : string -> bool;
  p_before : option action;
  p_after : option action;
  p_level : option Z;
}.

(** The part of [add_rule] that does not touch the table. *)
Definition parse_rule (rule : string * spec) : res parsed :=
  match condition lib rule with
  | None => Err re_error
  | Some search =>
      match actions_of lib (snd rule) with
      | Err e => Err e
      | Ok (before, after) =>
          if wildcard (level_name rule) then
            Ok {| p_search := search; p_before := before; p_after := after;
                  p_level := None |}
          else
            match _level_to_int lib (level_name rule) with
            | None => Err ValueError
            | Some l =>
                Ok {| p_search := search; p_before := before;
                      p_after := after; p_level := Some l |}
            end
      end
  end.

Definition opt_hook (search : string -> bool) (a : option action) : list hook :=
  match a with
  | Some act => [(search, act)]
  | None => []
  end.

(** The keys under which the [before] action and the [after] action of a
    rule are stored. *)
Definition before_key (lv : option Z) (k : Z) : bool :=
  match lv with
  | None => registered k && (k <? 0)
  | Some l => k =? - l
  end.

Definition after_key (lv : option Z) (k : Z) : bool :=
  match lv with
  | None => registered k && (0 <? k)
  | Some l => k =? l
  end.

(** The hooks that a rule adds under key [k]. *)
Definition entries (p : parsed) (k : Z) : list hook :=
  (if before_key (p_level p) k then opt_hook (p_search p) (p_before p) else [])
  ++ (if after_key (p_level p) k then opt_hook (p_search p) (p_after p)
      else []).

Definition hooks (ps : list parsed) (k : Z) : list hook :=
  flat_map (fun p => entries p k) ps.

Lemma fmap_app_lookup (t : table) (k : Z) (l1 l2 : list hook) :
  (fun l => l ++ l2) <$> ((fun l => l ++ l1) <$> t !! k)
  = (fun l => l ++ (l1 ++ l2)) <$> t !! k.
Proof.
  unfold table in *. destruct (t !! k); simpl; [rewrite <- app_assoc|];
    reflexivity.
Qed.

Lemma fmap_nil_lookup (t : table) (k : Z) :
  t !! k = (fun l => l ++ []) <$> t !! k.
Proof.
  unfold table in *. destruct (t !! k); simpl; [rewrite app_nil_r|];
    reflexivity.
Qed.

Lemma fmap_ext_lookup (t : table) (k : Z) (l1 l2 : list hook) :
  l1 = l2 ->
  (fun l => l ++ l1) <$> t !! k = (fun l => l ++ l2) <$> t !! k.
Proof. intros ->. reflexivity. Qed.

Lemma add_rule_ok (t t' : table) (rule : string * spec) :
  add_rule lib t rule = Ok t' ->
  exists p,
    parse_rule rule = Ok p /\
    forall k, t' !! k = (fun l => l ++ entries p k) <$> t !! k.
Proof.
  unfold add_rule, parse_rule.
  destruct (condition lib rule) as [search|]; [|discriminate].
  destruct (actions_of lib (snd rule)) as [[before after]|]; [|discriminate].
  destruct (wildcard (level_name rule)).
  - intros [= <-]. eexists. split; [reflexivity|]. intros k.
    unfold entries, before_key, after_key, registered.
    cbn [p_level p_search p_before p_after existsb].
    assert (Hnil : t !! k = (fun l => l ++ []) <$> t !! k)
      by apply fmap_nil_lookup.
    destruct before as [b|], after as [a|]; cbn [opt_hook];
      rewrite ?append_lookup, ?fmap_app_lookup;
      [ | | |rewrite Hnil at 1];
      apply fmap_ext_lookup; unfold DEBUG, INFO, WARNING, ERROR;
      change (- (10)) with (-10); change (- (20)) with (-20);
      change (- (30)) with (-30); change (- (40)) with (-40);
      repeat match goal with
             | |- context [k =? ?c] =>
                 destruct (Z.eqb_spec k c); [subst; reflexivity|]
             end;
      reflexivity.
  - destruct (_level_to_int lib _) as [l|]; [|discriminate].
    unfold append_at.
    destruct before as [b|].
    + destruct (t !! (- l)) eqn:Hb; [|discriminate].
      destruct after as [a|].
      * destruct (append (- l) (search, b) t !! l) eqn:Ha; [|discriminate].
        intros [= <-]. eexists. split; [reflexivity|]. intros k.
        rewrite !append_lookup, fmap_app_lookup. reflexivity.
      * intros [= <-]. eexists. split; [reflexivity|]. intros k.
        rewrite append_lookup. apply fmap_ext_lookup.
        unfold entries, before_key, after_key.
        cbn [p_level p_search p_before p_after opt_hook].
        destruct (k =? l); cbn iota; rewrite app_nil_r; reflexivity.
    + destruct after as [a|].
      * destruct (t !! l) eqn:Ha; [|discriminate].
        intros [= <-]. eexists. split; [reflexivity|]. intros k.
        rewrite append_lookup. apply fmap_ext_lookup.
        unfold entries, before_key, after_key.
        cbn [p_level p_search p_before p_after opt_hook].
        destruct (k =? - l); cbn iota; reflexivity.
      * intros [= <-]. eexists. split; [reflexivity|]. intros k.
        rewrite (fmap_nil_lookup t k) at 1.
        apply fmap_ext_lookup.
        unfold entries, before_key, after_key.
        cbn [p_level p_search p_before p_after opt_hook].
        destruct (k =? - l), (k =? l); reflexivity.
Qed.

Lemma add_rules_ok (rules : list (string * spec)) :
  forall t t' : table,
  add_rules lib t rules = Ok t' ->
  exists ps,
    Forall2 (fun rule p => parse_rule rule = Ok p) rules ps /\
    forall k, t' !! k = (fun l => l ++ hooks ps k) <$> t !! k.
Proof.
  induction rules as [|rule rules IH]; intros t t'; simpl.
  - intros [= <-]. exists []. split; [constructor|]. intros k.
    apply fmap_nil_lookup.
  - destruct (add_rule lib t rule) as [t1|] eqn:Hrule; [|discriminate].
    intros Hrest. destruct (add_rule_ok _ _ _ Hrule) as (p & Hp & Ht1).
    destruct (IH _ _ Hrest) as (ps & Hps & Ht').
    exists (p :: ps). split; [constructor; assumption|]. intros k.
    rewrite Ht', Ht1, fmap_app_lookup. reflexivity.
Qed.

(** The table of [parse_logging]: under each of its eight keys, the hooks
    of the rules in the order of the rules. *)
Lemma parse_logging_ok (rules : list (string * spec)) (t : table) :
  parse_logging lib rules = Ok t ->
  exists ps,
    Forall2 (fun rule p => parse_rule rule = Ok p) rules ps /\
    forall k, t !! k = if registered k then Some (hooks ps k) else None.
Proof.
  intros Hok. destruct (add_rules_ok _ _ _ Hok) as (ps & Hps & Ht).
  exists ps. split; [exact Hps|]. intros k.
  rewrite Ht, empty_table_lookup. destruct (registered k); reflexivity.
Qed.

Lemma registered_opp (k : Z) : registered (- k) = registered k.
Proof. rewrite !registered_abs, Z.abs_opp. reflexivity. Qed.

(** X17.  The table of [parse_logging] has the keys of DEBUG, INFO, WARNING
    and ERROR and of their negatives, whatever the rules: a call of [log]
    with any other level (CRITICAL, say) raises [KeyError] before anything
    is done: no action is run and no record is emitted. *)
Theorem log_at_unregistered_level_raises (rules : list (string * spec))
    (self : LoggerAdapter) (lvl : Z) (msg : string) (w : world) :
  parse_logging lib rules = Ok (actions self) ->
  registered lvl = false ->
  log self lvl msg w = (Some KeyError, w).
Proof.
  intros Hok Hreg. destruct (parse_logging_ok _ _ Hok) as (ps & _ & Ht).
  unfold log. rewrite (Ht (- lvl)), registered_opp, Hreg. reflexivity.
Qed.


(** *** A list of actions *)

Lemma run_chain (search : string -> bool) (acts : list action) (msg : string)
    (a : args) (w : world) :
  run (map (pair search) acts) msg a w
  = run [(search, _chain_actions acts)] msg a w.
Proof.
  simpl. destruct (search msg) eqn:Hs.
  - revert a w. induction acts as [|act acts IH]; intros a w; simpl;
      [reflexivity|].
    rewrite Hs. destruct (act a w) as [[[e|] a'] w']; [reflexivity|].
    apply IH.
  - apply run_unmatched. intros h Hin. apply in_map_iff in Hin as (x & <- & _).
    exact Hs.
Qed.

(** The hooks of the rules [(event, s)] for the actions [s] of a list, under
    a key that holds the [before] actions ([bk]) or the [after] actions
    ([ak]), against those of the one rule with the list. *)
Lemma run_collected (search : string -> bool) (bk ak : bool) (msg : string) :
  bk && ak = false ->
  forall (l : list string) (qs : list parsed) (bs aa : list action),
  collect lib l = Ok (bs, aa) ->
  Forall2 (fun s q => build lib s = Ok (p_before q, p_after q)) l qs ->
  forall a w,
    run (flat_map (fun q =>
           (if bk then opt_hook search (p_before q) else [])
           ++ (if ak then opt_hook search (p_after q) else [])) qs) msg a w
    = run ((if bk then [(search, _chain_actions bs)] else [])
           ++ (if ak then [(search, _chain_actions aa)] else [])) msg a w.
Proof.
  intros Hkeys l qs bs aa Hc Hqs.
  assert (Hsplit :
    forall a w,
      run (flat_map (fun q =>
             (if bk then opt_hook search (p_before q) else [])
             ++ (if ak then opt_hook search (p_after q) else [])) qs) msg a w
      = run (map (pair search) (if bk then bs else if ak then aa else []))
          msg a w).
  { revert bs aa Hc. induction Hqs as [|s q l qs Hq Hqs IH]; intros bs aa;
      simpl.
    - intros [= <- <-]. intros a w. destruct bk, ak; reflexivity.
    - rewrite Hq. destruct (collect lib l) as [[bs' aa']|]; [|discriminate].
      intros [= <- <-] a w. rewrite run_app.
      specialize (IH bs' aa' eq_refl).
      destruct bk, ak; try discriminate; cbn [app];
        destruct (p_before q) as [b|], (p_after q) as [x|];
        cbn [opt_hook app run map];
        try (destruct (search msg);
             [destruct (_ a w) as [[[e|] a'] w']; [reflexivity|]|]);
        apply IH. }
  intros a w. rewrite Hsplit.
  destruct bk, ak; try discriminate; cbn [app]; try apply run_chain.
  reflexivity.
Qed.

Lemma log_ext (self1 self2 : LoggerAdapter) (lvl : Z) (msg : string)
    (w : world) :
  enabled self1 = enabled self2 ->
  extra self1 = extra self2 ->
  (forall k,
     match actions self1 !! k, actions self2 !! k with
     | Some h1, Some h2 => forall a w, run h1 msg a w = run h2 msg a w
     | None, None => True
     | _, _ => False
     end) ->
  log self1 lvl msg w = log self2 lvl msg w.
Proof.
  intros He Hx Hk.
  pose proof (Hk (- lvl)) as Hb. pose proof (Hk lvl) as Ha.
  destruct (actions self1 !! (- lvl)) as [b1|] eqn:Hb1,
           (actions self2 !! (- lvl)) as [b2|] eqn:Hb2; try contradiction;
    [|unfold log; rewrite Hb1, Hb2; reflexivity].
  destruct (actions self1 !! lvl) as [a1|] eqn:Ha1,
           (actions self2 !! lvl) as [a2|] eqn:Ha2; try contradiction;
    [|unfold log; rewrite Hb1, Hb2, Ha1, Ha2; reflexivity].
  rewrite (log_run self1 lvl msg w b1 a1 Hb1 Ha1),
          (log_run self2 lvl msg w b2 a2 Hb2 Ha2).
  rewrite Hb, Hx. unfold emitted. rewrite He.
  destruct (run b2 msg _ w) as [[[e|] a] w1]; [reflexivity|].
  destruct (level a); [|reflexivity]. rewrite Ha. reflexivity.
Qed.

Lemma registered_nonzero (k : Z) : registered k = true -> k <> 0.
Proof. intros Hr ->. discriminate Hr. Qed.

Lemma keys_apart (lv : option Z) (k : Z) :
  registered k = true -> before_key lv k && after_key lv k = false.
Proof.
  intros Hreg. pose proof (registered_nonzero k Hreg).
  unfold before_key, after_key. destruct lv as [lv|].
  - destruct (Z.eqb_spec k (- lv)), (Z.eqb_spec k lv); try reflexivity. lia.
  - rewrite Hreg. destruct (Z.ltb_spec k 0), (Z.ltb_spec 0 k);
      try reflexivity. lia.
Qed.

(** The rules [(event, s)] for the actions [s] of a list are read with the
    condition and the level of the event, and with the actions that
    [build] gives. *)
Lemma rules_of_list (event : string) (search : string -> bool)
    (lv : option Z) :
  (forall s q, parse_rule (event, One s) = Ok q ->
     build lib s = Ok (p_before q, p_after q) /\
     p_search q = search /\ p_level q = lv) ->
  forall (l : list string) (qs : list parsed),
  Forall2 (fun rule q => parse_rule rule = Ok q)
    (map (fun s => (event, One s)) l) qs ->
  Forall2 (fun s q => build lib s = Ok (p_before q, p_after q)) l qs /\
  forall k,
    hooks qs k
    = flat_map (fun q =>
        (if before_key lv k then opt_hook search (p_before q) else [])
        ++ (if after_key lv k then opt_hook search (p_after q) else [])) qs.
Proof.
  intros Hq. induction l as [|s l IH]; intros qs Hqs;
    inversion Hqs as [|r q rs qs' Hr Hrest]; subst.
  - split; [constructor|reflexivity].
  - destruct (IH _ Hrest) as [Hb Hh]. destruct (Hq s q Hr) as (Hbuild & Hs & Hl).
    split; [constructor; assumption|]. intros k.
    unfold hooks. cbn [flat_map]. fold (hooks qs' k). rewrite Hh.
    unfold entries. rewrite Hs, Hl. reflexivity.
Qed.

(** X19.  A rule with a list of actions is the same as one rule for each
    action of the list, in the order of the list: when both readings are
    accepted by [parse_logging], [log] does the same with the one table as
    with the other, for every level, message and world. *)
Theorem list_of_actions_is_a_sequence_of_rules (event : string)
    (l : list string) (self1 self2 : LoggerAdapter) (lvl : Z) (msg : string)
    (w : world) :
  parse_logging lib [(event, Many l)] = Ok (actions self1) ->
  parse_logging lib (map (fun s => (event, One s)) l) = Ok (actions self2) ->
  enabled self1 = enabled self2 ->
  extra self1 = extra self2 ->
  log self1 lvl msg w = log self2 lvl msg w.
Proof.
  intros H1 H2 He Hx. apply log_ext; [exact He|exact Hx|]. intros k.
  destruct (parse_logging_ok _ _ H1) as (ps1 & Hps1 & Ht1).
  destruct (parse_logging_ok _ _ H2) as (ps2 & Hps2 & Ht2).
  rewrite Ht1, Ht2. destruct (registered k) eqn:Hreg; [|exact I].
  intros a w0.
  inversion Hps1 as [|rule p rules ps' Hp Hnil]; subst. inversion Hnil; subst.
  unfold hooks at 1. cbn [flat_map]. rewrite app_nil_r.
  revert Hp. unfold parse_rule.
  destruct (condition lib (event, Many l)) as [search|] eqn:Hcond; [|discriminate].
  cbn [snd actions_of].
  destruct (collect lib l) as [[bs aa]|] eqn:Hc; [|discriminate].
  assert (Hp2 : forall lv,
    (forall s q, parse_rule (event, One s) = Ok q ->
       build lib s = Ok (p_before q, p_after q) /\
       p_search q = search /\ p_level q = lv) ->
    run (entries {| p_search := search;
                    p_before := Some (_chain_actions bs);
                    p_after := Some (_chain_actions aa);
                    p_level := lv |} k) msg a w0
    = run (hooks ps2 k) msg a w0).
  { intros lv Hq.
    destruct (rules_of_list event search lv Hq l ps2 Hps2) as [Hb Hh].
    rewrite Hh. unfold entries. cbn [p_search p_before p_after p_level opt_hook].
    symmetry.
    apply (run_collected search _ _ msg (keys_apart lv k Hreg) l ps2 bs aa Hc Hb). }
  change (level_name (event, Many l)) with (strip (partition_head ":" event)).
  destruct (wildcard (strip (partition_head ":" event))) eqn:Hw.
  - intros [= <-]. apply Hp2. intros s q. unfold parse_rule.
    change (condition lib (event, One s)) with (condition lib (event, Many l)).
    rewrite Hcond. cbn [snd actions_of].
    destruct (build lib s) as [[b x]|]; [|discriminate].
    change (level_name (event, One s)) with (strip (partition_head ":" event)).
    rewrite Hw. intros [= <-]. auto.
  - destruct (_level_to_int lib (strip (partition_head ":" event))) as [lv|]
      eqn:Hlv; [|discriminate].
    intros [= <-]. apply Hp2. intros s q. unfold parse_rule.
    change (condition lib (event, One s)) with (condition lib (event, Many l)).
    rewrite Hcond. cbn [snd actions_of].
    destruct (build lib s) as [[b x]|]; [|discriminate].
    change (level_name (event, One s)) with (strip (partition_head ":" event)).
    rewrite Hw, Hlv. intros [= <-]. auto.
Qed.

(** *** The kinds of actions *)

(** The actions that are run before the record is emitted. *)
Definition runs_before (type : string) : bool :=
  existsb (String.eqb type) ["flag"; "level"; "status"]%string.

(** What a [before] action is. *)
Inductive before_action : string -> action -> Prop :=
| BeforeStatus (op : Z -> Z -> Z) (value : Z) :
    before_action "status" (_status op value)
| BeforeLevel (l : Z) : before_action "level" (_level l)
| BeforeFlag (flag value : string) :
    before_action "flag" (doing (SetFlag flag value)).

(** Every constructor of [ACTIONS] gives one action: a [before] action for
    [flag], [level] and [status], an [after] action for the others. *)
Lemma build_kind (s : string) (before after : option action) :
  build lib s = Ok (before, after) ->
  if runs_before (partition_head " " s)
  then after = None /\
       exists b, before = Some b /\ before_action (partition_head " " s) b
  else before = None /\ exists a, after = Some a.
Proof.
  unfold build, ACTIONS. cbn [lookup_name].
  repeat match goal with
         | |- context [String.eqb ?c (partition_head " " s)] =>
             destruct (String.eqb_spec c (partition_head " " s)) as [<-|?]
         end; try discriminate; cbn [runs_before existsb String.eqb Ascii.eqb Bool.eqb orb];
    unfold action_abort, action_exec, action_exit, action_flag, action_level,
      action_print, action_raise, action_restart, action_status,
      action_terminate, action_wait.
  - intros [= <- <-]. eauto.
  - intros [= <- <-]. eauto.
  - intros [= <- <-]. eauto.
  - destruct (flag_match lib _) as [[flag value]|]; [|discriminate].
    intros [= <- <-]. split; [reflexivity|]. eexists. split; [reflexivity|].
    constructor.
  - destruct (_level_to_int lib _); [|discriminate].
    intros [= <- <-]. split; [reflexivity|]. eexists. split; [reflexivity|].
    constructor.
  - intros [= <- <-]. eauto.
  - destruct (if in_exception lib _ then _ else _) as [m c].
    intros [= <- <-]. eauto.
  - intros [= <- <-]. eauto.
  - destruct (status_match lib _) as [[op value]|]; [|discriminate].
    destruct (operator op); [|discriminate].
    destruct (int lib value); [|discriminate].
    intros [= <- <-]. split; [reflexivity|]. eexists. split; [reflexivity|].
    constructor.
  - intros [= <- <-]. eauto.
  - destruct (nonempty _); [destruct (duration_error lib _); [discriminate|]|];
      intros [= <- <-]; eauto.
Qed.




(** *** Levels that [parse_logging] does not take *)

Lemma add_rules_app (t : table) (pre rest : list (string * spec)) :
  add_rules lib t (pre ++ rest)
  = match add_rules lib t pre with
    | Ok t' => add_rules lib t' rest
    | Err e => Err e
    end.
Proof.
  revert t. induction pre as [|rule pre IH]; intros t; simpl; [reflexivity|].
  destruct (add_rule lib t rule); [apply IH|reflexivity].
Qed.

Lemma actions_of_some (sp : spec) (before after : option action) :
  actions_of lib sp = Ok (before, after) ->
  (exists b, before = Some b) \/ before = None /\ exists a, after = Some a.
Proof.
  destruct sp as [s|l]; simpl.
  - intros Hb. apply build_kind in Hb.
    destruct (runs_before _).
    + destruct Hb as (_ & b & -> & _). eauto.
    + destruct Hb as (-> & a & ->). eauto.
  - destruct (collect lib l) as [[bs aa]|]; [|discriminate].
    intros [= <- <-]. eauto.
Qed.

(** X21.  A rule must name one of the levels of the table.  When the
    rules before it are accepted, and its pattern and its actions are
    accepted too, a rule whose level is neither empty nor the wildcard
    makes [parse_logging] raise [ValueError] when the name is not one of
    [logging._nameToLevel] (those are in upper case) and [int] does not
    read it, and [KeyError] when it is read as a level other than DEBUG,
    INFO, WARNING and ERROR or their negatives (CRITICAL, say). *)
Theorem rule_level_must_be_registered (pre post : list (string * spec))
    (rule : string * spec) (t : table) (search : string -> bool)
    (ba : option action * option action) :
  parse_logging lib pre = Ok t ->
  condition lib rule = Some search ->
  actions_of lib (snd rule) = Ok ba ->
  wildcard (level_name rule) = false ->
  (_level_to_int lib (level_name rule) = None ->
   parse_logging lib (pre ++ rule :: post) = Err ValueError) /\
  (forall l, _level_to_int lib (level_name rule) = Some l ->
     registered l = false ->
     parse_logging lib (pre ++ rule :: post) = Err KeyError).
Proof.
  intros Hpre Hcond Hact Hw. unfold parse_logging in *.
  rewrite add_rules_app, Hpre. cbn [add_rules].
  destruct (add_rules_ok _ _ _ Hpre) as (ps & _ & Ht).
  assert (Hrule : add_rule lib t rule
                  = match _level_to_int lib (level_name rule) with
                    | None => Err ValueError
                    | Some l =>
                        match (match fst ba with
                               | Some b => append_at (- l) (search, b) t
                               | None => Ok t
                               end) with
                        | Err e => Err e
                        | Ok t1 =>
                            match snd ba with
                            | Some a => append_at l (search, a) t1
                            | None => Ok t1
                            end
                        end
                    end).
  { unfold add_rule. rewrite Hcond, Hact. destruct ba as [before after].
    rewrite Hw. reflexivity. }
  rewrite Hrule. split.
  - intros ->. reflexivity.
  - intros l -> Hreg.
    assert (Hno : forall k, registered k = false -> t !! k = None).
    { intros k Hk. rewrite Ht, empty_table_lookup, Hk. reflexivity. }
    destruct ba as [before after].
    destruct (actions_of_some _ _ _ Hact) as [[b ->]|[-> [a ->]]];
      cbn [fst snd]; unfold append_at.
    + rewrite (Hno (- l)) by (rewrite registered_opp; exact Hreg).
      reflexivity.
    + rewrite (Hno l Hreg). reflexivity.
Qed.

(** *** Signals *)

Lemma collect_app (l1 l2 : list string) :
  collect lib (l1 ++ l2)
  = match collect lib l1, collect lib l2 with
    | Ok (b1, a1), Ok (b2, a2) => Ok (b1 ++ b2, a1 ++ a2)
    | Err e, _ => Err e
    | _, Err e => Err e
    end.
Proof.
  induction l1 as [|s l1 IH]; simpl.
  - destruct (collect lib l2) as [[b2 a2]|]; reflexivity.
  - destruct (build lib s) as [[b a]|]; [|reflexivity].
    rewrite IH. destruct (collect lib l1) as [[b1 a1]|]; [|reflexivity].
    destruct (collect lib l2) as [[b2 a2]|]; [|reflexivity].
    destruct b, a; reflexivity.
Qed.

Definition is_before (s : string) : bool := runs_before (partition_head " " s).

Lemma collect_filter (l : list string) (bs aa : list action) :
  collect lib l = Ok (bs, aa) ->
  collect lib (List.filter is_before l) = Ok (bs, []) /\
  collect lib (List.filter (fun s => negb (is_before s)) l) = Ok ([], aa).
Proof.
  revert bs aa. induction l as [|s l IH]; intros bs aa; simpl.
  - intros [= <- <-]. auto.
  - destruct (build lib s) as [[b a]|] eqn:Hb; [|discriminate].
    destruct (collect lib l) as [[bs' aa']|]; [|discriminate].
    intros [= <- <-]. destruct (IH _ _ eq_refl) as [Hbs Haa].
    pose proof (build_kind _ _ _ Hb) as Hk.
    change (runs_before (partition_head " " s)) with (is_before s) in Hk.
    cbn [List.filter]. destruct (is_before s); cbn [negb collect].
    + destruct Hk as (-> & b' & -> & _). rewrite Hb, Hbs. auto.
    + destruct Hk as (-> & a' & ->). rewrite Hb, Haa. auto.
Qed.

(** X22.  The handler of a signal runs the [flag], [level] and [status]
    actions of its list first, whatever their place in the list: the
    action that [parse_signals] builds for a list is the one that it builds
    for the list with these actions moved to the front. *)
Theorem signal_actions_are_regrouped (l : list string) (act : action) :
  signal_action lib (Many l) = Ok act ->
  signal_action lib
    (Many (List.filter is_before l
           ++ List.filter (fun s => negb (is_before s)) l))
  = Ok act.
Proof.
  simpl. destruct (collect lib l) as [[bs aa]|] eqn:Hc; [|discriminate].
  intros [= <-]. destruct (collect_filter _ _ _ Hc) as [Hb Ha].
  rewrite collect_app, Hb, Ha, app_nil_r. reflexivity.
Qed.

(** A rule that has a [status] action. *)
Definition sets_status (sp : spec) : Prop :=
  match sp with
  | One s => partition_head " " s = "status"%string
  | Many l => exists s, In s l /\ partition_head " " s = "status"%string
  end.

(** The effects of [flag] actions only. *)
Definition flags_only (evs : list effect) : Prop :=
  Forall (fun ev => exists flag value, ev = SetFlag flag value) evs.

Lemma before_action_without_job (type : string) (b : action) (a : args)
    (w : world) :
  before_action type b ->
  job a = false ->
  exists r a' evs,
    b a w = (r, a', {| status := status w; effects := effects w ++ evs |}) /\
    job a' = false /\ flags_only evs /\
    (r = None \/ r = Some KeyError) /\
    (type = "status"%string -> r = Some KeyError).
Proof.
  intros Hb Hjob. destruct w as [st evs0]. destruct Hb.
  - exists (Some KeyError), a, []. unfold _status. rewrite Hjob. simpl.
    rewrite app_nil_r. repeat split; auto. constructor.
  - exists None, (set_level l a), []. unfold _level. simpl.
    rewrite app_nil_r. repeat split; auto; try discriminate. constructor.
  - exists None, a, [SetFlag flag value]. unfold doing, record. simpl.
    repeat split; auto; try discriminate. repeat constructor. eauto.
Qed.

Lemma chain_without_job (l : list string) :
  forall (bs aa rest : list action) (a : args) (w : world),
  collect lib l = Ok (bs, aa) ->
  job a = false ->
  (exists s, In s l /\ partition_head " " s = "status"%string) ->
  exists a' evs,
    _chain_actions (bs ++ rest) a w
    = (Some KeyError, a',
       {| status := status w; effects := effects w ++ evs |}) /\
    flags_only evs.
Proof.
  induction l as [|s l IH]; intros bs aa rest a w Hc Hjob (s0 & Hin & Hs0);
    [destruct Hin|].
  simpl in Hc. destruct (build lib s) as [[b x]|] eqn:Hb; [|discriminate].
  destruct (collect lib l) as [[bs' aa']|] eqn:Hc'; [|discriminate].
  injection Hc as <- <-.
  pose proof (build_kind _ _ _ Hb) as Hk.
  destruct (runs_before (partition_head " " s)) eqn:Hrb.
  - destruct Hk as (-> & b' & -> & Hba). cbn [app _chain_actions].
    destruct (before_action_without_job _ b' a w Hba Hjob)
      as (r & a1 & evs1 & -> & Hjob1 & Hf1 & Hr & Hst).
    destruct Hr as [->| ->]; [|eauto].
    destruct Hin as [<-|Hin]; [discriminate (Hst Hs0)|].
    destruct (IH bs' aa' rest a1
                {| status := status w; effects := effects w ++ evs1 |}
                eq_refl Hjob1)
      as (a2 & evs2 & -> & Hf2); [eauto|].
    exists a2, (evs1 ++ evs2). cbn [status effects]. rewrite app_assoc.
    split; [reflexivity|]. apply Forall_app. auto.
  - destruct Hk as (-> & x' & ->).
    destruct Hin as [<-|Hin]; [rewrite Hs0 in Hrb; discriminate|].
    apply (IH bs' aa' rest a w eq_refl Hjob). eauto.
Qed.

(** X23.  A [status] action cannot be bound to a signal.  The handler
    calls its action with the dictionary that is the default of
    [signals_handler], which never has the entry [job]: for a rule with a
    [status] action the handler raises [KeyError], the status of the job
    is what it was, and of the actions of a list none of those that follow
    the record in a log call ([print], [exec], [wait], ...) is run. *)
Theorem status_action_fails_in_signal_handler (sp : spec) (act : action)
    (a : args) (w : world) :
  signal_action lib sp = Ok act ->
  sets_status sp ->
  job a = false ->
  exists a' evs,
    act a w
    = (Some KeyError, a',
       {| status := status w; effects := effects w ++ evs |}) /\
    flags_only evs.
Proof.
  destruct sp as [s|l]; cbn [signal_action sets_status].
  - destruct (build lib s) as [[b x]|] eqn:Hb; [|discriminate].
    intros Hact Hs Hjob. pose proof (build_kind _ _ _ Hb) as Hk.
    rewrite Hs in Hk. cbn in Hk. destruct Hk as (-> & b' & -> & Hba).
    injection Hact as <-.
    destruct (before_action_without_job _ b' a w Hba Hjob)
      as (r & a1 & evs1 & -> & _ & Hf1 & _ & Hst).
    rewrite (Hst eq_refl). eauto.
  - destruct (collect lib l) as [[bs aa]|] eqn:Hc; [|discriminate].
    intros [= <-] Hs Hjob. eapply chain_without_job; eauto.
Qed.

End Rules.

(** *** Instances *)

(** A library for the examples: a pattern is found where it occurs, [int]
    reads decimal digits, a status is one operator character followed by
    [= ] and the value, a flag is the word before the first space, and the
    only signal is SIGINT. *)
Definition sample_library : library :=
  {| re_search := fun pattern =>
       Some (fun msg => bool_decide (is_Some (index 0 pattern msg)));
     status_match := fun opts =>
       Some (substring 0 1 opts, partition_tail " " opts);
     flag_match := fun opts => Some (partition_head " " opts, None);
     int := fun s => if nonempty s then decimal 0 s else None;
     upper := fun s => s;
     lower := fun s => s;
     duration_error := fun _ => None;
     in_exception := fun _ => false;
     in_builtins := fun _ => true;
     signal_number := fun name =>
       if String.eqb name "SIGINT" then Some 2 else None;
     signal_error := fun _ => None |}.

(** An adapter for the table of a list of rules (the empty table when the
    rules are not accepted), with a logger that is enabled from INFO on. *)
Definition sample_adapter (rules : list (string * spec)) : LoggerAdapter :=
  {| enabled := fun lvl => 20 <=? lvl;
     extra := {| job := true; level := None |};
     actions := match parse_logging sample_library rules with
                | Ok t => t
                | Err _ => empty_table
                end |}.

Definition quiet_world : world := {| status := 0; effects := [] |}.

Lemma log_without_matching_rule_is_plain_witness :
  let self := sample_adapter [("WARNING:timeout", One "print x")]%string in
  log self 30 "done" quiet_world = (None, emitted self 30 "done" quiet_world).
Proof.
  apply (log_without_matching_rule_is_plain
           (sample_adapter [("WARNING:timeout", One "print x")]%string)
           30 "done" quiet_world []
           [(fun msg => bool_decide (is_Some (index 0 "timeout" msg)),
             doing (Print "x"))]).
  - reflexivity.
  - reflexivity.
  - intros h [<-|[]]. reflexivity.
Defined.

Lemma log_at_unregistered_level_raises_witness :
  log (sample_adapter [("WARNING", One "print x")]%string) 50 "done"
    quiet_world
  = (Some KeyError, quiet_world).
Proof.
  apply (log_at_unregistered_level_raises sample_library
           [("WARNING", One "print x")]%string); reflexivity.
Defined.


Lemma list_of_actions_is_a_sequence_of_rules_witness :
  log (sample_adapter
         [("ERROR", Many ["status |= 1"; "print failed"])]%string)
    40 "no space left" quiet_world
  = log (sample_adapter
           [("ERROR", One "status |= 1"); ("ERROR", One "print failed")]%string)
      40 "no space left" quiet_world.
Proof.
  apply (list_of_actions_is_a_sequence_of_rules sample_library "ERROR"
           ["status |= 1"; "print failed"]%string); reflexivity.
Defined.


Lemma rule_level_must_be_registered_witness :
  parse_logging sample_library
    (List.app [("WARNING", One "print x")] [("warning", One "print x")])%string
  = Err ValueError /\
  parse_logging sample_library
    (List.app [("WARNING", One "print x")] [("CRITICAL", One "print x")])%string
  = Err KeyError.
Proof.
  split.
  - eapply (proj1 (rule_level_must_be_registered sample_library
                     [("WARNING", One "print x")]%string []
                     ("warning", One "print x")%string _ _ _
                     eq_refl eq_refl eq_refl eq_refl)).
    reflexivity.
  - eapply (proj2 (rule_level_must_be_registered sample_library
                     [("WARNING", One "print x")]%string []
                     ("CRITICAL", One "print x")%string _ _ _
                     eq_refl eq_refl eq_refl eq_refl) 50); reflexivity.
Defined.

Lemma signal_actions_are_regrouped_witness :
  signal_action sample_library (Many ["status = 1"; "print a"]%string)
  = signal_action sample_library (Many ["print a"; "status = 1"]%string).
Proof.
  symmetry.
  apply (signal_actions_are_regrouped sample_library
           ["print a"; "status = 1"]%string).
  reflexivity.
Defined.

Lemma status_action_fails_in_signal_handler_witness :
  exists a' evs,
    _chain_actions [_status (fun _ y => y) 1; doing (Print "a")] no_args
      quiet_world
    = (Some KeyError, a',
       {| status := status quiet_world;
          effects := effects quiet_world ++ evs |}) /\
    flags_only evs.
Proof.
  apply (status_action_fails_in_signal_handler sample_library
           (Many ["print a"; "status = 1"]%string)).
  - reflexivity.
  - exists "status = 1"%string. split; [right; left; reflexivity|reflexivity].
  - reflexivity.
Defined.

End ActionsFacts.
